(** * sketch: line-sketching image approximation (main.go)

    A shallow embedding of the rasterizer ([line], [bcopy], [bdiff]), the
    scorer ([calcDiff]), the palette builder and the per-iteration
    accept/reject step of [sketch], together with the snapshot routine
    [save], and the properties of them that the specification states. *)

From Stdlib Require Import ZArith Lia QArith_base.
From Stdlib.Strings Require Import Byte Ascii.
From stdpp Require Import base numbers option list strings gmap pretty.

Local Open Scope Z_scope.

(** ** Go's [int]: 64-bit two's complement with wrap-around *)

Module GoInt.

Definition MinInt : Z := - 2 ^ 63.
Definition MaxInt : Z := 2 ^ 63 - 1.

Definition wrap (z : Z) : Z := (z + 2 ^ 63) mod 2 ^ 64 - 2 ^ 63.

Definition add (a b : Z) : Z := wrap (a + b).
Definition sub (a b : Z) : Z := wrap (a - b).
Definition mul (a b : Z) : Z := wrap (a * b).
Definition neg (a : Z) : Z := wrap (- a).
(* Go's [/] truncates toward zero. *)
Definition quot (a b : Z) : Z := wrap (Z.quot a b).

Definition in_range (z : Z) : Prop := MinInt <= z <= MaxInt.

End GoInt.

(** ** The Bresenham traversal shared by [line], [bcopy] and [bdiff]

    The three functions open with the same text: the absolute deltas, the
    step signs and the initial error term.  [setup] is that prologue and
    [advance] is the tail of the loop body (everything after the exit test). *)

Record bres := Bres { dX : Z; dY : Z; sX : Z; sY : Z }.
Record cursor := Cursor { cx : Z; cy : Z; cerr : Z }.

Definition setup (x0 y0 x1 y1 : Z) : bres * cursor :=
  let dx := GoInt.sub x1 x0 in
  let dy := GoInt.sub y1 y0 in
  let dx := if dx <? 0 then GoInt.neg dx else dx in
  let dy := if dy <? 0 then GoInt.neg dy else dy in
  let sx := if x0 <? x1 then 1 else -1 in
  let sy := if y0 <? y1 then 1 else -1 in
  let err := GoInt.sub dx dy in
  (Bres dx dy sx sy, Cursor x0 y0 err).

Definition advance (b : bres) (c : cursor) : cursor :=
  let e2 := GoInt.mul 2 (cerr c) in
  let '(err, x0) :=
    if e2 >? GoInt.neg (dY b)
    then (GoInt.sub (cerr c) (dY b), GoInt.add (cx c) (sX b))
    else (cerr c, cx c) in
  let '(err, y0) :=
    if e2 <? dX b
    then (GoInt.add err (dX b), GoInt.add (cy c) (sY b))
    else (err, cy c) in
  Cursor x0 y0 err.

Definition at_end (c : cursor) (x1 y1 : Z) : bool :=
  (cx c =? x1) && (cy c =? y1).

(** The sequence of coordinates handed to the per-pixel action, in order.
    The loops have no iteration bound of their own, so each is given fuel;
    [None] means the fuel ran out before the exit test succeeded. *)

Fixpoint visited_loop (fuel : nat) (b : bres) (x1 y1 : Z) (c : cursor)
  : option (list (Z * Z)) :=
  match fuel with
  | O => None
  | S fuel' =>
      if at_end c x1 y1 then Some [(cx c, cy c)]
      else cons (cx c, cy c) <$> visited_loop fuel' b x1 y1 (advance b c)
  end.

Definition visited (fuel : nat) (x0 y0 x1 y1 : Z) : option (list (Z * Z)) :=
  let '(b, c) := setup x0 y0 x1 y1 in visited_loop fuel b x1 y1 c.

(** ** Colours and images (Go's [image/color] and [image])

    [color.RGBA] has four 8-bit channels.  [image.RGBA] is modelled with one
    list entry per pixel in row-major order (Go stores the four channel bytes
    of a pixel consecutively in [Pix]).  Its rectangle [Rect] is kept as the
    corner [Min] = ([MinX], [MinY]) and the size ([Dx], [Dy]), so that [Max]
    is [Min] plus the size.  [Min] need not be (0,0): a decoded GIF frame
    keeps its offset within the screen, and the canvases are created with
    the bounds of the source.  Rows are [Dx] entries apart, the stride of
    every image made by [NewRGBA].  As in Go, [RGBAAt] outside the rectangle
    yields the zero colour and [SetRGBA] outside it does nothing. *)

Module color.

Record RGBA := mkRGBA { R : byte; G : byte; B : byte; A : byte }.

Definition zero : RGBA := mkRGBA x00 x00 x00 x00.

End color.

Module image.

Record RGBA := mkRGBA {
  Pix : list color.RGBA;
  MinX : Z; MinY : Z;     (* Rect.Min *)
  Dx : Z; Dy : Z          (* Rect.Dx(), Rect.Dy() *)
}.

(* image.Point{x, y}.In(p.Rect) *)
Definition inside (p : RGBA) (x y : Z) : bool :=
  (MinX p <=? x) && (x <? MinX p + Dx p) &&
  (MinY p <=? y) && (y <? MinY p + Dy p).

Definition PixOffset (p : RGBA) (x y : Z) : nat :=
  Z.to_nat ((y - MinY p) * Dx p + (x - MinX p)).

Definition RGBAAt (p : RGBA) (x y : Z) : color.RGBA :=
  if inside p x y then default color.zero (Pix p !! PixOffset p x y)
  else color.zero.

Definition SetRGBA (p : RGBA) (x y : Z) (c : color.RGBA) : RGBA :=
  if inside p x y
  then mkRGBA (<[PixOffset p x y := c]> (Pix p)) (MinX p) (MinY p) (Dx p) (Dy p)
  else p.

(* image.NewRGBA(r), for the rectangle [r] with corner (x, y) and size
   (w, h): all channels zero. *)
Definition NewRGBA (x y w h : Z) : RGBA :=
  mkRGBA (replicate (Z.to_nat (w * h)) color.zero) x y w h.

(* image.NewRGBA(p.Bounds()) *)
Definition NewLike (p : RGBA) : RGBA := NewRGBA (MinX p) (MinY p) (Dx p) (Dy p).

(* draw.Draw(p, p.Bounds(), &image.Uniform{c}, image.ZP, draw.Src) *)
Definition fill (p : RGBA) (c : color.RGBA) : RGBA :=
  mkRGBA ((fun _ => c) <$> Pix p) (MinX p) (MinY p) (Dx p) (Dy p).

(* Buffer length agrees with the bounds. *)
Definition wf (p : RGBA) : Prop :=
  0 <= Dx p /\ 0 <= Dy p /\ Z.of_nat (length (Pix p)) = Dx p * Dy p.

End image.

(** ** [float64], on the values the scorer produces

    Every float the scorer handles is an integer: a channel value, a
    difference or product of such, or a sum of those.  An integer-valued
    double is represented by its value; [rnd] is IEEE round-to-nearest-even
    to a 53-bit significand (exponent overflow is out of reach). *)

Module F64.

Definition rnd (z : Z) : Z :=
  let a := Z.abs z in
  if a <? 2 ^ 53 then z
  else
    let e := Z.log2 a - 52 in
    let q := a / 2 ^ e in
    let r := a mod 2 ^ e in
    let h := 2 ^ (e - 1) in
    let q' := if r <? h then q
              else if h <? r then q + 1
              else if Z.even q then q else q + 1 in
    Z.sgn z * (q' * 2 ^ e).

Definition of_uint8 (b : byte) : Z := Z.of_N (Byte.to_N b).
Definition add (a b : Z) : Z := rnd (a + b).
Definition sub (a b : Z) : Z := rnd (a - b).
Definition mul (a b : Z) : Z := rnd (a * b).

End F64.

(** ** [calcDiff], [bdiff], [bcopy], [line] *)

(* The [else] branch of [if true] (a cosine distance) is dead code. *)
Definition calcDiff (img1 img2 : image.RGBA) (x y : Z) : Z :=
  let a := image.RGBAAt img1 x y in
  let b := image.RGBAAt img2 x y in
  let A0 := F64.of_uint8 (color.R a) in
  let A1 := F64.of_uint8 (color.G a) in
  let A2 := F64.of_uint8 (color.B a) in
  let A3 := F64.of_uint8 (color.A a) in
  let B0 := F64.of_uint8 (color.R b) in
  let B1 := F64.of_uint8 (color.G b) in
  let B2 := F64.of_uint8 (color.B b) in
  let B3 := F64.of_uint8 (color.A b) in
  let x := F64.mul (F64.sub B0 A0) (F64.sub B0 A0) in
  let x := F64.add x (F64.mul (F64.sub B1 A1) (F64.sub B1 A1)) in
  let x := F64.add x (F64.mul (F64.sub B2 A2) (F64.sub B2 A2)) in
  let x := F64.add x (F64.mul (F64.sub B3 A3) (F64.sub B3 A3)) in
  x.

Fixpoint bdiff_loop (fuel : nat) (a b : image.RGBA) (br : bres) (x1 y1 : Z)
    (c : cursor) (dif : Z) : option Z :=
  match fuel with
  | O => None
  | S fuel' =>
      let dif := F64.add dif (calcDiff a b (cx c) (cy c)) in
      if at_end c x1 y1 then Some dif
      else bdiff_loop fuel' a b br x1 y1 (advance br c) dif
  end.

Definition bdiff (fuel : nat) (a b : image.RGBA) (x0 y0 x1 y1 : Z) : option Z :=
  let '(br, c) := setup x0 y0 x1 y1 in bdiff_loop fuel a b br x1 y1 c 0.

(* [dst] and [src] are distinct objects at both call sites, so the reads
   from [src] are unaffected by the writes to [dst]. *)
Fixpoint bcopy_loop (fuel : nat) (dst src : image.RGBA) (br : bres) (x1 y1 : Z)
    (c : cursor) : option image.RGBA :=
  match fuel with
  | O => None
  | S fuel' =>
      let dst := image.SetRGBA dst (cx c) (cy c) (image.RGBAAt src (cx c) (cy c)) in
      if at_end c x1 y1 then Some dst
      else bcopy_loop fuel' dst src br x1 y1 (advance br c)
  end.

Definition bcopy (fuel : nat) (dst src : image.RGBA) (x0 y0 x1 y1 : Z)
  : option image.RGBA :=
  let '(br, c) := setup x0 y0 x1 y1 in bcopy_loop fuel dst src br x1 y1 c.

Fixpoint line_loop (fuel : nat) (img : image.RGBA) (br : bres) (x1 y1 : Z)
    (c : cursor) (clr : color.RGBA) : option image.RGBA :=
  match fuel with
  | O => None
  | S fuel' =>
      let img := image.SetRGBA img (cx c) (cy c) clr in
      if at_end c x1 y1 then Some img
      else line_loop fuel' img br x1 y1 (advance br c) clr
  end.

Definition line (fuel : nat) (img : image.RGBA) (x0 y0 x1 y1 : Z)
    (clr : color.RGBA) : option image.RGBA :=
  let '(br, c) := setup x0 y0 x1 y1 in line_loop fuel img br x1 y1 c clr.

(** ** Palette construction (the first loop of [sketch])

    [uniq] is Go's [map[color.RGBA]bool]; only key presence is tested. *)

#[global] Instance byte_eq_decision : EqDecision byte := Byte.byte_eq_dec.

#[global] Instance byte_countable : Countable byte :=
  inj_countable Byte.to_N Byte.of_N Byte.of_to_N.

#[global] Instance color_eq_decision : EqDecision color.RGBA.
Proof. solve_decision. Defined.

#[global] Instance color_countable : Countable color.RGBA :=
  inj_countable'
    (fun c => (color.R c, color.G c, color.B c, color.A c))
    (fun t => let '(r, g, b, a) := t in color.mkRGBA r g b a)
    (fun c => match c with color.mkRGBA _ _ _ _ => eq_refl end).

Definition palette_step (palUniq : bool) (img : image.RGBA) (x y : Z)
    (st : list color.RGBA * gmap color.RGBA bool)
  : list color.RGBA * gmap color.RGBA bool :=
  let '(palette, uniq) := st in
  if palUniq then
    let clr := image.RGBAAt img x y in
    match uniq !! clr with
    | None => (palette ++ [clr], <[clr := true]> uniq)
    | Some _ => (palette, uniq)
    end
  else (palette ++ [image.RGBAAt img x y], uniq).

(* for y := 0; y < h; y++ { for x := 0; x < w; x++ { ... } } *)
Definition build_palette (palUniq : bool) (img : image.RGBA) : list color.RGBA :=
  let w := image.Dx img in
  let h := image.Dy img in
  fst (foldl
         (fun st y =>
            foldl (fun st x => palette_step palUniq img x y st) st (seqZ 0 w))
         ([], ∅) (seqZ 0 h)).

(** ** One iteration of the convergence loop of [sketch]

    [rand.Intn n] panics for [n <= 0] and otherwise returns some value of
    [[0, n)]; the generator's raw outputs are inputs of the model, reduced
    into that interval, so that every possible outcome is covered. *)

Record draws := Draws { raw_x1 : Z; raw_y1 : Z; raw_x2 : Z; raw_y2 : Z; raw_clr : Z }.

Definition Intn (n raw : Z) : option Z :=
  if 0 <? n then Some (raw mod n) else None.

Record canvases := Canvases {
  img1 : image.RGBA;   (* canvas A: the line is drawn here first *)
  img2 : image.RGBA;   (* canvas B: the one that is saved *)
  stati : Z;
  statc : Z
}.

Definition bg : color.RGBA := color.mkRGBA x00 x00 x00 xff.

Definition init_canvases (img : image.RGBA) : canvases :=
  Canvases (image.fill (image.NewLike img) bg)
           (image.fill (image.NewLike img) bg)
           0 0.

(* The endpoints and the colour of the proposed line (lines 278-282). *)
Definition propose (lineLen : Z) (img : image.RGBA) (palette : list color.RGBA)
    (d : draws) : option (Z * Z * Z * Z * color.RGBA) :=
  let w := image.Dx img in
  let h := image.Dy img in
  x1 ← Intn w (raw_x1 d);
  y1 ← Intn h (raw_y1 d);
  ox ← Intn lineLen (raw_x2 d);
  let x2 := GoInt.add (GoInt.add (GoInt.quot (GoInt.neg lineLen) 2) x1) ox in
  oy ← Intn lineLen (raw_y2 d);
  let y2 := GoInt.add (GoInt.add (GoInt.quot (GoInt.neg lineLen) 2) y1) oy in
  i ← Intn (Z.of_nat (length palette)) (raw_clr d);
  clr ← palette !! Z.to_nat i;
  Some (x1, y1, x2, y2, clr).

(* Lines 277-311.  With [-P] the two [bdiff] calls run in two goroutines
   that are joined before the comparison; they only read, so the values
   are those of the sequential branch. *)
Definition iteration (fuel : nat) (lineLen : Z) (img : image.RGBA)
    (palette : list color.RGBA) (s : canvases) (d : draws) : option canvases :=
  '(x1, y1, x2, y2, clr) ← propose lineLen img palette d;
  a ← line fuel (img1 s) x1 y1 x2 y2 clr;
  diffimg1 ← bdiff fuel img a x1 y1 x2 y2;
  diffimg2 ← bdiff fuel img (img2 s) x1 y1 x2 y2;
  if diffimg1 <? diffimg2 then
    b ← bcopy fuel (img2 s) a x1 y1 x2 y2;
    Some (Canvases a b (GoInt.add (stati s) 1) (GoInt.add (statc s) 1))
  else
    a' ← bcopy fuel a (img2 s) x1 y1 x2 y2;
    Some (Canvases a' (img2 s) (GoInt.add (stati s) 1) (statc s)).

Fixpoint iterations (fuel : nat) (lineLen : Z) (img : image.RGBA)
    (palette : list color.RGBA) (s : canvases) (ds : list draws)
  : option canvases :=
  match ds with
  | [] => Some s
  | d :: ds' =>
      s' ← iteration fuel lineLen img palette s d;
      iterations fuel lineLen img palette s' ds'
  end.

(** ** Snapshots: [save], the goroutine it starts, and the process state

    Go passes images by pointer.  The canvas handed to [save] and the
    package-level [saveScratch] are two buffers of the process; a pointer is
    modelled by the name of the buffer it designates ([bufref]) and is
    dereferenced when it is used, so that a write between the capture of a
    pointer and its use is observed.  [savewait] holds at most one started
    goroutine that has not run yet.  The outcomes of [os.Create] and
    [png.Encode] are inputs. *)

Inductive bufref := LiveCanvas | ScratchCopy.

Record job := Job { job_img : bufref; job_name : string }.

Inductive create_result := Created | CreateFailed (err : string).
Inductive encode_result := Encoded | EncodeFailed.

Record process := Process {
  canvas : image.RGBA;
  saveScratch : option image.RGBA;
  savewait : option job;
  files : list (string * list color.RGBA);
  logged : list string;
  exited : option Z
}.

Definition deref (p : process) (r : bufref) : list color.RGBA :=
  match r with
  | LiveCanvas => image.Pix (canvas p)
  | ScratchCopy => from_option image.Pix [] (saveScratch p)
  end.

(* Go's builtin copy(dst, src): min(len dst, len src) elements. *)
Definition go_copy {T} (dst src : list T) : list T :=
  take (length dst) src ++ drop (length src) dst.

(* The body of the [go func() { ... }()] of [save]. *)
Definition save_goroutine (j : job) (cr : create_result) (er : encode_result)
    (p : process) : process :=
  let name := String.append (job_name j) ".png" in
  match cr with
  | CreateFailed err =>
      (* log.Fatalln(err): print, then os.Exit(1) *)
      Process (canvas p) (saveScratch p) (savewait p) (files p)
              (logged p ++ [err]) (Some 1)
  | Created =>
      (* png.Encode(outf, img), result discarded; log.Println; Done *)
      let written := match er with
                     | Encoded => deref p (job_img j)
                     | EncodeFailed => []
                     end in
      Process (canvas p) (saveScratch p) None (files p ++ [(name, written)])
              (logged p ++ [String.append "wrote " name]) (exited p)
  end.

(* save(img, name), with [img] the live canvas.  [savewait.Wait()] lets a
   goroutine of an earlier call finish first; [cr], [er] are its outcomes. *)
Definition save (name : string) (cr : create_result) (er : encode_result)
    (p : process) : process :=
  let scratch := match saveScratch p with
                 | None => image.NewLike (canvas p)
                 | Some s => s
                 end in
  let scratch := image.mkRGBA (go_copy (image.Pix scratch) (image.Pix (canvas p)))
                              (image.MinX scratch) (image.MinY scratch)
                              (image.Dx scratch) (image.Dy scratch) in
  let p := Process (canvas p) (Some scratch) (savewait p) (files p)
                   (logged p) (exited p) in
  let p := match savewait p with
           | Some j => save_goroutine j cr er p
           | None => p
           end in
  match exited p with
  | Some _ => p
  | None =>
      Process (canvas p) (saveScratch p) (Some (Job LiveCanvas name)) (files p)
              (logged p) (exited p)
  end.

(* What the process does next: the main loop calls [save], the main loop
   writes to the canvas (an iteration), or the started goroutine runs. *)
Inductive event :=
  | MainSave (name : string) (cr : create_result) (er : encode_result)
  | MainDraw (upd : image.RGBA -> image.RGBA)
  | GoRun (cr : create_result) (er : encode_result).

Definition step (p : process) (e : event) : process :=
  match exited p with
  | Some _ => p
  | None =>
      match e with
      | MainSave name cr er => save name cr er p
      | MainDraw upd =>
          Process (upd (canvas p)) (saveScratch p) (savewait p) (files p)
                  (logged p) (exited p)
      | GoRun cr er =>
          match savewait p with
          | Some j => save_goroutine j cr er p
          | None => p
          end
      end
  end.

Definition run (p : process) (es : list event) : process := foldl step p es.

Definition start (img : image.RGBA) : process :=
  Process img None None [] [] None.

(** ** Vocabulary of the statements *)

(* Coordinates for which no operation of the traversal wraps around. *)
Definition small (z : Z) : Prop := - 2 ^ 60 <= z <= 2 ^ 60.

Definition adjacent8 (p q : Z * Z) : Prop :=
  p <> q /\ Z.abs (q.1 - p.1) <= 1 /\ Z.abs (q.2 - p.2) <= 1.

Definition connected8 (pts : list (Z * Z)) : Prop :=
  forall (i : nat) p q, pts !! i = Some p -> pts !! S i = Some q -> adjacent8 p q.

(* Within half a pixel of the ideal segment, measured along the minor axis. *)
Definition near_segment (x0 y0 x1 y1 : Z) (p : Z * Z) : Prop :=
  2 * Z.abs ((x1 - x0) * (p.2 - y0) - (y1 - y0) * (p.1 - x0))
  <= Z.max (Z.abs (x1 - x0)) (Z.abs (y1 - y0)).

Definition in_box (x0 y0 x1 y1 : Z) (p : Z * Z) : Prop :=
  Z.min x0 x1 <= p.1 <= Z.max x0 x1 /\ Z.min y0 y1 <= p.2 <= Z.max y0 y1.

(* Reflection through the midpoint of the two endpoints. *)
Definition reflect (x0 y0 x1 y1 : Z) (p : Z * Z) : Z * Z :=
  (x0 + x1 - p.1, y0 + y1 - p.2).

(* The number of loop iterations of a traversal between small endpoints. *)
Definition steps (x0 y0 x1 y1 : Z) : nat :=
  Z.to_nat (Z.max (Z.abs (x1 - x0)) (Z.abs (y1 - y0))).

(* The state of the traversal after [k] rounds: [i] steps along x and [j]
   along y, the error term tracking the deviation from the ideal segment. *)
Definition cursor_inv (x0 y0 x1 y1 k : Z) (c : cursor) : Prop :=
  let DX := Z.abs (x1 - x0) in
  let DY := Z.abs (y1 - y0) in
  let SX := if x0 <? x1 then 1 else -1 in
  let SY := if y0 <? y1 then 1 else -1 in
  exists i j,
    0 <= i <= DX /\ 0 <= j <= DY /\
    cx c = x0 + SX * i /\ cy c = y0 + SY * j /\
    cerr c = DX - DY + (DX * j - DY * i) /\
    (DY <= DX -> i = k /\ - DX <= 2 * (DX * j - DY * i) < DX) /\
    (DX <= DY -> j = k /\ - DY < 2 * (DX * j - DY * i) <= DY).

(* [advance] on unbounded integers. *)
Definition advanceZ (b : bres) (c : cursor) : cursor :=
  let gx := 2 * cerr c >? - dY b in
  let gy := 2 * cerr c <? dX b in
  Cursor (cx c + (if gx then sX b else 0))
         (cy c + (if gy then sY b else 0))
         (cerr c - (if gx then dY b else 0) + (if gy then dX b else 0)).

Definition pos (c : cursor) : Z * Z := (cx c, cy c).

(* The pixel of the segment at distance [k] from the first endpoint along the
   major axis. *)
Definition kth_pixel (x0 y0 x1 y1 k : Z) (p : Z * Z) : Prop :=
  let DX := Z.abs (x1 - x0) in
  let DY := Z.abs (y1 - y0) in
  near_segment x0 y0 x1 y1 p /\ in_box x0 y0 x1 y1 p /\
  (DY <= DX -> p.1 = x0 + Z.sgn (x1 - x0) * k) /\
  (DX <= DY -> p.2 = y0 + Z.sgn (y1 - y0) * k).

Definition draw_px (clr : color.RGBA) (img : image.RGBA) (p : Z * Z) : image.RGBA :=
  image.SetRGBA img p.1 p.2 clr.

Definition copy_px (src dst : image.RGBA) (p : Z * Z) : image.RGBA :=
  image.SetRGBA dst p.1 p.2 (image.RGBAAt src p.1 p.2).

Definition diff_px (a b : image.RGBA) (dif : Z) (p : Z * Z) : Z :=
  F64.add dif (calcDiff a b p.1 p.2).

Definition px (img : image.RGBA) (p : Z * Z) : color.RGBA :=
  image.RGBAAt img p.1 p.2.

Definition same_bounds (a b : image.RGBA) : Prop :=
  image.MinX a = image.MinX b /\ image.MinY a = image.MinY b /\
  image.Dx a = image.Dx b /\ image.Dy a = image.Dy b.

(* The state after the decision, for a line that visited [pts]. *)
Definition decided (img : image.RGBA) (s : canvases) (clr : color.RGBA)
    (pts : list (Z * Z)) : canvases :=
  let a := foldl (draw_px clr) (img1 s) pts in
  let diffimg1 := foldl (diff_px img a) 0 pts in
  let diffimg2 := foldl (diff_px img (img2 s)) 0 pts in
  if diffimg1 <? diffimg2 then
    Canvases a (foldl (copy_px a) (img2 s) pts)
             (GoInt.add (stati s) 1) (GoInt.add (statc s) 1)
  else
    Canvases (foldl (copy_px (img2 s)) a pts) (img2 s)
             (GoInt.add (stati s) 1) (statc s).

Definition Zsum (l : list Z) : Z := foldr Z.add 0 l.

(* Sum over the four channels of the squared difference, on integers. *)
Definition sqdist (p q : color.RGBA) : Z :=
  (F64.of_uint8 (color.R q) - F64.of_uint8 (color.R p)) ^ 2 +
  (F64.of_uint8 (color.G q) - F64.of_uint8 (color.G p)) ^ 2 +
  (F64.of_uint8 (color.B q) - F64.of_uint8 (color.B p)) ^ 2 +
  (F64.of_uint8 (color.A q) - F64.of_uint8 (color.A p)) ^ 2.

(* The coordinates (x, y) with 0 <= x < w and 0 <= y < h in raster order:
   those the palette loop reads, and those of the pixels of a [w] by [h]
   image whose bounds start at (0,0). *)
Definition raster (w h : Z) : list (Z * Z) :=
  concat ((fun y => (fun x => (x, y)) <$> seqZ 0 w) <$> seqZ 0 h).

(* The colours of a sequence, each kept the first time it is seen. *)
Fixpoint first_seen (seen l : list color.RGBA) : list color.RGBA :=
  match l with
  | [] => []
  | c :: l' =>
      if decide (c ∈ seen) then first_seen seen l'
      else c :: first_seen (seen ++ [c]) l'
  end.

(* The colours the palette loop reads, in the order it reads them. *)
Definition scanned (img : image.RGBA) : list color.RGBA :=
  px img <$> raster (image.Dx img) (image.Dy img).

Definition white : color.RGBA := color.mkRGBA xff xff xff xff.

Definition sample_img : image.RGBA :=
  image.mkRGBA [color.mkRGBA xff x00 x00 xff; color.mkRGBA x00 xff x00 xff;
                color.mkRGBA x00 x00 xff xff; white] 0 0 2 2.

Definition red : color.RGBA := color.mkRGBA xff x00 x00 xff.

(* A GIF frame of 2 by 2 pixels placed at (1,1), as lines 244-245 of
   [sketch] convert it: [draw.Draw] is told to start reading at
   [image.ZP], which is outside the frame, so that only the top left pixel
   of the frame (here red) arrives, at (2,2). *)
Definition offset_frame : image.RGBA :=
  image.mkRGBA [color.zero; color.zero; color.zero; red] 1 1 2 2.

(** * Further parts of the program *)

(** ** File names: [fmt.Sprintf] with [%03d] *)

Fixpoint zeros (n : nat) : string :=
  match n with
  | O => EmptyString
  | S n' => String "0"%char (zeros n')
  end.

(* Left-padding with zeros up to width [w]. *)
Definition pad0 (w : nat) (s : string) : string :=
  String.append (zeros (w - String.length s)) s.

(* fmt.Sprintf("%03d", n): decimal, at least three characters, the sign
   counted in the width and the zeros placed after it. *)
Definition Sprintf_03d (n : Z) : string :=
  if n <? 0 then String "-"%char (pad0 2 (pretty (Z.abs_N n)))
  else pad0 3 (pretty (Z.to_N n)).

(* The names [sketch] passes to [save], and the name [main] opens. *)
Definition incr_name (n : Z) : string := String.append "incr" (Sprintf_03d n).
Definition frame_name (n : Z) : string := String.append "frame" (Sprintf_03d n).
Definition input_name (n : Z) : string :=
  String.append "input" (String.append (Sprintf_03d n) ".png").

(** ** [main]: the two frame loops

    What [os.Open] and [image.Decode] do with a file name is an input, and
    so is what a call of [sketch] does to the run: the call returns, or its
    loop is never left, or it panics, or [log.Fatalln] in the goroutine of
    one of its saves ends the process while the call is going on.  The run
    of [main] is the sequence of the lines that [main] logs and of its
    calls of [sketch] (the lines logged inside [sketch] are left out),
    together with the way the run ends.  The goroutine started by the last
    save of a call that has returned may still be running while [main] goes
    on: [interrupted] is the run in which its [log.Fatalln] ends the
    process then. *)

Inductive opened :=
  | OpenFails (err : string)
  | DecodeFails (err : string)
  | Decodes (img : image.RGBA).

Inductive sketch_result :=
  | Returns                 (* the call returns *)
  | NeverReturns            (* the loop of line 276 is never left *)
  | Panics                  (* a run-time panic: exit status 2 *)
  | Fatal (err : string).   (* log.Fatalln(err) in a goroutine of save *)

Inductive main_event :=
  | Log (line : string)
  | Sketch (src : image.RGBA) (r : sketch_result).

Inductive ending :=
  | Ends (status : Z)       (* the process exits; 0 when [main] returns *)
  | Runs                    (* a call of [sketch] never returns *)
  | Unfinished.             (* the fuel of the model has run out *)

(* sketch(src), then the rest of the run if the call returns. *)
Definition after_sketch (src : image.RGBA) (r : sketch_result)
    (rest : list main_event * ending) : list main_event * ending :=
  match r with
  | Returns => (Sketch src Returns :: rest.1, rest.2)
  | NeverReturns => ([Sketch src NeverReturns], Runs)
  | Panics => ([Sketch src Panics], Ends 2)
  | Fatal err => ([Sketch src (Fatal err); Log err], Ends 1)
  end.

(* The loop over the command-line arguments (lines 343-362); [sk n] is what
   the call number [n] of [sketch] does. *)
Fixpoint main_args (fs : string -> opened) (sk : nat -> sketch_result) (n : nat)
    (args : list string) : list main_event * ending :=
  match args with
  | [] => ([Log "end of frames"], Ends 0)
  | a :: rest =>
      let opening := Log (String.append "opening " a) in
      match fs a with
      | OpenFails _ => ([opening; Log "end of frames"], Ends 0)   (* break *)
      | DecodeFails err => ([opening; Log err], Ends 1)       (* log.Fatal(err) *)
      | Decodes img =>
          let r := after_sketch img (sk n) (main_args fs sk (S n) rest) in
          (opening :: r.1, r.2)
      end
  end.

(* The loop over input001.png, input002.png, ... (lines 364-384); it has no
   bound of its own. *)
Fixpoint main_seq (fuel : nat) (fs : string -> opened) (sk : nat -> sketch_result)
    (n : nat) (frameStart frameLimit frame : Z) : list main_event * ending :=
  match fuel with
  | O => ([], Unfinished)
  | S fuel' =>
      if (1 <? frameLimit) && (frameLimit <? GoInt.sub frame frameStart)
      then ([Log "end of frames"], Ends 0)
      else
        let name := input_name frame in
        let opening := Log (String.append "opening " name) in
        match fs name with
        | OpenFails err => ([opening; Log err], Ends 1)       (* log.Fatal(err) *)
        | DecodeFails err => ([opening; Log err], Ends 1)     (* log.Fatal(err) *)
        | Decodes img =>
            let r := after_sketch img (sk n)
                       (main_seq fuel' fs sk (S n) frameStart frameLimit
                                 (GoInt.add frame 1)) in
            (opening :: r.1, r.2)
        end
  end.

Definition returned (e : main_event) : bool :=
  match e with Sketch _ Returns => true | _ => false end.

(* [kill = Some (n, err)]: after [n] events of [main], one of them a call
   of [sketch] that has returned, [os.Create] fails in the goroutine that
   this call has left behind. *)
Definition interrupted (kill : option (nat * string))
    (r : list main_event * ending) : list main_event * ending :=
  match kill with
  | Some (n, err) =>
      if (n <=? length r.1)%nat && existsb returned (take n r.1)
      then (take n r.1 ++ [Log err], Ends 1)
      else r
  | None => r
  end.

Definition main (fuel : nat) (fs : string -> opened) (sk : nat -> sketch_result)
    (kill : option (nat * string)) (frameStart frameLimit : Z)
    (args : list string) : list main_event * ending :=
  interrupted kill
    match args with
    | [] => main_seq fuel fs sk 0 frameStart frameLimit frameStart
    | _ => main_args fs sk 0 args
    end.

(** ** [sketch]: the loop around the iteration, and the final snapshot

    The clock readings of [time.Now], the outputs of the generator and the
    scheduling and outcomes of the snapshot goroutine are inputs: one [tick]
    for each turn of the loop.  The goroutine is scheduled between the
    steps of the loop: before the writes of a turn, after them, inside a
    later [save] that waits for it, or after the last [save].  A time is its
    monotonic reading in nanoseconds, a [time.Duration] a Go [int64].  The
    two [float64] flags are taken at their finite values, as rationals.  The
    statistics line is represented by the four values it is formatted
    from. *)

Module time.

Definition Second : Z := 1000000000.

(* t.Sub(u): the difference, saturated at the ends of [int64]. *)
Definition Sub (t u : Z) : Z :=
  Z.max GoInt.MinInt (Z.min GoInt.MaxInt (t - u)).

(* time.Duration(f): the fraction is discarded.  When the whole part does
   not fit an [int64] the conversion still yields a value, which depends on
   the implementation: [impl f], an input. *)
Definition Duration (impl : Q -> Z) (f : Q) : Z :=
  let z := Z.quot (Qnum f) (Z.pos (Qden f)) in
  if (GoInt.MinInt <=? z) && (z <=? GoInt.MaxInt) then z
  else GoInt.wrap (impl f).

End time.

Record tick := Tick {
  tk_early : option (create_result * encode_result);
      (* whether the started goroutine runs before the writes of this turn *)
  tk_draws : draws;                                   (* lines 278-282 *)
  tk_goroutine : option (create_result * encode_result);
      (* whether it runs between these writes and the look at the clock *)
  tk_now : Z;                                         (* line 313 *)
  tk_create : create_result;                          (* a goroutine that *)
  tk_encode : encode_result;                          (* [save] waits for *)
  tk_now_save : Z;                                    (* line 318 *)
  tk_now_stat : Z                                     (* line 327 *)
}.

Record sketching := Sketching {
  cv : canvases;
  proc : process;
  incrSaveNum : Z;
  saveNum : Z;
  lastSaveTime : Z;
  lastStatTime : Z;
  reports : list (Z * Z * Z * Z)     (* i, stati, statc, dur of each line *)
}.

Definition set_proc (st : sketching) (p : process) : sketching :=
  Sketching (cv st) p (incrSaveNum st) (saveNum st) (lastSaveTime st)
            (lastStatTime st) (reports st).

(* The started goroutine runs now, with these outcomes, or does not. *)
Definition goroutine_runs (g : option (create_result * encode_result))
    (p : process) : process :=
  match g with
  | Some (cr, er) => step p (GoRun cr er)
  | None => p
  end.

(* Lines 314-319. *)
Definition checkpoint (impl : Q -> Z) (saveDelay : Q) (tk : tick)
    (st : sketching) : sketching :=
  let dur := time.Sub (tk_now tk) (lastSaveTime st) in
  if (0 <? Qnum saveDelay)
     && (GoInt.mul (time.Duration impl saveDelay) time.Second <=? dur)
  then
    let p := save (incr_name (incrSaveNum st)) (tk_create tk) (tk_encode tk)
                  (proc st) in
    match exited p with
    | Some _ => set_proc st p
    | None =>
        Sketching (cv st) p (GoInt.add (incrSaveNum st) 1) (saveNum st)
                  (tk_now_save tk) (lastStatTime st) (reports st)
    end
  else st.

(* Lines 320-328. *)
Definition report (impl : Q -> Z) (statDelay : Q) (i : Z) (tk : tick)
    (st : sketching) : sketching :=
  let dur := time.Sub (tk_now tk) (lastStatTime st) in
  if GoInt.mul (time.Duration impl statDelay) time.Second <=? dur then
    Sketching (Canvases (img1 (cv st)) (img2 (cv st)) 0 0) (proc st)
              (incrSaveNum st) (saveNum st) (lastSaveTime st)
              (tk_now_stat tk)
              (reports st ++ [(i, stati (cv st), statc (cv st), dur)])
  else st.

(* The body of the loop, lines 277-329, for the turn with counter [i].  The
   iteration writes canvas B, which is the canvas of the process. *)
Definition loop_body (fuel : nat) (impl : Q -> Z) (lineLen : Z)
    (saveDelay statDelay : Q) (img : image.RGBA) (palette : list color.RGBA)
    (i : Z) (tk : tick) (st : sketching) : option sketching :=
  let p0 := goroutine_runs (tk_early tk) (proc st) in
  match exited p0 with
  | Some _ => Some (set_proc st p0)
  | None =>
      s' ← iteration fuel lineLen img palette (cv st) (tk_draws tk);
      let p := goroutine_runs (tk_goroutine tk)
                 (step p0 (MainDraw (fun _ => img2 s'))) in
      let st := Sketching s' p (incrSaveNum st) (saveNum st) (lastSaveTime st)
                          (lastStatTime st) (reports st) in
      match exited p with
      | Some _ => Some st
      | None =>
          if Z.rem i 50 =? 0 then
            let st := checkpoint impl saveDelay tk st in
            match exited (proc st) with
            | Some _ => Some st
            | None => Some (report impl statDelay i tk st)
            end
          else Some st
      end
  end.

(* The loop of line 276, for the turns whose inputs are given.  The result
   tells whether the loop was left; it is not when the inputs end first or
   the process has exited. *)
Fixpoint sketch_loop (fuel : nat) (impl : Q -> Z) (maxIter lineLen : Z)
    (saveDelay statDelay : Q) (img : image.RGBA) (palette : list color.RGBA)
    (i : Z) (tks : list tick) (st : sketching) : option (sketching * bool) :=
  match exited (proc st) with
  | Some _ => Some (st, false)
  | None =>
      if (i <? maxIter) || (maxIter <? 0) then
        match tks with
        | [] => Some (st, false)
        | tk :: tks' =>
            st' ← loop_body fuel impl lineLen saveDelay statDelay img palette
                            i tk st;
            sketch_loop fuel impl maxIter lineLen saveDelay statDelay img palette
                        (GoInt.add i 1) tks' st'
        end
      else Some (st, true)
  end.

(* Lines 263-274: the state in which the first call of [sketch] in a
   process enters its loop. *)
Definition sketch_begin (palette : list color.RGBA) (img : image.RGBA)
    (t0 t1 : Z) : sketching :=
  let s := init_canvases img in
  let p := start (img2 s) in
  Sketching s
    (Process (canvas p) (saveScratch p) (savewait p) (files p)
             (logged p ++ [String.append (pretty (Z.of_nat (length palette)))
                                         " colors in palette"])
             (exited p))
    1 1 t0 t1 [].

(* Lines 332-333, up to the return of [sketch]: [cr], [er] are the outcomes
   of a goroutine that the [save] waits for, and [after] tells whether the
   goroutine that it starts runs before [sketch] returns. *)
Definition sketch_end (cr : create_result) (er : encode_result)
    (after : option (create_result * encode_result)) (st : sketching)
  : sketching :=
  let p := save (frame_name (saveNum st)) cr er (proc st) in
  match exited p with
  | Some _ => set_proc st p
  | None =>
      Sketching (cv st) (goroutine_runs after p) (incrSaveNum st)
                (GoInt.add (saveNum st) 1)
                (lastSaveTime st) (lastStatTime st) (reports st)
  end.

(* The first call of [sketch] of a process, on the converted image. *)
Definition sketch (fuel : nat) (impl : Q -> Z) (maxIter lineLen : Z)
    (palUniq : bool) (saveDelay statDelay : Q) (img : image.RGBA) (t0 t1 : Z)
    (tks : list tick) (cr : create_result) (er : encode_result)
    (after : option (create_result * encode_result))
  : option (sketching * bool) :=
  let palette := build_palette palUniq img in
  '(st, ended) ← sketch_loop fuel impl maxIter lineLen saveDelay statDelay img
                             palette 0 tks (sketch_begin palette img t0 t1);
  if ended : bool then Some (sketch_end cr er after st, true)
  else Some (st, false).

(** ** Vocabulary of the further properties *)

Definition shift (a b : Z) (p : Z * Z) : Z * Z := (p.1 + a, p.2 + b).

(* No position along the major axis lies exactly midway between two pixels:
   the longer delta is odd, or the segment is axis-aligned or diagonal. *)
Definition no_tie (x0 y0 x1 y1 : Z) : Prop :=
  Z.odd (Z.max (Z.abs (x1 - x0)) (Z.abs (y1 - y0))) = true \/
  x1 = x0 \/ y1 = y0 \/ Z.abs (x1 - x0) = Z.abs (y1 - y0).

(* The coordinates of the pixels of an image, row by row. *)
Definition pixels (b : image.RGBA) : list (Z * Z) :=
  shift (image.MinX b) (image.MinY b) <$> raster (image.Dx b) (image.Dy b).

(* The squared distance between the source and a canvas, over all pixels. *)
Definition total_score (img b : image.RGBA) : Z :=
  Zsum ((fun p => sqdist (px img p) (px b p)) <$> pixels b).

(* Every pixel inside the canvas is opaque black or a palette colour. *)
Definition palette_coloured (palette : list color.RGBA) (b : image.RGBA) : Prop :=
  forall q, image.inside b q.1 q.2 = true -> px b q = bg \/ px b q ∈ palette.

Fixpoint strip0 (s : string) : string :=
  match s with
  | String "0"%char s' => strip0 s'
  | _ => s
  end.

Definition sketched (tr : list main_event) : list image.RGBA :=
  omap (fun e => match e with Sketch img _ => Some img | _ => None end) tr.

(* One round of the argument loop for a file that decodes and whose call of
   [sketch] returns. *)
Definition arg_round (imgs : string -> image.RGBA) (a : string) : list main_event :=
  [Log (String.append "opening " a); Sketch (imgs a) Returns].

(* One round of the sequence loop, likewise. *)
Definition frame_round (imgs : Z -> image.RGBA) (frame : Z) : list main_event :=
  [Log (String.append "opening " (input_name frame)); Sketch (imgs frame) Returns].

(* The file names of the calls of [save] in a run, in order. *)
Definition requested (es : list event) : list string :=
  omap (fun e => match e with
                 | MainSave name _ _ => Some (String.append name ".png")
                 | _ => None
                 end) es.

(* The files written so far, then the one of the started goroutine. *)
Definition snapshot_names (p : process) : list string :=
  (files p).*1 ++
  match savewait p with
  | Some j => [String.append (job_name j) ".png"]
  | None => []
  end.

(* A statistics line: printed at a turn whose counter is a multiple of 50,
   for at least one and at most all the turns so far. *)
Definition report_ok (r : Z * Z * Z * Z) : Prop :=
  let '(i, si, sc, _) := r in
  0 <= i /\ Z.rem i 50 = 0 /\ 1 <= si <= i + 1 /\ 0 <= sc <= si.

(* The turns counted by the lines printed and by the running counter. *)
Definition counted (st : sketching) : Z :=
  Zsum ((fun r : Z * Z * Z * Z => r.1.1.2) <$> reports st) + stati (cv st).

Definition counters_ok (i : Z) (st : sketching) : Prop :=
  0 <= statc (cv st) <= stati (cv st) /\ stati (cv st) <= i /\
  counted st = i /\ Forall report_ok (reports st).

Definition sample_tick : tick :=
  Tick None (Draws 0 0 1 1 3) None 5 Created Encoded 6 7.

Definition later_tick : tick :=
  Tick (Some (Created, Encoded)) (Draws 1 1 0 0 2) None 8 Created Encoded 9 10.

(* The clock does not run backwards: from [t] on, each turn reads it at
   line 313 and then at line 318, no earlier than the reading before. *)
Fixpoint clock_forward (t : Z) (tks : list tick) : Prop :=
  match tks with
  | [] => True
  | tk :: r =>
      t <= tk_now tk /\ tk_now tk <= tk_now_save tk /\
      clock_forward (tk_now_save tk) r
  end.


(** * Properties *)

(** ** Machine integers *)

Lemma wrap_id z : GoInt.in_range z -> GoInt.wrap z = z.
Proof.
  unfold GoInt.in_range, GoInt.MinInt, GoInt.MaxInt, GoInt.wrap. intros H.
  rewrite Z.mod_small by lia. lia.
Qed.

Lemma wrap_id' z : - 2 ^ 63 <= z < 2 ^ 63 -> GoInt.wrap z = z.
Proof.
  intros H. apply wrap_id. unfold GoInt.in_range, GoInt.MinInt, GoInt.MaxInt. lia.
Qed.

Ltac unwrap :=
  unfold GoInt.add, GoInt.sub, GoInt.mul, GoInt.neg, GoInt.quot;
  repeat match goal with
         | |- context [GoInt.wrap ?z] => rewrite (wrap_id' z) by lia
         end.

(* The minor-axis counter cannot run past its delta while the deviation
   stays below half a step of the major axis. *)
Lemma minor_bound (a b n m : Z) :
  0 <= a -> 0 < b -> 0 <= m <= b -> 2 * (b * n - a * m) < b -> n <= a.
Proof.
  intros Ha Hb Hm H.
  destruct (Z.le_gt_cases n a) as [|Hn]; [assumption | exfalso].
  assert (b * (a + 1) <= b * n) by (apply Z.mul_le_mono_nonneg_l; lia).
  assert (a * m <= a * b) by (apply Z.mul_le_mono_nonneg_l; lia).
  lia.
Qed.

(** ** The traversal between small endpoints *)

Section Traversal.

Variables x0 y0 x1 y1 : Z.
Hypothesis Hx0 : small x0.
Hypothesis Hy0 : small y0.
Hypothesis Hx1 : small x1.
Hypothesis Hy1 : small y1.

Let DX := Z.abs (x1 - x0).
Let DY := Z.abs (y1 - y0).
Let SX := if x0 <? x1 then 1 else -1.
Let SY := if y0 <? y1 then 1 else -1.
Let M := Z.max DX DY.

Lemma setup_small :
  setup x0 y0 x1 y1 = (Bres DX DY SX SY, Cursor x0 y0 (DX - DY)).
Proof using Hx0 Hy0 Hx1 Hy1.
  unfold small in *. unfold setup, DX, DY, SX, SY.
  assert (E1 : GoInt.sub x1 x0 = x1 - x0) by (unwrap; lia).
  assert (E2 : GoInt.sub y1 y0 = y1 - y0) by (unwrap; lia).
  rewrite E1, E2.
  assert (E3 : (if x1 - x0 <? 0 then GoInt.neg (x1 - x0) else x1 - x0)
               = Z.abs (x1 - x0)).
  { destruct (Z.ltb_spec (x1 - x0) 0); unwrap; lia. }
  assert (E4 : (if y1 - y0 <? 0 then GoInt.neg (y1 - y0) else y1 - y0)
               = Z.abs (y1 - y0)).
  { destruct (Z.ltb_spec (y1 - y0) 0); unwrap; lia. }
  rewrite E3, E4. unwrap. reflexivity.
Qed.

Lemma end_x : x1 = x0 + SX * DX.
Proof. unfold SX, DX. destruct (Z.ltb_spec x0 x1); lia. Qed.

Lemma end_y : y1 = y0 + SY * DY.
Proof. unfold SY, DY. destruct (Z.ltb_spec y0 y1); lia. Qed.

Lemma inv_init : 0 < M -> cursor_inv x0 y0 x1 y1 0 (Cursor x0 y0 (DX - DY)).
Proof.
  intros HM. exists 0, 0. cbn. fold DX DY SX SY. unfold M in HM.
  repeat split; try lia.
Qed.

Lemma advance_small k c :
  cursor_inv x0 y0 x1 y1 k c ->
  advance (Bres DX DY SX SY) c = advanceZ (Bres DX DY SX SY) c.
Proof using Hx0 Hy0 Hx1 Hy1.
  intros H. unfold cursor_inv in H. cbv zeta in H. fold DX DY SX SY in H.
  destruct H as (i & j & Hi & Hj & Ex & Ey & Ee & HA & HB).
  assert (HDX : 0 <= DX <= 2 ^ 61) by (unfold small, DX in *; lia).
  assert (HDY : 0 <= DY <= 2 ^ 61) by (unfold small, DY in *; lia).
  assert (HSX : SX = 1 \/ SX = -1) by (unfold SX; destruct (x0 <? x1); auto).
  assert (HSY : SY = 1 \/ SY = -1) by (unfold SY; destruct (y0 <? y1); auto).
  assert (Hxi : - 2 ^ 61 <= SX * i <= 2 ^ 61) by (destruct HSX as [-> | ->]; lia).
  assert (Hyj : - 2 ^ 61 <= SY * j <= 2 ^ 61) by (destruct HSY as [-> | ->]; lia).
  unfold small in *. clearbody DX DY SX SY.
  remember (DX * j - DY * i) as D eqn:ED.
  assert (HD : - 2 ^ 61 <= 2 * D <= 2 ^ 61) by lia.
  unfold advance, advanceZ. cbn [dX dY sX sY].
  assert (E2 : GoInt.mul 2 (cerr c) = 2 * cerr c) by (unwrap; lia).
  assert (EN : GoInt.neg DY = - DY) by (unwrap; lia).
  rewrite E2, EN.
  assert (Ea : GoInt.sub (cerr c) DY = cerr c - DY) by (unwrap; lia).
  assert (Eb : GoInt.add (cx c) SX = cx c + SX) by (unwrap; lia).
  assert (Ec : GoInt.add (cy c) SY = cy c + SY) by (unwrap; lia).
  assert (Ed : GoInt.add (cerr c - DY) DX = cerr c - DY + DX) by (unwrap; lia).
  assert (Ef : GoInt.add (cerr c) DX = cerr c + DX) by (unwrap; lia).
  destruct (2 * cerr c >? - DY), (2 * cerr c <? DX);
    rewrite ?Ea, ?Eb, ?Ec, ?Ed, ?Ef; f_equal; lia.
Qed.

Lemma inv_advance k c :
  cursor_inv x0 y0 x1 y1 k c -> 0 <= k < M ->
  cursor_inv x0 y0 x1 y1 (k + 1) (advance (Bres DX DY SX SY) c).
Proof using Hx0 Hy0 Hx1 Hy1.
  intros H Hk. rewrite (advance_small k c H).
  unfold cursor_inv in H |- *. cbv zeta in H |- *.
  fold DX DY SX SY in H |- *.
  destruct H as (i & j & Hi & Hj & Ex & Ey & Ee & HA & HB).
  unfold M in Hk. clearbody DX DY SX SY.
  remember (DX * j - DY * i) as D eqn:ED.
  unfold advanceZ. cbn [dX dY sX sY cx cy cerr]. rewrite Ex, Ey, Ee.
  destruct (Z.gtb_spec (2 * (DX - DY + D)) (- DY)) as [Gx | Gx];
    destruct (Z.ltb_spec (2 * (DX - DY + D)) DX) as [Gy | Gy].
  - exists (i + 1), (j + 1).
    assert (i + 1 <= DX).
    { destruct (Z.le_gt_cases DY DX); [lia |].
      apply (minor_bound DX DY (i + 1) (j + 1)); lia. }
    assert (j + 1 <= DY).
    { destruct (Z.le_gt_cases DX DY); [lia |].
      apply (minor_bound DY DX (j + 1) (i + 1)); lia. }
    repeat split; try lia.
  - exists (i + 1), j. assert (i + 1 <= DX) by lia.
    repeat split; try lia.
  - exists i, (j + 1). assert (j + 1 <= DY) by lia.
    repeat split; try lia.
  - lia.
Qed.

Lemma advance_adjacent k c :
  cursor_inv x0 y0 x1 y1 k c -> 0 <= k < M ->
  adjacent8 (pos c) (pos (advance (Bres DX DY SX SY) c)).
Proof using Hx0 Hy0 Hx1 Hy1.
  intros H Hk. rewrite (advance_small k c H).
  assert (HSX : SX = 1 \/ SX = -1) by (unfold SX; destruct (x0 <? x1); auto).
  assert (HSY : SY = 1 \/ SY = -1) by (unfold SY; destruct (y0 <? y1); auto).
  assert (HDX : 0 <= DX) by (unfold DX; lia).
  assert (HDY : 0 <= DY) by (unfold DY; lia).
  unfold M in Hk. clearbody DX DY SX SY.
  unfold adjacent8, pos, advanceZ. cbn [dX dY sX sY cx cy cerr fst snd].
  destruct (Z.gtb_spec (2 * cerr c) (- DY)) as [Gx | Gx];
    destruct (Z.ltb_spec (2 * cerr c) DX) as [Gy | Gy];
    try lia; (split; [intros E; injection E; lia | lia]).
Qed.

Lemma inv_at_end k c :
  cursor_inv x0 y0 x1 y1 k c -> 0 <= k <= M -> 0 < M ->
  at_end c x1 y1 = true <-> k = M.
Proof.
  intros H Hk HM. unfold cursor_inv in H. cbv zeta in H. fold DX DY SX SY in H.
  destruct H as (i & j & Hi & Hj & Ex & Ey & Ee & HA & HB).
  unfold at_end. rewrite andb_true_iff, !Z.eqb_eq, Ex, Ey.
  rewrite end_x at 1. rewrite end_y at 1. fold DX DY SX SY.
  assert (HSX : SX = 1 \/ SX = -1) by (unfold SX; destruct (x0 <? x1); auto).
  assert (HSY : SY = 1 \/ SY = -1) by (unfold SY; destruct (y0 <? y1); auto).
  unfold M in *. clearbody DX DY SX SY.
  assert (Ei : x0 + SX * i = x0 + SX * DX <-> i = DX)
    by (destruct HSX as [-> | ->]; lia).
  assert (Ej : y0 + SY * j = y0 + SY * DY <-> j = DY)
    by (destruct HSY as [-> | ->]; lia).
  rewrite Ei, Ej. split.
  - intros [-> ->]. lia.
  - intros ->. destruct (Z.le_gt_cases DY DX) as [L | L].
    + assert (i = DX) by lia. subst i. split; [reflexivity |].
      destruct (Z.eq_dec j DY) as [|N]; [assumption | exfalso].
      assert (DX * j <= DX * (DY - 1)) by (apply Z.mul_le_mono_nonneg_l; lia).
      lia.
    + assert (j = DY) by lia. subst j. split; [| reflexivity].
      destruct (Z.eq_dec i DX) as [|N]; [assumption | exfalso].
      assert (DY * i <= DY * (DX - 1)) by (apply Z.mul_le_mono_nonneg_l; lia).
      lia.
Qed.

Lemma inv_pixel k c :
  cursor_inv x0 y0 x1 y1 k c -> kth_pixel x0 y0 x1 y1 k (pos c).
Proof.
  intros H. unfold cursor_inv in H. cbv zeta in H.
  destruct H as (i & j & Hi & Hj & Ex & Ey & Ee & HA & HB).
  unfold kth_pixel, near_segment, in_box, pos. cbn [fst snd]. rewrite Ex, Ey.
  destruct (Z.ltb_spec x0 x1), (Z.ltb_spec y0 y1);
    rewrite ?(Z.abs_eq (x1 - x0)), ?(Z.abs_eq (y1 - y0)) in * by lia;
    rewrite ?(Z.abs_neq (x1 - x0)), ?(Z.abs_neq (y1 - y0)) in * by lia;
    (split; [| split; [| split]]); try lia.
Qed.

Lemma visited_loop_spec (n : nat) : forall k c,
  cursor_inv x0 y0 x1 y1 k c -> 0 <= k -> k + Z.of_nat n = M -> 0 < M ->
  exists pts,
    visited_loop (S n) (Bres DX DY SX SY) x1 y1 c = Some pts /\
    length pts = S n /\
    pts !! 0%nat = Some (pos c) /\
    last pts = Some (x1, y1) /\
    connected8 pts /\
    forall m : nat, (m <= n)%nat ->
      exists c', pts !! m = Some (pos c') /\
                 cursor_inv x0 y0 x1 y1 (k + Z.of_nat m) c'.
Proof using Hx0 Hy0 Hx1 Hy1.
  induction n as [|n IH]; intros k c Hc Hk Hn HM.
  - assert (E : at_end c x1 y1 = true) by (apply (inv_at_end k); [assumption | lia..]).
    cbn [visited_loop]. rewrite E. exists [pos c].
    split; [reflexivity |]. split; [reflexivity |]. split; [reflexivity |].
    split; [| split].
    + unfold at_end in E. apply andb_true_iff in E as [E1 E2].
      apply Z.eqb_eq in E1, E2. unfold pos. cbn. now rewrite E1, E2.
    + intros i p q _ Hq. destruct i; discriminate.
    + intros m Hm. assert (m = 0%nat) by lia. subst m. exists c.
      split; [reflexivity |]. now rewrite Z.add_0_r.
  - assert (E : at_end c x1 y1 = false).
    { destruct (at_end c x1 y1) eqn:E; [| reflexivity].
      apply (inv_at_end k) in E; [lia | assumption | lia..]. }
    destruct (IH (k + 1) (advance (Bres DX DY SX SY) c)) as
      (pts & Hv & Hlen & Hhd & Hlast & Hconn & Hpix); try lia.
    { apply inv_advance; [assumption | lia]. }
    exists (pos c :: pts).
    split; [| split; [| split; [| split; [| split]]]].
    + change (visited_loop (S (S n)) (Bres DX DY SX SY) x1 y1 c)
        with (if at_end c x1 y1 then Some [(cx c, cy c)]
              else cons (cx c, cy c) <$>
                     visited_loop (S n) (Bres DX DY SX SY) x1 y1
                       (advance (Bres DX DY SX SY) c)).
      rewrite E, Hv. reflexivity.
    + cbn. now rewrite Hlen.
    + reflexivity.
    + destruct pts as [|q pts]; [discriminate | exact Hlast].
    + intros [|i] p q Hp Hq.
      * change (Some (pos c) = Some p) in Hp.
        change (pts !! 0%nat = Some q) in Hq.
        injection Hp as <-. rewrite Hhd in Hq. injection Hq as <-.
        apply (advance_adjacent k); [assumption | lia].
      * change (pts !! i = Some p) in Hp. change (pts !! S i = Some q) in Hq.
        now apply (Hconn i).
    + intros [|m] Hm.
      * exists c. split; [reflexivity |]. now rewrite Z.add_0_r.
      * destruct (Hpix m) as (c' & Hp & Hk'); [lia |]. exists c'. split; [exact Hp |].
        replace (k + Z.of_nat (S m)) with (k + 1 + Z.of_nat m) by lia. exact Hk'.
Qed.

(* Both deltas zero: the loop leaves at its first exit test. *)
Lemma visited_point :
  M = 0 -> visited 1 x0 y0 x1 y1 = Some [(x0, y0)] /\ x1 = x0 /\ y1 = y0.
Proof using Hx0 Hy0 Hx1 Hy1.
  intros HM. assert (x1 = x0 /\ y1 = y0) as [E1 E2] by (unfold M, DX, DY in HM; lia).
  split; [| auto]. unfold visited. rewrite setup_small. cbn [visited_loop].
  unfold at_end. cbn [cx cy]. rewrite E1, E2, !Z.eqb_refl. reflexivity.
Qed.

Lemma visited_segment :
  0 < M ->
  exists pts,
    visited (S (steps x0 y0 x1 y1)) x0 y0 x1 y1 = Some pts /\
    length pts = S (steps x0 y0 x1 y1) /\
    pts !! 0%nat = Some (x0, y0) /\
    last pts = Some (x1, y1) /\
    connected8 pts /\
    forall m : nat, (m <= steps x0 y0 x1 y1)%nat ->
      exists c', pts !! m = Some (pos c') /\
                 cursor_inv x0 y0 x1 y1 (Z.of_nat m) c'.
Proof using Hx0 Hy0 Hx1 Hy1.
  intros HM. unfold visited. rewrite setup_small.
  destruct (visited_loop_spec (steps x0 y0 x1 y1) 0 (Cursor x0 y0 (DX - DY)))
    as (pts & H); try (unfold steps; fold DX DY M; lia).
  { now apply inv_init. }
  exists pts. exact H.
Qed.

End Traversal.

(** ** Fuel *)

Lemma visited_loop_mono b x1 y1 (f : nat) : forall (f' : nat) c pts,
  visited_loop f b x1 y1 c = Some pts -> (f <= f')%nat ->
  visited_loop f' b x1 y1 c = Some pts.
Proof.
  induction f as [|f IH]; intros f' c pts H Hf; [discriminate |].
  destruct f' as [|f']; [lia |]. cbn [visited_loop] in H |- *.
  destruct (at_end c x1 y1); [exact H |].
  destruct (visited_loop f b x1 y1 (advance b c)) as [pts'|] eqn:E; [| discriminate].
  rewrite (IH f' _ pts' E) by lia. exact H.
Qed.

Lemma visited_mono (f f' : nat) x0 y0 x1 y1 pts :
  visited f x0 y0 x1 y1 = Some pts -> (f <= f')%nat ->
  visited f' x0 y0 x1 y1 = Some pts.
Proof.
  unfold visited. destruct (setup x0 y0 x1 y1) as [b c]. apply visited_loop_mono.
Qed.

Lemma visited_fuel_irrelevant (f f' : nat) x0 y0 x1 y1 pts pts' :
  visited f x0 y0 x1 y1 = Some pts -> visited f' x0 y0 x1 y1 = Some pts' ->
  pts' = pts.
Proof.
  intros H H'.
  apply (visited_mono f (Nat.max f f')) in H; [| lia].
  apply (visited_mono f' (Nat.max f f')) in H'; [| lia].
  congruence.
Qed.

(** ** The three loops perform their action on the visited pixels, in order *)

Lemma line_loop_visited br x1 y1 clr (fuel : nat) : forall img c,
  line_loop fuel img br x1 y1 c clr
  = (fun pts => foldl (draw_px clr) img pts) <$> visited_loop fuel br x1 y1 c.
Proof.
  induction fuel as [|fuel IH]; intros img c; [reflexivity |].
  cbn [line_loop visited_loop]. destruct (at_end c x1 y1); [reflexivity |].
  rewrite IH. destruct (visited_loop fuel br x1 y1 (advance br c)); reflexivity.
Qed.

Lemma bcopy_loop_visited src br x1 y1 (fuel : nat) : forall dst c,
  bcopy_loop fuel dst src br x1 y1 c
  = (fun pts => foldl (copy_px src) dst pts) <$> visited_loop fuel br x1 y1 c.
Proof.
  induction fuel as [|fuel IH]; intros dst c; [reflexivity |].
  cbn [bcopy_loop visited_loop]. destruct (at_end c x1 y1); [reflexivity |].
  rewrite IH. destruct (visited_loop fuel br x1 y1 (advance br c)); reflexivity.
Qed.

Lemma bdiff_loop_visited a b br x1 y1 (fuel : nat) : forall c dif,
  bdiff_loop fuel a b br x1 y1 c dif
  = (fun pts => foldl (diff_px a b) dif pts) <$> visited_loop fuel br x1 y1 c.
Proof.
  induction fuel as [|fuel IH]; intros c dif; [reflexivity |].
  cbn [bdiff_loop visited_loop]. destruct (at_end c x1 y1); [reflexivity |].
  rewrite IH. destruct (visited_loop fuel br x1 y1 (advance br c)); reflexivity.
Qed.

Lemma line_visited fuel img x0 y0 x1 y1 clr :
  line fuel img x0 y0 x1 y1 clr
  = (fun pts => foldl (draw_px clr) img pts) <$> visited fuel x0 y0 x1 y1.
Proof.
  unfold line, visited. destruct (setup x0 y0 x1 y1). apply line_loop_visited.
Qed.

Lemma bcopy_visited fuel dst src x0 y0 x1 y1 :
  bcopy fuel dst src x0 y0 x1 y1
  = (fun pts => foldl (copy_px src) dst pts) <$> visited fuel x0 y0 x1 y1.
Proof.
  unfold bcopy, visited. destruct (setup x0 y0 x1 y1). apply bcopy_loop_visited.
Qed.

Lemma bdiff_visited fuel a b x0 y0 x1 y1 :
  bdiff fuel a b x0 y0 x1 y1
  = (fun pts => foldl (diff_px a b) 0 pts) <$> visited fuel x0 y0 x1 y1.
Proof.
  unfold bdiff, visited. destruct (setup x0 y0 x1 y1). apply bdiff_loop_visited.
Qed.

(** ** The visited sequence between small endpoints *)

Lemma kth_pixel_inj x0 y0 x1 y1 k k' p :
  kth_pixel x0 y0 x1 y1 k p -> kth_pixel x0 y0 x1 y1 k' p ->
  0 <= k <= Z.max (Z.abs (x1 - x0)) (Z.abs (y1 - y0)) ->
  0 <= k' <= Z.max (Z.abs (x1 - x0)) (Z.abs (y1 - y0)) ->
  k = k'.
Proof.
  unfold kth_pixel. cbv zeta. intros (_ & _ & HA & HB) (_ & _ & HA' & HB') Hk Hk'.
  destruct (Z.le_gt_cases (Z.abs (y1 - y0)) (Z.abs (x1 - x0))) as [L | L].
  - specialize (HA L). specialize (HA' L).
    destruct (Z.lt_trichotomy x0 x1) as [T | [T | T]].
    + rewrite Z.sgn_pos in * by lia. lia.
    + lia.
    + rewrite Z.sgn_neg in * by lia. lia.
  - assert (L' : Z.abs (x1 - x0) <= Z.abs (y1 - y0)) by lia.
    specialize (HB L'). specialize (HB' L').
    destruct (Z.lt_trichotomy y0 y1) as [T | [T | T]].
    + rewrite Z.sgn_pos in * by lia. lia.
    + lia.
    + rewrite Z.sgn_neg in * by lia. lia.
Qed.

Lemma visited_spec x0 y0 x1 y1 :
  small x0 -> small y0 -> small x1 -> small y1 ->
  exists pts,
    visited (S (steps x0 y0 x1 y1)) x0 y0 x1 y1 = Some pts /\
    length pts = S (steps x0 y0 x1 y1) /\
    pts !! 0%nat = Some (x0, y0) /\
    last pts = Some (x1, y1) /\
    connected8 pts /\
    NoDup pts /\
    forall m : nat, (m <= steps x0 y0 x1 y1)%nat ->
      exists p, pts !! m = Some p /\ kth_pixel x0 y0 x1 y1 (Z.of_nat m) p.
Proof.
  intros Hx0 Hy0 Hx1 Hy1.
  destruct (Z.eq_dec (Z.max (Z.abs (x1 - x0)) (Z.abs (y1 - y0))) 0) as [HM | HM].
  - destruct (visited_point x0 y0 x1 y1 Hx0 Hy0 Hx1 Hy1 HM) as (Hv & -> & ->).
    assert (Hs : steps x0 y0 x0 y0 = 0%nat) by (unfold steps; lia).
    rewrite Hs. exists [(x0, y0)].
    split; [exact Hv |]. split; [reflexivity |]. split; [reflexivity |].
    split; [reflexivity |]. split; [| split].
    + intros i p q _ Hq. destruct i; discriminate.
    + apply NoDup_singleton.
    + intros m Hm. assert (m = 0%nat) by lia. subst m. exists (x0, y0).
      split; [reflexivity |].
      unfold kth_pixel, near_segment, in_box. cbn [fst snd]. lia.
  - assert (HM' : 0 < Z.max (Z.abs (x1 - x0)) (Z.abs (y1 - y0))) by lia.
    destruct (visited_segment x0 y0 x1 y1 Hx0 Hy0 Hx1 Hy1 HM')
      as (pts & Hv & Hlen & Hhd & Hlast & Hconn & Hpix).
    assert (Hk : forall m : nat, (m <= steps x0 y0 x1 y1)%nat ->
              exists p, pts !! m = Some p /\
                        kth_pixel x0 y0 x1 y1 (Z.of_nat m) p).
    { intros m Hm. destruct (Hpix m Hm) as (c & Hc & Hi).
      exists (pos c). split; [exact Hc |]. now apply inv_pixel. }
    exists pts. repeat (split; [assumption |]). split; [| exact Hk].
    apply NoDup_alt. intros i j p Hi Hj.
    assert (Li : (i <= steps x0 y0 x1 y1)%nat)
      by (apply lookup_lt_Some in Hi; lia).
    assert (Lj : (j <= steps x0 y0 x1 y1)%nat)
      by (apply lookup_lt_Some in Hj; lia).
    destruct (Hk i Li) as (pi & Hpi & Ki). destruct (Hk j Lj) as (pj & Hpj & Kj).
    assert (pi = p) by congruence. assert (pj = p) by congruence. subst pi pj.
    unfold steps in Li, Lj.
    assert (Z.of_nat i = Z.of_nat j); [| lia].
    apply (kth_pixel_inj x0 y0 x1 y1 _ _ p Ki Kj); lia.
Qed.

(** ** Swapping the endpoints mirrors the traversal *)

Lemma half_open_unique (a b m n n' : Z) :
  0 <= b ->
  - b <= 2 * (b * n - a * m) < b -> - b <= 2 * (b * n' - a * m) < b -> n = n'.
Proof.
  intros Hb H H'. destruct (Z.lt_trichotomy n n') as [L | [E | L]]; [| exact E |].
  - assert (b * (n + 1) <= b * n') by (apply Z.mul_le_mono_nonneg_l; lia). lia.
  - assert (b * (n' + 1) <= b * n) by (apply Z.mul_le_mono_nonneg_l; lia). lia.
Qed.

Lemma inv_reflect x0 y0 x1 y1 k c c' :
  cursor_inv x0 y0 x1 y1 k c -> cursor_inv x1 y1 x0 y0 k c' ->
  pos c' = reflect x0 y0 x1 y1 (pos c).
Proof.
  unfold cursor_inv. cbv zeta.
  replace (Z.abs (x0 - x1)) with (Z.abs (x1 - x0)) by lia.
  replace (Z.abs (y0 - y1)) with (Z.abs (y1 - y0)) by lia.
  intros (i & j & Hi & Hj & Ex & Ey & _ & HA & HB)
         (i' & j' & Hi' & Hj' & Ex' & Ey' & _ & HA' & HB').
  assert (HDX : 0 <= Z.abs (x1 - x0)) by lia.
  assert (HDY : 0 <= Z.abs (y1 - y0)) by lia.
  assert (i' = i /\ j' = j) as [-> ->].
  { destruct (Z.le_gt_cases (Z.abs (y1 - y0)) (Z.abs (x1 - x0))) as [L | L].
    - destruct (HA L) as [-> B1]. destruct (HA' L) as [-> B2]. split; [reflexivity |].
      apply (half_open_unique (Z.abs (y1 - y0)) (Z.abs (x1 - x0)) k); assumption.
    - assert (L' : Z.abs (x1 - x0) <= Z.abs (y1 - y0)) by lia.
      destruct (HB L') as [-> B1]. destruct (HB' L') as [-> B2]. split; [| reflexivity].
      apply (half_open_unique (Z.abs (x1 - x0)) (Z.abs (y1 - y0)) k); lia. }
  unfold pos, reflect. cbn [fst snd]. rewrite Ex, Ey, Ex', Ey'.
  f_equal.
  - destruct (Z.ltb_spec x0 x1), (Z.ltb_spec x1 x0); lia.
  - destruct (Z.ltb_spec y0 y1), (Z.ltb_spec y1 y0); lia.
Qed.

Lemma steps_swap x0 y0 x1 y1 : steps x1 y1 x0 y0 = steps x0 y0 x1 y1.
Proof. unfold steps. f_equal. lia. Qed.

Lemma visited_reflect x0 y0 x1 y1 pts :
  small x0 -> small y0 -> small x1 -> small y1 ->
  visited (S (steps x0 y0 x1 y1)) x0 y0 x1 y1 = Some pts ->
  visited (S (steps x0 y0 x1 y1)) x1 y1 x0 y0
  = Some (reflect x0 y0 x1 y1 <$> pts).
Proof.
  intros Hx0 Hy0 Hx1 Hy1 Hv.
  destruct (Z.eq_dec (Z.max (Z.abs (x1 - x0)) (Z.abs (y1 - y0))) 0) as [HM | HM].
  - destruct (visited_point x0 y0 x1 y1 Hx0 Hy0 Hx1 Hy1 HM) as (Hv' & -> & ->).
    assert (Hs : steps x0 y0 x0 y0 = 0%nat) by (unfold steps; lia).
    rewrite Hs in *. rewrite Hv' in Hv. injection Hv as <-. rewrite Hv'.
    unfold reflect. cbn. do 3 f_equal; lia.
  - assert (HM1 : 0 < Z.max (Z.abs (x1 - x0)) (Z.abs (y1 - y0))) by lia.
    assert (HM2 : 0 < Z.max (Z.abs (x0 - x1)) (Z.abs (y0 - y1))) by lia.
    destruct (visited_segment x0 y0 x1 y1 Hx0 Hy0 Hx1 Hy1 HM1)
      as (pts1 & Hv1 & Hlen1 & _ & _ & _ & Hpix1).
    destruct (visited_segment x1 y1 x0 y0 Hx1 Hy1 Hx0 Hy0 HM2)
      as (pts2 & Hv2 & Hlen2 & _ & _ & _ & Hpix2).
    rewrite (steps_swap x0 y0 x1 y1) in *. rewrite Hv in Hv1. injection Hv1 as <-.
    rewrite Hv2. f_equal. apply list_eq. intros m. rewrite list_lookup_fmap.
    destruct (Nat.le_gt_cases m (steps x0 y0 x1 y1)) as [L | L].
    + destruct (Hpix1 m L) as (c & Hc & Ic). destruct (Hpix2 m L) as (c' & Hc' & Ic').
      rewrite Hc, Hc'. cbn. f_equal. now apply (inv_reflect x0 y0 x1 y1 (Z.of_nat m)).
    + rewrite (lookup_ge_None_2 pts2) by lia.
      rewrite (lookup_ge_None_2 pts) by lia. reflexivity.
Qed.

(** ** The rasterizer (C5, C6, C9) *)

Lemma stuck_loop b x1 y1 c :
  at_end c x1 y1 = false -> advance b c = c ->
  forall fuel, visited_loop fuel b x1 y1 c = None.
Proof.
  intros He Ha fuel. induction fuel as [|fuel IH]; [reflexivity |].
  cbn [visited_loop]. rewrite He, Ha, IH. reflexivity.
Qed.

(** C5, as stated, fails: from (-2^63, 0) to (0, 1) the deltas wrap around
    (dx = -2^63, err = 2^63-1, 2*err = -2), neither coordinate is ever
    stepped, and [line] never leaves its loop. *)
Lemma C5_line_wraps_forever :
  ~ exists fuel img',
      line fuel (image.fill (image.NewRGBA 0 0 2 2) bg)
           (-9223372036854775808) 0 0 1 bg = Some img'.
Proof.
  intros (fuel & img' & H). rewrite line_visited in H.
  unfold visited in H.
  assert (E : setup (-9223372036854775808) 0 0 1
              = (Bres (-9223372036854775808) 1 1 1,
                 Cursor (-9223372036854775808) 0 9223372036854775807))
    by (vm_compute; reflexivity).
  rewrite E in H. rewrite stuck_loop in H; [discriminate | | ]; vm_compute; reflexivity.
Qed.

(** C5 (amended): between endpoints whose coordinates are at most 2^60 in
    magnitude, [line] terminates after max(|dx|,|dy|)+1 rounds, whatever
    fuel beyond that it is given, and has then set exactly the pixels of
    one sequence [pts], in order ([bdiff] and [bcopy] traverse the same
    sequence): [pts] starts at the first endpoint, ends
    at the second, has no repetition, holds for every position k along the
    major axis the pixel within half a step of the ideal segment, and is
    the single pixel when the endpoints coincide. *)
Theorem C5_line_traversal x0 y0 x1 y1 img clr :
  small x0 -> small y0 -> small x1 -> small y1 ->
  exists pts,
    (forall fuel : nat, (steps x0 y0 x1 y1 < fuel)%nat ->
       visited fuel x0 y0 x1 y1 = Some pts /\
       line fuel img x0 y0 x1 y1 clr = Some (foldl (draw_px clr) img pts) /\
       (forall a b, bdiff fuel a b x0 y0 x1 y1
                    = Some (foldl (diff_px a b) 0 pts)) /\
       (forall dst src, bcopy fuel dst src x0 y0 x1 y1
                        = Some (foldl (copy_px src) dst pts))) /\
    (forall fuel img', line fuel img x0 y0 x1 y1 clr = Some img' ->
       img' = foldl (draw_px clr) img pts) /\
    length pts = S (steps x0 y0 x1 y1) /\
    head pts = Some (x0, y0) /\
    last pts = Some (x1, y1) /\
    NoDup pts /\
    (forall m : nat, (m <= steps x0 y0 x1 y1)%nat ->
       exists p, pts !! m = Some p /\ kth_pixel x0 y0 x1 y1 (Z.of_nat m) p) /\
    (x0 = x1 -> y0 = y1 -> pts = [(x0, y0)]).
Proof.
  intros Hx0 Hy0 Hx1 Hy1.
  destruct (visited_spec x0 y0 x1 y1 Hx0 Hy0 Hx1 Hy1)
    as (pts & Hv & Hlen & Hhd & Hlast & _ & Hnd & Hpix).
  exists pts. split; [| split; [| split; [| split; [| split; [| split; [| split]]]]]];
    try assumption.
  - intros fuel Hf.
    assert (Hv' : visited fuel x0 y0 x1 y1 = Some pts)
      by (apply (visited_mono _ _ _ _ _ _ _ Hv); lia).
    split; [exact Hv' |].
    split; [rewrite line_visited, Hv'; reflexivity |].
    split; [intros a b; rewrite bdiff_visited, Hv'; reflexivity |].
    intros dst src. rewrite bcopy_visited, Hv'. reflexivity.
  - intros fuel img' H. rewrite line_visited in H.
    destruct (visited fuel x0 y0 x1 y1) as [pts'|] eqn:E; [| discriminate].
    injection H as <-. now rewrite (visited_fuel_irrelevant _ _ _ _ _ _ _ _ Hv E).
  - destruct pts; [discriminate | exact Hhd].
  - intros -> ->. assert (Hs : steps x1 y1 x1 y1 = 0%nat) by (unfold steps; lia).
    rewrite Hs in Hlen. destruct pts as [|p [|q pts]]; try discriminate.
    cbn in Hhd. congruence.
Qed.

Lemma C5_line_traversal_witness :
  (small 0 /\ small 3 /\ small 1) /\
  exists pts, line 4 (image.fill (image.NewRGBA 0 0 4 2) bg) 0 0 3 1 bg
              = Some (foldl (draw_px bg) (image.fill (image.NewRGBA 0 0 4 2) bg) pts)
              /\ NoDup pts /\ length pts = 4%nat.
Proof.
  assert (S0 : small 0) by (unfold small; lia).
  assert (S1 : small 1) by (unfold small; lia).
  assert (S3 : small 3) by (unfold small; lia).
  split; [auto |].
  destruct (C5_line_traversal 0 0 3 1 (image.fill (image.NewRGBA 0 0 4 2) bg) bg
              S0 S0 S3 S1) as (pts & Hrun & _ & Hlen & _ & _ & Hnd & _).
  exists pts. split; [| split; [exact Hnd | exact Hlen]].
  assert (Hf : (steps 0 0 3 1 < 4)%nat) by (vm_compute; lia).
  destruct (Hrun 4%nat Hf) as (_ & Hline & _). exact Hline.
Defined.

(** C6, as stated, fails: from (0,0) to (2,1) the traversal passes through
    (1,0), from (2,1) to (0,0) through (1,1); the two pixel sets differ and
    so do the images drawn. *)
Lemma C6_swap_changes_pixels :
  visited 3 0 0 2 1 = Some [(0, 0); (1, 0); (2, 1)] /\
  visited 3 2 1 0 0 = Some [(2, 1); (1, 1); (0, 0)] /\
  ((1, 0) ∈ [(0, 0); (1, 0); (2, 1)]) /\
  ((1, 0) ∉ [(2, 1); (1, 1); (0, 0)]) /\
  line 3 (image.NewRGBA 0 0 3 2) 0 0 2 1 bg <> line 3 (image.NewRGBA 0 0 3 2) 2 1 0 0 bg.
Proof.
  split; [vm_compute; reflexivity |]. split; [vm_compute; reflexivity |].
  split; [| split].
  - apply list_elem_of_further, list_elem_of_here.
  - rewrite !elem_of_cons, elem_of_nil.
    intros [H | [H | [H | []]]]; discriminate H.
  - vm_compute. discriminate.
Qed.

(** C6 (amended): between endpoints whose coordinates are at most 2^60 in
    magnitude, the pixels visited from (x0,y0) to (x1,y1) form a non-empty
    8-connected path from the first endpoint to the second, and the
    traversal from (x1,y1) to (x0,y0) visits, in order, their mirror images
    through the midpoint of the endpoints: a pixel is visited by the one
    exactly when its mirror image is visited by the other, and [line] sets
    these pixels. *)
Theorem C6_swap_mirrors_path x0 y0 x1 y1 :
  small x0 -> small y0 -> small x1 -> small y1 ->
  exists pts,
    visited (S (steps x0 y0 x1 y1)) x0 y0 x1 y1 = Some pts /\
    visited (S (steps x0 y0 x1 y1)) x1 y1 x0 y0
    = Some (reflect x0 y0 x1 y1 <$> pts) /\
    pts <> [] /\
    head pts = Some (x0, y0) /\ last pts = Some (x1, y1) /\
    connected8 pts /\
    connected8 (reflect x0 y0 x1 y1 <$> pts) /\
    length (reflect x0 y0 x1 y1 <$> pts) = length pts /\
    (forall q, (q ∈ (reflect x0 y0 x1 y1 <$> pts)) <-> (reflect x0 y0 x1 y1 q ∈ pts)) /\
    (forall img clr,
       line (S (steps x0 y0 x1 y1)) img x0 y0 x1 y1 clr
       = Some (foldl (draw_px clr) img pts) /\
       line (S (steps x0 y0 x1 y1)) img x1 y1 x0 y0 clr
       = Some (foldl (draw_px clr) img (reflect x0 y0 x1 y1 <$> pts))).
Proof.
  intros Hx0 Hy0 Hx1 Hy1.
  destruct (visited_spec x0 y0 x1 y1 Hx0 Hy0 Hx1 Hy1)
    as (pts & Hv & Hlen & Hhd & Hlast & Hconn & _ & _).
  destruct (visited_spec x1 y1 x0 y0 Hx1 Hy1 Hx0 Hy0)
    as (pts' & Hv' & _ & _ & _ & Hconn' & _ & _).
  pose proof (visited_reflect x0 y0 x1 y1 pts Hx0 Hy0 Hx1 Hy1 Hv) as Hr.
  rewrite (steps_swap x0 y0 x1 y1), Hr in Hv'. injection Hv' as <-.
  exists pts. repeat (split; [assumption |]).
  split; [destruct pts; [discriminate | intros ?; discriminate] |].
  split; [destruct pts; [discriminate | exact Hhd] |].
  split; [exact Hlast |]. split; [exact Hconn |]. split; [exact Hconn' |].
  split; [apply length_fmap |].
  split.
  - intros q. rewrite list_elem_of_fmap. split.
    + intros (p & -> & Hp). destruct p as [a b]. unfold reflect. cbn [fst snd].
      replace (x0 + x1 - (x0 + x1 - a)) with a by lia.
      replace (y0 + y1 - (y0 + y1 - b)) with b by lia. exact Hp.
    + intros Hq. exists (reflect x0 y0 x1 y1 q). split; [| exact Hq].
      destruct q as [a b]. unfold reflect. cbn [fst snd]. f_equal; lia.
  - intros img clr. rewrite !line_visited, Hv, Hr. split; reflexivity.
Qed.

Lemma C6_swap_mirrors_path_witness :
  (small 0 /\ small 2 /\ small 1) /\
  exists pts, visited 3 0 0 2 1 = Some pts /\
              visited 3 2 1 0 0 = Some (reflect 0 0 2 1 <$> pts) /\
              connected8 pts.
Proof.
  assert (S0 : small 0) by (unfold small; lia).
  assert (S1 : small 1) by (unfold small; lia).
  assert (S2 : small 2) by (unfold small; lia).
  split; [auto |].
  destruct (C6_swap_mirrors_path 0 0 2 1 S0 S0 S2 S1)
    as (pts & Hv & Hr & _ & _ & _ & Hc & _).
  exists pts. split; [exact Hv |]. split; [exact Hr | exact Hc].
Defined.

Lemma visited_loop_last b x1 y1 (fuel : nat) : forall c pts,
  visited_loop fuel b x1 y1 c = Some pts -> last pts = Some (x1, y1).
Proof.
  induction fuel as [|fuel IH]; intros c pts H; [discriminate |].
  cbn [visited_loop] in H. destruct (at_end c x1 y1) eqn:E.
  - injection H as <-. unfold at_end in E. apply andb_true_iff in E as [E1 E2].
    apply Z.eqb_eq in E1, E2. cbn. now rewrite E1, E2.
  - destruct (visited_loop fuel b x1 y1 (advance b c)) as [pts'|] eqn:E';
      [| discriminate].
    injection H as <-. specialize (IH _ _ E').
    destruct pts'; [discriminate | exact IH].
Qed.

Lemma visited_last fuel x0 y0 x1 y1 pts :
  visited fuel x0 y0 x1 y1 = Some pts -> last pts = Some (x1, y1).
Proof.
  unfold visited. destruct (setup x0 y0 x1 y1). apply visited_loop_last.
Qed.

Lemma last_elem_of {T} (l : list T) (x : T) : last l = Some x -> x ∈ l.
Proof.
  induction l as [|y l IH]; [discriminate |]. destruct l as [|z l].
  - intros [= ->]. apply list_elem_of_here.
  - intros H. apply list_elem_of_further, IH, H.
Qed.

Lemma propose_origin lineLen img palette clr :
  0 < image.Dx img -> 0 < image.Dy img -> head palette = Some clr ->
  0 < lineLen <= 2 ^ 60 ->
  propose lineLen img palette (Draws 0 0 0 0 0)
  = Some (0, 0, - (lineLen / 2), - (lineLen / 2), clr).
Proof.
  intros Hw Hh Hp Hl. unfold propose, Intn.
  assert (Hn : 0 < Z.of_nat (length palette)) by (destruct palette; [discriminate | cbn; lia]).
  destruct (Z.ltb_spec 0 (image.Dx img)); [| lia].
  destruct (Z.ltb_spec 0 (image.Dy img)); [| lia].
  destruct (Z.ltb_spec 0 lineLen); [| lia].
  destruct (Z.ltb_spec 0 (Z.of_nat (length palette))); [| lia].
  rewrite !Z.mod_0_l by lia. cbn [mbind option_bind].
  assert (Eq : GoInt.add (GoInt.add (GoInt.quot (GoInt.neg lineLen) 2) 0) 0
               = - (lineLen / 2)).
  { assert (E1 : GoInt.neg lineLen = - lineLen) by (unwrap; lia).
    rewrite E1. unfold GoInt.quot.
    rewrite (Z.quot_opp_l lineLen 2) by lia.
    rewrite (Z.quot_div_nonneg lineLen 2) by lia.
    assert (Hq : 0 <= lineLen / 2 <= 2 ^ 60).
    { split; [apply Z.div_pos; lia | apply Z.div_le_upper_bound; lia]. }
    remember (lineLen / 2) as q. clear Heqq.
    unfold GoInt.add. rewrite (wrap_id' (- q)) by lia.
    rewrite (wrap_id' (- q + 0)) by lia. rewrite wrap_id' by lia. lia. }
  rewrite Eq. destruct palette as [|c0 palette]; [discriminate |].
  cbn in Hp. injection Hp as ->. reflexivity.
Qed.

(** C9: the traversal takes no account of any image bounds, so whenever it
    terminates it has visited its second endpoint as given; and for every
    image, every non-empty palette and every line-length limit of at least
    2 there are outcomes of the random draws for which the proposed line
    ends outside the image when the bounds of the image start at
    non-negative coordinates (as those of every decoded image do), and
    starts inside it when they start at (0,0), so that [line], [bdiff]
    and [bcopy] hand coordinates outside the bounds to the pixel accessors
    ([SetRGBA] ignores such a write, [RGBAAt] then yields the zero colour). *)
Theorem C9_line_leaves_image lineLen img palette :
  0 < image.Dx img -> 0 < image.Dy img -> palette <> [] ->
  2 <= lineLen <= 2 ^ 60 ->
  (forall fuel x0 y0 x1 y1 pts,
     visited fuel x0 y0 x1 y1 = Some pts -> (x1, y1) ∈ pts) /\
  exists d x1 y1 x2 y2 clr pts,
    propose lineLen img palette d = Some (x1, y1, x2, y2, clr) /\
    (image.MinX img = 0 -> image.MinY img = 0 ->
     image.inside img x1 y1 = true) /\
    (0 <= image.MinX img \/ 0 <= image.MinY img ->
     image.inside img x2 y2 = false) /\
    visited (S (steps x1 y1 x2 y2)) x1 y1 x2 y2 = Some pts /\
    ((x2, y2) ∈ pts) /\
    (forall a, line (S (steps x1 y1 x2 y2)) a x1 y1 x2 y2 clr
               = Some (foldl (draw_px clr) a pts)) /\
    (forall a b, bdiff (S (steps x1 y1 x2 y2)) a b x1 y1 x2 y2
                 = Some (foldl (diff_px a b) 0 pts)) /\
    (forall dst src, bcopy (S (steps x1 y1 x2 y2)) dst src x1 y1 x2 y2
                     = Some (foldl (copy_px src) dst pts)).
Proof.
  intros Hw Hh Hp Hl. split.
  - intros fuel x0 y0 x1 y1 pts H. eapply last_elem_of, visited_last, H.
  - destruct palette as [|clr palette]; [congruence |].
    assert (Hq : 1 <= lineLen / 2 <= 2 ^ 60).
    { split; [apply Z.div_le_lower_bound; lia | apply Z.div_le_upper_bound; lia]. }
    assert (S0 : small 0) by (unfold small; lia).
    assert (S2 : small (- (lineLen / 2))) by (unfold small; lia).
    destruct (visited_spec 0 0 (- (lineLen / 2)) (- (lineLen / 2)) S0 S0 S2 S2)
      as (pts & Hv & _ & _ & Hlast & _).
    exists (Draws 0 0 0 0 0), 0, 0, (- (lineLen / 2)), (- (lineLen / 2)), clr, pts.
    split; [apply propose_origin; [assumption.. | reflexivity | lia] |].
    split. { intros Ex Ey. unfold image.inside. rewrite Ex, Ey.
             repeat (apply andb_true_iff; split); lia. }
    split. { intros Ho. unfold image.inside.
             destruct (Z.leb_spec (image.MinX img) (- (lineLen / 2)));
               destruct (Z.leb_spec (image.MinY img) (- (lineLen / 2)));
               rewrite ?andb_false_r; try reflexivity; lia. }
    split; [exact Hv |]. split; [now apply last_elem_of |].
    split; [| split].
    + intros a. now rewrite line_visited, Hv.
    + intros a b. now rewrite bdiff_visited, Hv.
    + intros dst src. now rewrite bcopy_visited, Hv.
Qed.

Lemma C9_line_leaves_image_witness :
  exists d x1 y1 x2 y2 clr,
    propose 40 (image.NewRGBA 0 0 4 4) [bg] d = Some (x1, y1, x2, y2, clr) /\
    image.inside (image.NewRGBA 0 0 4 4) x2 y2 = false.
Proof.
  assert (H1 : 0 < image.Dx (image.NewRGBA 0 0 4 4)) by (cbn; lia).
  assert (H2 : 0 < image.Dy (image.NewRGBA 0 0 4 4)) by (cbn; lia).
  assert (H3 : [bg] <> []) by discriminate.
  assert (H4 : 2 <= 40 <= 2 ^ 60) by lia.
  destruct (C9_line_leaves_image 40 (image.NewRGBA 0 0 4 4) [bg] H1 H2 H3 H4)
    as (_ & d & x1 & y1 & x2 & y2 & clr & pts & Hp & _ & Ho & _).
  exists d, x1, y1, x2, y2, clr. split; [exact Hp |].
  apply Ho. left. cbn. lia.
Defined.

(** ** Pixel accessors *)

Lemma inside_spec img x y :
  image.inside img x y = true
  <-> image.MinX img <= x < image.MinX img + image.Dx img /\
      image.MinY img <= y < image.MinY img + image.Dy img.
Proof.
  unfold image.inside. rewrite !andb_true_iff, !Z.leb_le, !Z.ltb_lt. lia.
Qed.

Lemma inside_offset img x y :
  image.wf img -> image.inside img x y = true ->
  (image.PixOffset img x y < length (image.Pix img))%nat.
Proof.
  intros (Hw & Hh & Hl) Hi. apply inside_spec in Hi as [Hx Hy].
  unfold image.PixOffset.
  assert ((y - image.MinY img) * image.Dx img <= (image.Dy img - 1) * image.Dx img)
    by (apply Z.mul_le_mono_nonneg_r; lia).
  assert (0 <= (y - image.MinY img) * image.Dx img)
    by (apply Z.mul_nonneg_nonneg; lia).
  lia.
Qed.

Lemma offset_inj img x y x' y' :
  image.inside img x y = true -> image.inside img x' y' = true ->
  image.PixOffset img x y = image.PixOffset img x' y' -> x = x' /\ y = y'.
Proof.
  intros Hi Hi' E. apply inside_spec in Hi as [Hx Hy], Hi' as [Hx' Hy'].
  unfold image.PixOffset in E.
  remember (y - image.MinY img) as v eqn:Ev.
  remember (y' - image.MinY img) as v' eqn:Ev'.
  remember (x - image.MinX img) as u eqn:Eu.
  remember (x' - image.MinX img) as u' eqn:Eu'.
  assert (0 <= v * image.Dx img) by (apply Z.mul_nonneg_nonneg; lia).
  assert (0 <= v' * image.Dx img) by (apply Z.mul_nonneg_nonneg; lia).
  assert (E' : v * image.Dx img + u = v' * image.Dx img + u') by lia.
  destruct (Z.lt_trichotomy v v') as [L | [L | L]].
  - assert ((v + 1) * image.Dx img <= v' * image.Dx img)
      by (apply Z.mul_le_mono_nonneg_r; lia). lia.
  - subst v'. lia.
  - assert ((v' + 1) * image.Dx img <= v * image.Dx img)
      by (apply Z.mul_le_mono_nonneg_r; lia). lia.
Qed.

Lemma same_bounds_refl a : same_bounds a a.
Proof. repeat split. Qed.

Lemma same_bounds_sym a b : same_bounds a b -> same_bounds b a.
Proof. intros (E1 & E2 & E3 & E4). repeat split; congruence. Qed.

Lemma same_bounds_trans a b c :
  same_bounds a b -> same_bounds b c -> same_bounds a c.
Proof.
  intros (E1 & E2 & E3 & E4) (F1 & F2 & F3 & F4). repeat split; congruence.
Qed.

(* Closes a goal on bounds from the equalities of bounds at hand. *)
Ltac bounds :=
  unfold same_bounds in *;
  repeat match goal with H : _ /\ _ |- _ => destruct H end;
  repeat split; congruence.

Lemma SetRGBA_bounds img x y c : same_bounds (image.SetRGBA img x y c) img.
Proof.
  unfold image.SetRGBA. destruct (image.inside img x y); repeat split.
Qed.

Lemma SetRGBA_inside img x y c x' y' :
  image.inside (image.SetRGBA img x y c) x' y' = image.inside img x' y'.
Proof. unfold image.SetRGBA. destruct (image.inside img x y); reflexivity. Qed.

Lemma SetRGBA_wf img x y c : image.wf img -> image.wf (image.SetRGBA img x y c).
Proof.
  unfold image.SetRGBA. destruct (image.inside img x y); [| trivial].
  unfold image.wf. cbn. rewrite length_insert. trivial.
Qed.

Lemma RGBAAt_SetRGBA img x y c x' y' :
  image.wf img ->
  image.RGBAAt (image.SetRGBA img x y c) x' y'
  = if bool_decide ((x, y) = (x', y')) && image.inside img x y then c
    else image.RGBAAt img x' y'.
Proof.
  intros Hwf. unfold image.RGBAAt. rewrite SetRGBA_inside.
  unfold image.SetRGBA. destruct (image.inside img x y) eqn:Hi.
  - cbn [image.Pix image.Dx image.Dy]. unfold image.PixOffset at 1.
    cbn [image.Dx image.MinX image.MinY]. fold (image.PixOffset img x' y').
    case_bool_decide as Hd.
    + injection Hd as <- <-. rewrite Hi. cbn.
      rewrite list_lookup_insert_eq by now apply inside_offset. reflexivity.
    + cbn. destruct (image.inside img x' y') eqn:Hi'; [| reflexivity].
      rewrite list_lookup_insert_ne; [reflexivity |].
      intros E. apply offset_inj in E as [-> ->]; [| assumption..]. now apply Hd.
  - rewrite andb_false_r. reflexivity.
Qed.

Lemma image_ext a b :
  image.wf a -> image.wf b -> same_bounds a b ->
  (forall x y, image.RGBAAt a x y = image.RGBAAt b x y) -> a = b.
Proof.
  intros (Hw & Hh & Hl) (Hw' & Hh' & Hl') (Ex0 & Ey0 & Ex & Ey) H.
  destruct a as [pa xa ya wa ha], b as [pb xb yb wb hb]. cbn in *.
  subst xb yb wb hb.
  f_equal. apply list_eq. intros n.
  destruct (Nat.lt_ge_cases n (length pa)) as [L | L].
  - assert (Hpos : 0 < wa) by nia.
    pose proof (Z.div_mod (Z.of_nat n) wa ltac:(lia)) as Hdm.
    pose proof (Z.mod_pos_bound (Z.of_nat n) wa Hpos) as Hm.
    assert (Hq : 0 <= Z.of_nat n / wa < ha).
    { split; [apply Z.div_pos; lia |]. apply Z.div_lt_upper_bound; lia. }
    specialize (H (xa + Z.of_nat n mod wa) (ya + Z.of_nat n / wa)).
    unfold image.RGBAAt, image.inside, image.PixOffset in H. cbn in H.
    destruct (Z.leb_spec xa (xa + Z.of_nat n mod wa)); [| lia].
    destruct (Z.ltb_spec (xa + Z.of_nat n mod wa) (xa + wa)); [| lia].
    destruct (Z.leb_spec ya (ya + Z.of_nat n / wa)); [| lia].
    destruct (Z.ltb_spec (ya + Z.of_nat n / wa) (ya + ha)); [| lia].
    cbn in H.
    replace (Z.to_nat ((ya + Z.of_nat n / wa - ya) * wa
                       + (xa + Z.of_nat n mod wa - xa))) with n in H by lia.
    destruct (lookup_lt_is_Some_2 pa n L) as [ca Hca].
    destruct (lookup_lt_is_Some_2 pb n ltac:(lia)) as [cb Hcb].
    rewrite Hca, Hcb in H |- *. cbn in H. now rewrite H.
  - rewrite (lookup_ge_None_2 pa) by lia. rewrite (lookup_ge_None_2 pb) by lia.
    reflexivity.
Qed.

(** ** Drawing and copying along a pixel sequence *)

Lemma draw_fold_bounds clr pts : forall img,
  same_bounds (foldl (draw_px clr) img pts) img /\
  (image.wf img -> image.wf (foldl (draw_px clr) img pts)).
Proof.
  induction pts as [|p pts IH]; intros img;
    [split; [apply same_bounds_refl | trivial] |].
  cbn [foldl]. destruct (IH (draw_px clr img p)) as [Hb Hwf].
  split; [eapply same_bounds_trans; [exact Hb | apply SetRGBA_bounds] |].
  intros H. now apply Hwf, SetRGBA_wf.
Qed.

Lemma copy_fold_bounds src pts : forall dst,
  same_bounds (foldl (copy_px src) dst pts) dst /\
  (image.wf dst -> image.wf (foldl (copy_px src) dst pts)).
Proof.
  induction pts as [|p pts IH]; intros dst;
    [split; [apply same_bounds_refl | trivial] |].
  cbn [foldl]. destruct (IH (copy_px src dst p)) as [Hb Hwf].
  split; [eapply same_bounds_trans; [exact Hb | apply SetRGBA_bounds] |].
  intros H. now apply Hwf, SetRGBA_wf.
Qed.

Lemma draw_fold_px clr pts : forall img q,
  image.wf img ->
  px (foldl (draw_px clr) img pts) q
  = if bool_decide (q ∈ pts) && image.inside img q.1 q.2 then clr else px img q.
Proof.
  induction pts as [|p pts IH]; intros img q Hwf.
  - cbn [foldl]. rewrite bool_decide_eq_false_2 by apply not_elem_of_nil. reflexivity.
  - cbn [foldl]. rewrite IH by now apply SetRGBA_wf.
    unfold draw_px. rewrite SetRGBA_inside. unfold px.
    rewrite RGBAAt_SetRGBA by assumption.
    destruct p as [a b], q as [a' b']. cbn [fst snd].
    destruct (decide ((a, b) = (a', b'))) as [E | NE].
    + injection E as -> ->.
      rewrite (bool_decide_eq_true_2 ((a', b') ∈ (a', b') :: pts))
        by apply list_elem_of_here.
      rewrite (bool_decide_eq_true_2 ((a', b') = (a', b'))) by reflexivity.
      destruct (bool_decide ((a', b') ∈ pts)), (image.inside img a' b');
        reflexivity.
    + rewrite (bool_decide_eq_false_2 ((a, b) = (a', b'))) by assumption.
      rewrite (bool_decide_ext ((a', b') ∈ (a, b) :: pts) ((a', b') ∈ pts));
        [reflexivity |].
      rewrite elem_of_cons. split; [intros [H | H]; [congruence | exact H] | auto].
Qed.

Lemma copy_fold_px src pts : forall dst q,
  image.wf dst ->
  px (foldl (copy_px src) dst pts) q
  = if bool_decide (q ∈ pts) && image.inside dst q.1 q.2 then px src q
    else px dst q.
Proof.
  induction pts as [|p pts IH]; intros dst q Hwf.
  - cbn [foldl]. rewrite bool_decide_eq_false_2 by apply not_elem_of_nil. reflexivity.
  - cbn [foldl]. rewrite IH by now apply SetRGBA_wf.
    unfold copy_px. rewrite SetRGBA_inside. unfold px.
    rewrite RGBAAt_SetRGBA by assumption.
    destruct p as [a b], q as [a' b']. cbn [fst snd].
    destruct (decide ((a, b) = (a', b'))) as [E | NE].
    + injection E as -> ->.
      rewrite (bool_decide_eq_true_2 ((a', b') ∈ (a', b') :: pts))
        by apply list_elem_of_here.
      rewrite (bool_decide_eq_true_2 ((a', b') = (a', b'))) by reflexivity.
      destruct (bool_decide ((a', b') ∈ pts)), (image.inside dst a' b');
        reflexivity.
    + rewrite (bool_decide_eq_false_2 ((a, b) = (a', b'))) by assumption.
      rewrite (bool_decide_ext ((a', b') ∈ (a, b) :: pts) ((a', b') ∈ pts));
        [reflexivity |].
      rewrite elem_of_cons. split; [intros [H | H]; [congruence | exact H] | auto].
Qed.

(* The score along a sequence depends only on the pixels of the sequence. *)
Lemma diff_px_ext a b b' dif p :
  px b p = px b' p -> diff_px a b dif p = diff_px a b' dif p.
Proof.
  unfold px, diff_px, calcDiff. intros H. rewrite H. reflexivity.
Qed.

Lemma diff_fold_ext a b b' pts : forall dif,
  (forall p, p ∈ pts -> px b p = px b' p) ->
  foldl (diff_px a b) dif pts = foldl (diff_px a b') dif pts.
Proof.
  induction pts as [|p pts IH]; intros dif H.
  - change (dif = dif). reflexivity.
  - change (foldl (diff_px a b) (diff_px a b dif p) pts
            = foldl (diff_px a b') (diff_px a b' dif p) pts).
    rewrite (diff_px_ext a b b' dif p) by apply H, list_elem_of_here.
    apply IH. intros q Hq. apply H. now apply list_elem_of_further.
Qed.

(** ** One iteration of the engine *)

Lemma iteration_unfold fuel lineLen img palette s d :
  iteration fuel lineLen img palette s d
  = match propose lineLen img palette d with
    | Some (x1, y1, x2, y2, clr) =>
        decided img s clr <$> visited fuel x1 y1 x2 y2
    | None => None
    end.
Proof.
  unfold iteration.
  destruct (propose lineLen img palette d) as [[[[[x1 y1] x2] y2] clr]|];
    [| reflexivity].
  cbn [mbind option_bind]. rewrite line_visited.
  destruct (visited fuel x1 y1 x2 y2) as [pts|] eqn:Hv; [| reflexivity].
  cbn [fmap option_fmap option_map mbind option_bind].
  rewrite !bdiff_visited, !bcopy_visited, Hv.
  cbn [fmap option_fmap option_map mbind option_bind].
  unfold decided. cbv zeta.
  destruct (foldl (diff_px img (foldl (draw_px clr) (img1 s) pts)) 0 pts
            <? foldl (diff_px img (img2 s)) 0 pts); reflexivity.
Qed.

Lemma propose_small lineLen img palette d :
  0 < image.Dx img <= 2 ^ 59 -> 0 < image.Dy img <= 2 ^ 59 ->
  0 < lineLen <= 2 ^ 59 -> palette <> [] ->
  exists x1 y1 x2 y2 clr,
    propose lineLen img palette d = Some (x1, y1, x2, y2, clr) /\
    small x1 /\ small y1 /\ small x2 /\ small y2 /\
    (steps x1 y1 x2 y2 <= Z.to_nat lineLen)%nat.
Proof.
  intros Hw Hh Hl Hp. unfold propose, Intn.
  assert (Hn : 0 < Z.of_nat (length palette))
    by (destruct palette; [congruence | cbn; lia]).
  destruct (Z.ltb_spec 0 (image.Dx img)); [| lia].
  destruct (Z.ltb_spec 0 (image.Dy img)); [| lia].
  destruct (Z.ltb_spec 0 lineLen); [| lia].
  destruct (Z.ltb_spec 0 (Z.of_nat (length palette))); [| lia].
  cbn [mbind option_bind].
  pose proof (Z.mod_pos_bound (raw_x1 d) (image.Dx img) ltac:(lia)) as B1.
  pose proof (Z.mod_pos_bound (raw_y1 d) (image.Dy img) ltac:(lia)) as B2.
  pose proof (Z.mod_pos_bound (raw_x2 d) lineLen ltac:(lia)) as B3.
  pose proof (Z.mod_pos_bound (raw_y2 d) lineLen ltac:(lia)) as B4.
  pose proof (Z.mod_pos_bound (raw_clr d) (Z.of_nat (length palette)) ltac:(lia)) as B5.
  remember (raw_x1 d mod image.Dx img) as x1 eqn:E1. clear E1.
  remember (raw_y1 d mod image.Dy img) as y1 eqn:E2. clear E2.
  remember (raw_x2 d mod lineLen) as ox eqn:E3. clear E3.
  remember (raw_y2 d mod lineLen) as oy eqn:E4. clear E4.
  remember (raw_clr d mod Z.of_nat (length palette)) as i eqn:E5. clear E5.
  assert (Hq : GoInt.quot (GoInt.neg lineLen) 2 = - (lineLen / 2)).
  { assert (E : GoInt.neg lineLen = - lineLen) by (unwrap; lia).
    rewrite E. unfold GoInt.quot. rewrite (Z.quot_opp_l lineLen 2) by lia.
    rewrite (Z.quot_div_nonneg lineLen 2) by lia. apply wrap_id'.
    assert (0 <= lineLen / 2 <= 2 ^ 59)
      by (split; [apply Z.div_pos; lia | apply Z.div_le_upper_bound; lia]).
    lia. }
  assert (Hh2 : 0 <= lineLen / 2 <= lineLen)
    by (split; [apply Z.div_pos; lia | apply Z.div_le_upper_bound; lia]).
  rewrite Hq. remember (lineLen / 2) as q eqn:Eq. clear Eq Hq.
  assert (Ex : GoInt.add (GoInt.add (- q) x1) ox = - q + x1 + ox) by (unwrap; lia).
  assert (Ey : GoInt.add (GoInt.add (- q) y1) oy = - q + y1 + oy) by (unwrap; lia).
  rewrite Ex, Ey.
  destruct (lookup_lt_is_Some_2 palette (Z.to_nat i) ltac:(lia)) as [clr Hc].
  rewrite Hc. cbn [mbind option_bind].
  exists x1, y1, (- q + x1 + ox), (- q + y1 + oy), clr.
  split; [reflexivity |]. unfold small, steps. repeat split; lia.
Qed.

Lemma iteration_total lineLen img palette s d :
  0 < image.Dx img <= 2 ^ 59 -> 0 < image.Dy img <= 2 ^ 59 ->
  0 < lineLen <= 2 ^ 59 -> palette <> [] ->
  exists s', iteration (S (Z.to_nat lineLen)) lineLen img palette s d = Some s'.
Proof.
  intros Hw Hh Hl Hp.
  destruct (propose_small lineLen img palette d Hw Hh Hl Hp)
    as (x1 & y1 & x2 & y2 & clr & Hpr & Sx1 & Sy1 & Sx2 & Sy2 & Hst).
  destruct (visited_spec x1 y1 x2 y2 Sx1 Sy1 Sx2 Sy2) as (pts & Hv & _).
  apply (visited_mono _ (S (Z.to_nat lineLen))) in Hv; [| lia].
  rewrite iteration_unfold, Hpr, Hv. eexists. reflexivity.
Qed.

Lemma inside_same_bounds a b x y :
  same_bounds a b -> image.inside a x y = image.inside b x y.
Proof.
  intros (E1 & E2 & E3 & E4). unfold image.inside. now rewrite E1, E2, E3, E4.
Qed.

Lemma px_outside img q : image.inside img q.1 q.2 = false -> px img q = color.zero.
Proof. unfold px, image.RGBAAt. now intros ->. Qed.

Lemma copy_line_px src dst pts q :
  image.wf dst -> same_bounds dst src ->
  px (foldl (copy_px src) dst pts) q
  = if bool_decide (q ∈ pts) then px src q else px dst q.
Proof.
  intros Hwf Hb. rewrite copy_fold_px by assumption.
  destruct (bool_decide (q ∈ pts)); [| reflexivity].
  destruct (image.inside dst q.1 q.2) eqn:Hi; [reflexivity |].
  cbn. rewrite (px_outside dst) by assumption.
  rewrite (px_outside src); [reflexivity |].
  now rewrite <- (inside_same_bounds dst src).
Qed.

Lemma draw_line_px_off clr img pts q :
  image.wf img -> q ∉ pts -> px (foldl (draw_px clr) img pts) q = px img q.
Proof.
  intros Hwf Hq. rewrite draw_fold_px by assumption.
  now rewrite bool_decide_eq_false_2.
Qed.

(* The canvases after the decision, pixel by pixel. *)
Lemma decided_accept img s clr pts :
  image.wf (img2 s) -> same_bounds (img1 s) (img2 s) ->
  foldl (diff_px img (foldl (draw_px clr) (img1 s) pts)) 0 pts
  < foldl (diff_px img (img2 s)) 0 pts ->
  let s' := decided img s clr pts in
  img1 s' = foldl (draw_px clr) (img1 s) pts /\
  img2 s' = foldl (copy_px (img1 s')) (img2 s) pts /\
  (forall p, p ∈ pts -> px (img2 s') p = px (img1 s') p) /\
  (forall q, q ∉ pts -> px (img2 s') q = px (img2 s) q) /\
  stati s' = GoInt.add (stati s) 1 /\
  statc s' = GoInt.add (statc s) 1.
Proof.
  intros Hwf Hb0 Hlt. cbv zeta. unfold decided. cbv zeta.
  apply Z.ltb_lt in Hlt. rewrite Hlt. cbn [img1 img2 stati statc].
  destruct (draw_fold_bounds clr pts (img1 s)) as [Hb1 _].
  assert (Hb : same_bounds (img2 s) (foldl (draw_px clr) (img1 s) pts))
    by (apply same_bounds_sym; eapply same_bounds_trans; eassumption).
  split; [reflexivity |]. split; [reflexivity |].
  split; [| split; [| split; reflexivity]].
  - intros p Hp. rewrite copy_line_px by assumption.
    now rewrite bool_decide_eq_true_2.
  - intros q Hq. rewrite copy_line_px by assumption.
    now rewrite bool_decide_eq_false_2.
Qed.

Lemma decided_reject img s clr pts :
  image.wf (img1 s) -> same_bounds (img1 s) (img2 s) ->
  foldl (diff_px img (img2 s)) 0 pts
  <= foldl (diff_px img (foldl (draw_px clr) (img1 s) pts)) 0 pts ->
  let s' := decided img s clr pts in
  img2 s' = img2 s /\
  img1 s' = foldl (copy_px (img2 s)) (foldl (draw_px clr) (img1 s) pts) pts /\
  (forall p, p ∈ pts -> px (img1 s') p = px (img2 s) p) /\
  (forall q, q ∉ pts -> px (img1 s') q = px (img1 s) q) /\
  stati s' = GoInt.add (stati s) 1 /\
  statc s' = statc s.
Proof.
  intros Hwf Hb0 Hle. cbv zeta. unfold decided. cbv zeta.
  apply Z.ltb_ge in Hle. rewrite Hle. cbn [img1 img2 stati statc].
  destruct (draw_fold_bounds clr pts (img1 s)) as [Hb1 Hwf'].
  assert (Hb : same_bounds (foldl (draw_px clr) (img1 s) pts) (img2 s))
    by (eapply same_bounds_trans; eassumption).
  split; [reflexivity |]. split; [reflexivity |].
  split; [| split; [| split; reflexivity]].
  - intros p Hp. rewrite copy_line_px by auto.
    now rewrite bool_decide_eq_true_2.
  - intros q Hq. rewrite copy_line_px by auto.
    rewrite bool_decide_eq_false_2 by assumption.
    now apply draw_line_px_off.
Qed.

Lemma iteration_inv fuel lineLen img palette s d s' :
  iteration fuel lineLen img palette s d = Some s' ->
  exists x1 y1 x2 y2 clr pts,
    propose lineLen img palette d = Some (x1, y1, x2, y2, clr) /\
    visited fuel x1 y1 x2 y2 = Some pts /\
    s' = decided img s clr pts.
Proof.
  rewrite iteration_unfold.
  destruct (propose lineLen img palette d) as [[[[[x1 y1] x2] y2] clr]|];
    [| discriminate].
  destruct (visited fuel x1 y1 x2 y2) as [pts|] eqn:Hv; [| discriminate].
  intros [= <-]. exists x1, y1, x2, y2, clr, pts. auto.
Qed.

Lemma decided_agree img s clr pts :
  image.wf (img1 s) -> img1 s = img2 s ->
  let s' := decided img s clr pts in
  img1 s' = img2 s' /\ image.wf (img1 s').
Proof.
  intros Hwf He. cbv zeta.
  assert (Hwf2 : image.wf (img2 s)) by now rewrite <- He.
  assert (Hb : same_bounds (img1 s) (img2 s))
    by (rewrite He; apply same_bounds_refl).
  destruct (draw_fold_bounds clr pts (img1 s)) as [Hbd Hwa].
  specialize (Hwa Hwf).
  destruct (Z.lt_ge_cases
              (foldl (diff_px img (foldl (draw_px clr) (img1 s) pts)) 0 pts)
              (foldl (diff_px img (img2 s)) 0 pts)) as [Hlt | Hge].
  - destruct (decided_accept img s clr pts Hwf2 Hb Hlt)
      as (E1 & E2 & Hon & Hoff & _).
    cbv zeta in *. rewrite E1 in *. split; [| exact Hwa].
    destruct (copy_fold_bounds (foldl (draw_px clr) (img1 s) pts) pts (img2 s))
      as [Hbc Hwc].
    symmetry. apply image_ext.
    + rewrite E2. now apply Hwc.
    + exact Hwa.
    + rewrite E2. eapply same_bounds_trans; [exact Hbc |].
      apply same_bounds_sym. eapply same_bounds_trans; eassumption.
    + intros x y. change (px (img2 (decided img s clr pts)) (x, y)
                          = px (foldl (draw_px clr) (img1 s) pts) (x, y)).
      destruct (decide ((x, y) ∈ pts)) as [Hin | Hout].
      * now apply Hon.
      * rewrite Hoff by assumption. rewrite draw_line_px_off by assumption.
        now rewrite He.
  - destruct (decided_reject img s clr pts Hwf Hb Hge)
      as (E1 & E2 & Hon & Hoff & _).
    cbv zeta in *. rewrite E1.
    destruct (copy_fold_bounds (img2 s) pts (foldl (draw_px clr) (img1 s) pts))
      as [Hbc Hwc].
    assert (Hw' : image.wf (img1 (decided img s clr pts)))
      by (rewrite E2; now apply Hwc).
    split; [| exact Hw']. apply image_ext.
    + exact Hw'.
    + exact Hwf2.
    + rewrite E2. eapply same_bounds_trans; [exact Hbc |].
      eapply same_bounds_trans; eassumption.
    + intros x y. change (px (img1 (decided img s clr pts)) (x, y)
                          = px (img2 s) (x, y)).
      destruct (decide ((x, y) ∈ pts)) as [Hin | Hout].
      * now apply Hon.
      * rewrite Hoff by assumption. now rewrite He.
Qed.

Lemma init_canvases_wf img :
  0 <= image.Dx img -> 0 <= image.Dy img ->
  image.wf (img1 (init_canvases img)).
Proof.
  intros Hw Hh.
  unfold init_canvases, image.wf, image.fill, image.NewLike, image.NewRGBA. cbn.
  rewrite length_fmap, length_replicate.
  assert (0 <= image.Dx img * image.Dy img) by (apply Z.mul_nonneg_nonneg; lia).
  lia.
Qed.

Lemma init_canvases_black img x y :
  0 <= image.Dx img -> 0 <= image.Dy img ->
  image.inside img x y = true ->
  image.RGBAAt (img1 (init_canvases img)) x y = bg /\
  image.RGBAAt (img2 (init_canvases img)) x y = bg.
Proof.
  intros Hw Hh Hi.
  assert (E : image.RGBAAt (img1 (init_canvases img)) x y = bg); [| now split].
  pose proof (init_canvases_wf img Hw Hh) as Hwf.
  assert (Hi' : image.inside (img1 (init_canvases img)) x y = true) by exact Hi.
  pose proof (inside_offset _ x y Hwf Hi') as Hlt.
  unfold image.RGBAAt. rewrite Hi'.
  destruct (lookup_lt_is_Some_2 _ _ Hlt) as [c Hc]. rewrite Hc. cbn.
  unfold init_canvases, image.fill in Hc. cbn [img1 image.Pix] in Hc.
  rewrite list_lookup_fmap in Hc.
  destruct (image.Pix (image.NewLike img) !! _); cbn in Hc; congruence.
Qed.

(** ** The convergence engine (C1, C2, C10) *)

(** C1: in every iteration that completes, with the proposed line drawn on
    canvas A ([a]) and the two scores taken along the line, if the score of
    A is strictly below that of B the pixels of the line are copied from A
    into B (B is unchanged elsewhere) and the convergence counter is
    incremented; otherwise, ties included, the pixels of the line are
    copied from B back into A, B is left as it was and the counter keeps
    its value.  For images and line lengths up to 2^59, the iteration
    completes. *)
Theorem C1_accept_or_copy_back lineLen img palette s d :
  image.wf (img1 s) -> image.wf (img2 s) -> same_bounds (img1 s) (img2 s) ->
  (forall fuel s', iteration fuel lineLen img palette s d = Some s' ->
     exists x1 y1 x2 y2 clr pts a diffA diffB,
       propose lineLen img palette d = Some (x1, y1, x2, y2, clr) /\
       visited fuel x1 y1 x2 y2 = Some pts /\
       line fuel (img1 s) x1 y1 x2 y2 clr = Some a /\
       bdiff fuel img a x1 y1 x2 y2 = Some diffA /\
       bdiff fuel img (img2 s) x1 y1 x2 y2 = Some diffB /\
       (diffA < diffB ->
          img1 s' = a /\
          bcopy fuel (img2 s) a x1 y1 x2 y2 = Some (img2 s') /\
          (forall p, p ∈ pts -> px (img2 s') p = px a p) /\
          (forall q, q ∉ pts -> px (img2 s') q = px (img2 s) q) /\
          statc s' = GoInt.add (statc s) 1) /\
       (diffB <= diffA ->
          img2 s' = img2 s /\
          bcopy fuel a (img2 s) x1 y1 x2 y2 = Some (img1 s') /\
          (forall p, p ∈ pts -> px (img1 s') p = px (img2 s) p) /\
          statc s' = statc s)) /\
  (0 < image.Dx img <= 2 ^ 59 -> 0 < image.Dy img <= 2 ^ 59 ->
   0 < lineLen <= 2 ^ 59 -> palette <> [] ->
   exists s', iteration (S (Z.to_nat lineLen)) lineLen img palette s d = Some s').
Proof.
  intros Hwf1 Hwf2 Hb. split; [| apply iteration_total].
  intros fuel s' H.
  destruct (iteration_inv _ _ _ _ _ _ _ H)
    as (x1 & y1 & x2 & y2 & clr & pts & Hp & Hv & ->).
  exists x1, y1, x2, y2, clr, pts, (foldl (draw_px clr) (img1 s) pts),
    (foldl (diff_px img (foldl (draw_px clr) (img1 s) pts)) 0 pts),
    (foldl (diff_px img (img2 s)) 0 pts).
  split; [exact Hp |]. split; [exact Hv |].
  split; [now rewrite line_visited, Hv |].
  split; [now rewrite bdiff_visited, Hv |].
  split; [now rewrite bdiff_visited, Hv |].
  split.
  - intros Hlt.
    destruct (decided_accept img s clr pts Hwf2 Hb Hlt)
      as (E1 & E2 & Hon & Hoff & _ & Hc).
    cbv zeta in *. split; [exact E1 |]. rewrite <- E1.
    split; [rewrite bcopy_visited, Hv; cbn; now rewrite <- E2 |].
    split; [exact Hon |]. split; [exact Hoff | exact Hc].
  - intros Hge.
    destruct (decided_reject img s clr pts Hwf1 Hb Hge)
      as (E1 & E2 & Hon & _ & _ & Hc).
    cbv zeta in *. split; [exact E1 |].
    split; [rewrite bcopy_visited, Hv; cbn; now rewrite <- E2 |].
    split; [exact Hon | exact Hc].
Qed.

(** C2: in every iteration that completes, from any pair of canvases of
    equal bounds, the score of canvas B against the source along the line of
    that iteration is, after the copy step, at most what it was before the
    iteration.  For images and line lengths up to 2^59, the iteration
    completes. *)
Theorem C2_line_score_of_B_not_worse lineLen img palette s d :
  image.wf (img1 s) -> image.wf (img2 s) -> same_bounds (img1 s) (img2 s) ->
  (forall fuel s', iteration fuel lineLen img palette s d = Some s' ->
     exists x1 y1 x2 y2 clr before after,
       propose lineLen img palette d = Some (x1, y1, x2, y2, clr) /\
       bdiff fuel img (img2 s) x1 y1 x2 y2 = Some before /\
       bdiff fuel img (img2 s') x1 y1 x2 y2 = Some after /\
       after <= before) /\
  (0 < image.Dx img <= 2 ^ 59 -> 0 < image.Dy img <= 2 ^ 59 ->
   0 < lineLen <= 2 ^ 59 -> palette <> [] ->
   exists s', iteration (S (Z.to_nat lineLen)) lineLen img palette s d = Some s').
Proof.
  intros Hwf1 Hwf2 Hb. split; [| apply iteration_total].
  intros fuel s' H.
  destruct (iteration_inv _ _ _ _ _ _ _ H)
    as (x1 & y1 & x2 & y2 & clr & pts & Hp & Hv & ->).
  exists x1, y1, x2, y2, clr, (foldl (diff_px img (img2 s)) 0 pts),
    (foldl (diff_px img (img2 (decided img s clr pts))) 0 pts).
  split; [exact Hp |].
  split; [now rewrite bdiff_visited, Hv |].
  split; [now rewrite bdiff_visited, Hv |].
  destruct (Z.lt_ge_cases
              (foldl (diff_px img (foldl (draw_px clr) (img1 s) pts)) 0 pts)
              (foldl (diff_px img (img2 s)) 0 pts)) as [Hlt | Hge].
  - destruct (decided_accept img s clr pts Hwf2 Hb Hlt) as (E1 & _ & Hon & _).
    cbv zeta in *.
    rewrite (diff_fold_ext img _ (img1 (decided img s clr pts)) pts 0 Hon).
    rewrite E1. lia.
  - destruct (decided_reject img s clr pts Hwf1 Hb Hge) as (E1 & _).
    cbv zeta in *. rewrite E1. lia.
Qed.

(** C10: both canvases start as the same opaque-black image; an iteration
    that starts from equal canvases ends with equal canvases, having changed
    no pixel off the proposed line; hence after any number of iterations
    from the start the two canvases are identical.  For images and line
    lengths up to 2^59, every such run completes. *)
Theorem C10_canvases_agree lineLen img palette :
  0 <= image.Dx img -> 0 <= image.Dy img ->
  (img1 (init_canvases img) = img2 (init_canvases img) /\
   forall x y, image.inside img x y = true ->
     image.RGBAAt (img1 (init_canvases img)) x y = bg /\
     image.RGBAAt (img2 (init_canvases img)) x y = bg) /\
  (forall fuel s d s',
     image.wf (img1 s) -> img1 s = img2 s ->
     iteration fuel lineLen img palette s d = Some s' ->
     img1 s' = img2 s' /\ image.wf (img1 s') /\
     exists x1 y1 x2 y2 clr pts,
       propose lineLen img palette d = Some (x1, y1, x2, y2, clr) /\
       visited fuel x1 y1 x2 y2 = Some pts /\
       forall q, q ∉ pts -> px (img1 s') q = px (img1 s) q) /\
  (forall fuel ds s',
     iterations fuel lineLen img palette (init_canvases img) ds = Some s' ->
     img1 s' = img2 s') /\
  (0 < image.Dx img <= 2 ^ 59 -> 0 < image.Dy img <= 2 ^ 59 ->
   0 < lineLen <= 2 ^ 59 -> palette <> [] ->
   forall ds, exists s',
     iterations (S (Z.to_nat lineLen)) lineLen img palette (init_canvases img) ds
     = Some s').
Proof.
  intros Hw Hh.
  assert (Hstep : forall fuel s d s',
            image.wf (img1 s) -> img1 s = img2 s ->
            iteration fuel lineLen img palette s d = Some s' ->
            img1 s' = img2 s' /\ image.wf (img1 s') /\
            exists x1 y1 x2 y2 clr pts,
              propose lineLen img palette d = Some (x1, y1, x2, y2, clr) /\
              visited fuel x1 y1 x2 y2 = Some pts /\
              forall q, q ∉ pts -> px (img1 s') q = px (img1 s) q).
  { intros fuel s d s' Hwf He H.
    destruct (iteration_inv _ _ _ _ _ _ _ H)
      as (x1 & y1 & x2 & y2 & clr & pts & Hp & Hv & ->).
    destruct (decided_agree img s clr pts Hwf He) as [Ha Hwf'].
    cbv zeta in *. split; [exact Ha |]. split; [exact Hwf' |].
    exists x1, y1, x2, y2, clr, pts. split; [exact Hp |]. split; [exact Hv |].
    intros q Hq.
    assert (Hb : same_bounds (img1 s) (img2 s))
      by (rewrite He; apply same_bounds_refl).
    destruct (Z.lt_ge_cases
                (foldl (diff_px img (foldl (draw_px clr) (img1 s) pts)) 0 pts)
                (foldl (diff_px img (img2 s)) 0 pts)) as [Hlt | Hge].
    - destruct (decided_accept img s clr pts ltac:(now rewrite <- He) Hb Hlt)
        as (E1 & _).
      cbv zeta in *. rewrite E1. now apply draw_line_px_off.
    - destruct (decided_reject img s clr pts Hwf Hb Hge) as (_ & _ & _ & Hoff & _).
      cbv zeta in *. now apply Hoff. }
  split; [| split; [exact Hstep | split]].
  - split; [reflexivity |]. intros x y. now apply init_canvases_black.
  - intros fuel ds.
    assert (G : forall s s', image.wf (img1 s) -> img1 s = img2 s ->
              iterations fuel lineLen img palette s ds = Some s' ->
              img1 s' = img2 s').
    { induction ds as [|d ds IH]; intros s s' Hwf He H.
      - cbn in H. congruence.
      - cbn [iterations] in H.
        destruct (iteration fuel lineLen img palette s d) as [s1|] eqn:E;
          [| discriminate].
        cbn [mbind option_bind] in H.
        destruct (Hstep _ _ _ _ Hwf He E) as (He1 & Hwf1 & _).
        now apply (IH s1). }
    intros s'. apply G; [now apply init_canvases_wf | reflexivity].
  - intros Bw Bh Bl Hp ds. generalize (init_canvases img).
    induction ds as [|d ds IH]; intros s; [now exists s |].
    cbn [iterations].
    destruct (iteration_total lineLen img palette s d Bw Bh Bl Hp) as [s1 E].
    rewrite E. cbn [mbind option_bind]. apply IH.
Qed.

(** ** The scorer (C7) *)

Lemma rnd_exact z : Z.abs z < 2 ^ 53 -> F64.rnd z = z.
Proof.
  intros H. unfold F64.rnd. destruct (Z.ltb_spec (Z.abs z) (2 ^ 53)); [reflexivity | lia].
Qed.

Lemma of_uint8_range b : 0 <= F64.of_uint8 b <= 255.
Proof. unfold F64.of_uint8. pose proof (Byte.to_N_bounded b). lia. Qed.

Lemma square_bound t : -255 <= t <= 255 -> 0 <= t * t <= 65025.
Proof. intros H. nia. Qed.

Lemma sqdist_range p q : 0 <= sqdist p q <= 260100.
Proof.
  unfold sqdist. rewrite !Z.pow_2_r.
  pose proof (of_uint8_range (color.R p)). pose proof (of_uint8_range (color.R q)).
  pose proof (of_uint8_range (color.G p)). pose proof (of_uint8_range (color.G q)).
  pose proof (of_uint8_range (color.B p)). pose proof (of_uint8_range (color.B q)).
  pose proof (of_uint8_range (color.A p)). pose proof (of_uint8_range (color.A q)).
  pose proof (square_bound (F64.of_uint8 (color.R q) - F64.of_uint8 (color.R p)) ltac:(lia)).
  pose proof (square_bound (F64.of_uint8 (color.G q) - F64.of_uint8 (color.G p)) ltac:(lia)).
  pose proof (square_bound (F64.of_uint8 (color.B q) - F64.of_uint8 (color.B p)) ltac:(lia)).
  pose proof (square_bound (F64.of_uint8 (color.A q) - F64.of_uint8 (color.A p)) ltac:(lia)).
  lia.
Qed.

Lemma calcDiff_sqdist a b x y :
  calcDiff a b x y = sqdist (image.RGBAAt a x y) (image.RGBAAt b x y).
Proof.
  unfold calcDiff, sqdist. cbv zeta. rewrite !Z.pow_2_r.
  generalize (image.RGBAAt a x y) (image.RGBAAt b x y). intros p q.
  pose proof (of_uint8_range (color.R p)). pose proof (of_uint8_range (color.R q)).
  pose proof (of_uint8_range (color.G p)). pose proof (of_uint8_range (color.G q)).
  pose proof (of_uint8_range (color.B p)). pose proof (of_uint8_range (color.B q)).
  pose proof (of_uint8_range (color.A p)). pose proof (of_uint8_range (color.A q)).
  generalize dependent (F64.of_uint8 (color.R p)). intros r0.
  generalize dependent (F64.of_uint8 (color.R q)). intros r1.
  generalize dependent (F64.of_uint8 (color.G p)). intros g0.
  generalize dependent (F64.of_uint8 (color.G q)). intros g1.
  generalize dependent (F64.of_uint8 (color.B p)). intros b0.
  generalize dependent (F64.of_uint8 (color.B q)). intros b1.
  generalize dependent (F64.of_uint8 (color.A p)). intros a0.
  generalize dependent (F64.of_uint8 (color.A q)). intros a1.
  intros.
  pose proof (square_bound (r1 - r0) ltac:(lia)).
  pose proof (square_bound (g1 - g0) ltac:(lia)).
  pose proof (square_bound (b1 - b0) ltac:(lia)).
  pose proof (square_bound (a1 - a0) ltac:(lia)).
  unfold F64.add, F64.mul, F64.sub.
  rewrite (rnd_exact (r1 - r0)), (rnd_exact (g1 - g0)),
          (rnd_exact (b1 - b0)), (rnd_exact (a1 - a0)) by lia.
  rewrite (rnd_exact ((r1 - r0) * (r1 - r0))), (rnd_exact ((g1 - g0) * (g1 - g0))),
          (rnd_exact ((b1 - b0) * (b1 - b0))), (rnd_exact ((a1 - a0) * (a1 - a0)))
    by lia.
  rewrite (rnd_exact ((r1 - r0) * (r1 - r0) + (g1 - g0) * (g1 - g0))) by lia.
  rewrite (rnd_exact ((r1 - r0) * (r1 - r0) + (g1 - g0) * (g1 - g0)
                      + (b1 - b0) * (b1 - b0))) by lia.
  rewrite rnd_exact by lia. reflexivity.
Qed.

Lemma diff_fold_exact a b pts : forall acc,
  0 <= acc -> acc + Z.of_nat (length pts) * 260100 < 2 ^ 53 ->
  foldl (diff_px a b) acc pts
  = acc + Zsum ((fun p => sqdist (px a p) (px b p)) <$> pts).
Proof.
  induction pts as [|p pts IH]; intros acc Hacc Hb.
  - change (acc = acc + 0). lia.
  - change (foldl (diff_px a b) (diff_px a b acc p) pts
            = acc + (sqdist (px a p) (px b p)
                     + Zsum ((fun p => sqdist (px a p) (px b p)) <$> pts))).
    pose proof (sqdist_range (px a p) (px b p)) as Hr.
    assert (E : diff_px a b acc p = acc + sqdist (px a p) (px b p)).
    { unfold diff_px. rewrite calcDiff_sqdist. unfold F64.add.
      apply rnd_exact. cbn [length] in Hb. lia. }
    rewrite E. rewrite IH; [lia | lia |]. cbn [length] in Hb. lia.
Qed.

(** C7: the per-pixel distance is the sum over the channels R, G, B, A of
    the squared difference of the two channel values, taken after the
    conversion to [float64] (so without 8-bit wrap-around); and [bdiff]
    returns the [float64] sum of that distance over exactly the pixels the
    traversal of the segment visits, in visiting order, which is the exact
    sum as long as it stays below 2^53.  Between endpoints of magnitude at
    most 2^60, [bdiff] returns. *)
Theorem C7_scorer_sums_squared_distance a b :
  (forall x y,
     calcDiff a b x y = sqdist (image.RGBAAt a x y) (image.RGBAAt b x y)) /\
  (forall fuel x0 y0 x1 y1 dif,
     bdiff fuel a b x0 y0 x1 y1 = Some dif ->
     exists pts,
       visited fuel x0 y0 x1 y1 = Some pts /\
       dif = foldl (fun acc p => F64.add acc (calcDiff a b p.1 p.2)) 0 pts /\
       (Z.of_nat (length pts) * 260100 < 2 ^ 53 ->
        dif = Zsum ((fun p => sqdist (px a p) (px b p)) <$> pts))) /\
  (forall x0 y0 x1 y1,
     small x0 -> small y0 -> small x1 -> small y1 ->
     exists dif, bdiff (S (steps x0 y0 x1 y1)) a b x0 y0 x1 y1 = Some dif).
Proof.
  split; [apply calcDiff_sqdist |]. split.
  - intros fuel x0 y0 x1 y1 dif H. rewrite bdiff_visited in H.
    destruct (visited fuel x0 y0 x1 y1) as [pts|]; [| discriminate].
    injection H as <-. exists pts. split; [reflexivity |]. split; [reflexivity |].
    intros Hb. rewrite diff_fold_exact; lia.
  - intros x0 y0 x1 y1 Hx0 Hy0 Hx1 Hy1.
    destruct (visited_spec x0 y0 x1 y1 Hx0 Hy0 Hx1 Hy1) as (pts & Hv & _).
    rewrite bdiff_visited, Hv. eexists. reflexivity.
Qed.

(** ** The palette (C8) *)

Lemma foldl_rows {S0} (g : Z -> Z -> S0 -> S0) (xs : list Z) (ys : list Z) :
  forall st,
    foldl (fun st y => foldl (fun st x => g x y st) st xs) st ys
    = foldl (fun st p => g p.1 p.2 st) st
            (concat ((fun y => (fun x => (x, y)) <$> xs) <$> ys)).
Proof.
  induction ys as [|y ys IH]; intros st; [reflexivity |].
  cbn [foldl fmap list_fmap concat]. rewrite foldl_app, IH. f_equal.
  clear IH. revert st. induction xs as [|x xs IHx]; intros st; [reflexivity |].
  cbn [foldl fmap list_fmap]. apply IHx.
Qed.

Lemma build_palette_raster palUniq img :
  build_palette palUniq img
  = fst (foldl (fun st p => palette_step palUniq img p.1 p.2 st) ([], ∅)
               (raster (image.Dx img) (image.Dy img))).
Proof.
  unfold build_palette, raster. cbv zeta. f_equal.
  apply (foldl_rows (palette_step palUniq img)).
Qed.

Lemma palette_all_fold img cs : forall pal (u : gmap color.RGBA bool),
  foldl (fun st p => palette_step false img p.1 p.2 st) (pal, u) cs
  = (pal ++ (px img <$> cs), u).
Proof.
  induction cs as [|p cs IH]; intros pal u.
  - cbn. now rewrite app_nil_r.
  - cbn [foldl palette_step]. rewrite IH. cbn [fmap list_fmap].
    now rewrite <- app_assoc.
Qed.

Lemma palette_uniq_fold img cs : forall pal (u : gmap color.RGBA bool),
  NoDup pal -> (forall c, is_Some (u !! c) <-> c ∈ pal) ->
  exists pal' u' ext,
    foldl (fun st p => palette_step true img p.1 p.2 st) (pal, u) cs = (pal', u') /\
    NoDup pal' /\
    (forall c, is_Some (u' !! c) <-> c ∈ pal') /\
    pal' = pal ++ ext /\ ext `sublist_of` (px img <$> cs) /\
    (forall c, c ∈ pal' <-> c ∈ pal \/ c ∈ (px img <$> cs)).
Proof.
  induction cs as [|p cs IH]; intros pal u Hnd Hu.
  - exists pal, u, []. cbn. rewrite app_nil_r.
    repeat split; try assumption; try apply Hu; try constructor.
    + auto.
    + intros [H | H]; [exact H | now apply elem_of_nil in H].
  - cbn [foldl palette_step]. fold (px img p).
    destruct (u !! px img p) as [v|] eqn:Hl.
    + destruct (IH pal u Hnd Hu) as (pal' & u' & ext & Hf & Hnd' & Hu' & Hp & Hs & He).
      exists pal', u', ext. split; [exact Hf |]. split; [exact Hnd' |].
      split; [exact Hu' |]. split; [exact Hp |].
      split; [cbn [fmap list_fmap]; now apply sublist_cons |].
      intros c. rewrite He. cbn [fmap list_fmap]. rewrite elem_of_cons.
      assert (Hin : px img p ∈ pal) by (apply Hu; eauto).
      split; [tauto |]. intros [H | [-> | H]]; auto.
    + assert (Hnin : px img p ∉ pal).
      { intros H. apply Hu in H as [v Hv]. congruence. }
      destruct (IH (pal ++ [px img p]) (<[px img p := true]> u))
        as (pal' & u' & ext & Hf & Hnd' & Hu' & Hp & Hs & He).
      { apply NoDup_app. split; [exact Hnd |]. split; [| apply NoDup_singleton].
        intros c Hc Hc'. apply list_elem_of_singleton in Hc'. now subst c. }
      { intros c. rewrite elem_of_app, list_elem_of_singleton.
        destruct (decide (c = px img p)) as [-> | Hne].
        - rewrite lookup_insert_eq. split; [auto | eauto].
        - rewrite lookup_insert_ne by congruence. rewrite Hu. tauto. }
      exists pal', u', (px img p :: ext). split; [exact Hf |].
      split; [exact Hnd' |]. split; [exact Hu' |].
      split; [now rewrite Hp, <- app_assoc |].
      split; [cbn [fmap list_fmap]; now apply sublist_skip |].
      intros c. rewrite He. cbn [fmap list_fmap].
      rewrite elem_of_app, list_elem_of_singleton, elem_of_cons. tauto.
Qed.

Lemma palette_uniq_first_seen img cs : forall pal (u : gmap color.RGBA bool),
  (forall c, is_Some (u !! c) <-> c ∈ pal) ->
  fst (foldl (fun st p => palette_step true img p.1 p.2 st) (pal, u) cs)
  = pal ++ first_seen pal (px img <$> cs).
Proof.
  induction cs as [|p cs IH]; intros pal u Hu.
  - cbn. now rewrite app_nil_r.
  - cbn [foldl palette_step fmap list_fmap first_seen]. fold (px img p).
    destruct (u !! px img p) as [v|] eqn:Hl.
    + rewrite decide_True by (apply Hu; eauto). now apply IH.
    + rewrite decide_False by (intros H; apply Hu in H as [v Hv]; congruence).
      rewrite IH; [now rewrite <- app_assoc |].
      intros c. rewrite elem_of_app, list_elem_of_singleton.
      destruct (decide (c = px img p)) as [-> | Hne].
      * rewrite lookup_insert_eq. split; [auto | eauto].
      * rewrite lookup_insert_ne by congruence. rewrite Hu. tauto.
Qed.

Lemma raster_S w (n : nat) :
  raster w (Z.of_nat (S n))
  = raster w (Z.of_nat n) ++ ((fun x => (x, Z.of_nat n)) <$> seqZ 0 w).
Proof.
  unfold raster. rewrite seqZ_S, fmap_app, concat_app. cbn.
  now rewrite app_nil_r.
Qed.

Lemma row_offsets w c :
  0 <= c -> (fun x => Z.to_nat (c + x)) <$> seqZ 0 w = seq (Z.to_nat c) (Z.to_nat w).
Proof.
  intros Hc. apply list_eq. intros i. rewrite list_lookup_fmap.
  destruct (Z.lt_ge_cases (Z.of_nat i) w) as [L | L].
  - rewrite lookup_seqZ_lt by lia. rewrite lookup_seq_lt by lia. cbn. f_equal. lia.
  - rewrite lookup_seqZ_ge by lia. rewrite lookup_seq_ge by lia. reflexivity.
Qed.

Lemma raster_offsets w (n : nat) :
  0 <= w ->
  (fun p : Z * Z => Z.to_nat (p.2 * w + p.1)) <$> raster w (Z.of_nat n)
  = seq 0 (n * Z.to_nat w).
Proof.
  intros Hw. induction n as [|n IH]; [reflexivity |].
  rewrite raster_S, fmap_app, IH, <- list_fmap_compose.
  replace (S n * Z.to_nat w)%nat with (n * Z.to_nat w + Z.to_nat w)%nat by lia.
  rewrite seq_app. f_equal. cbn [Nat.add].
  assert (E : (n * Z.to_nat w)%nat = Z.to_nat (Z.of_nat n * w))
    by (rewrite Z2Nat.inj_mul, Nat2Z.id by lia; reflexivity).
  rewrite E, <- row_offsets by (apply Z.mul_nonneg_nonneg; lia). reflexivity.
Qed.

Lemma raster_length w h :
  length (raster w h) = (Z.to_nat h * Z.to_nat w)%nat.
Proof.
  assert (G : forall n : nat,
            length (raster w (Z.of_nat n)) = (n * Z.to_nat w)%nat).
  { induction n as [|n IH]; [reflexivity |].
    rewrite raster_S, length_app, IH, length_fmap, length_seqZ. lia. }
  destruct (Z.le_gt_cases h 0) as [L | L].
  - unfold raster. rewrite (seqZ_nil 0 h) by lia.
    replace (Z.to_nat h) with 0%nat by lia. reflexivity.
  - rewrite <- (G (Z.to_nat h)). f_equal. f_equal. lia.
Qed.

Lemma raster_elem w h x y :
  (x, y) ∈ raster w h <-> 0 <= x < w /\ 0 <= y < h.
Proof.
  unfold raster. rewrite list_elem_of_In, in_concat.
  setoid_rewrite <- list_elem_of_In. split.
  - intros (row & Hrow & Hp). apply list_elem_of_fmap in Hrow as (y' & -> & Hy).
    apply list_elem_of_fmap in Hp as (x' & [= -> ->] & Hx).
    apply elem_of_seqZ in Hx, Hy. lia.
  - intros [Hx Hy]. exists ((fun x => (x, y)) <$> seqZ 0 w). split.
    + apply list_elem_of_fmap. exists y. split; [reflexivity |].
      apply elem_of_seqZ. lia.
    + apply list_elem_of_fmap. exists x. split; [reflexivity |].
      apply elem_of_seqZ. lia.
Qed.

Lemma raster_NoDup w h : NoDup (raster w h).
Proof.
  destruct (Z.le_gt_cases w 0) as [Lw | Lw].
  - assert (E : raster w h = []); [| rewrite E; constructor].
    apply length_zero_iff_nil. rewrite raster_length. lia.
  - destruct (Z.le_gt_cases h 0) as [L | L].
    + unfold raster. rewrite (seqZ_nil 0 h) by lia. constructor.
    + apply (NoDup_fmap_1 (fun p : Z * Z => Z.to_nat (p.2 * w + p.1))).
      replace h with (Z.of_nat (Z.to_nat h)) by lia.
      rewrite raster_offsets by lia. apply NoDup_seq.
Qed.

(* Read in raster order from (0,0), a well-formed image whose bounds start
   there yields its pixel buffer. *)
Lemma raster_pixels img :
  image.wf img -> image.MinX img = 0 -> image.MinY img = 0 ->
  px img <$> raster (image.Dx img) (image.Dy img) = image.Pix img.
Proof.
  intros Hwf Ex Ey. pose proof Hwf as (Hw & Hh & Hl).
  pose proof (raster_length (image.Dx img) (image.Dy img)) as Hlen.
  apply list_eq. intros i. rewrite list_lookup_fmap.
  destruct (Nat.lt_ge_cases i (length (image.Pix img))) as [L | L].
  - destruct (lookup_lt_is_Some_2 (raster (image.Dx img) (image.Dy img)) i)
      as [[x y] Hp]; [nia |].
    rewrite Hp. cbn [fmap option_fmap option_map].
    assert (Hin : (x, y) ∈ raster (image.Dx img) (image.Dy img))
      by (eapply list_elem_of_lookup_2, Hp).
    apply raster_elem in Hin.
    pose proof (raster_offsets (image.Dx img) (Z.to_nat (image.Dy img)) Hw) as Ho.
    rewrite Z2Nat.id in Ho by lia.
    apply (f_equal (fun l => l !! i)) in Ho. rewrite list_lookup_fmap, Hp in Ho.
    cbn [fmap option_fmap option_map fst snd] in Ho.
    rewrite lookup_seq_lt in Ho by nia. injection Ho as Ho.
    unfold px, image.RGBAAt. cbn [fst snd].
    rewrite (proj2 (inside_spec img x y)) by (rewrite Ex, Ey; lia).
    unfold image.PixOffset. rewrite Ex, Ey, !Z.sub_0_r, Ho.
    destruct (lookup_lt_is_Some_2 (image.Pix img) i L) as [c Hc]. now rewrite Hc.
  - rewrite (lookup_ge_None_2 (raster _ _)) by nia.
    rewrite (lookup_ge_None_2 (image.Pix img)) by lia. reflexivity.
Qed.

Lemma scanned_outside img :
  (forall x y, 0 <= x < image.Dx img -> 0 <= y < image.Dy img ->
               image.inside img x y = false) ->
  forall c, c ∈ scanned img -> c = color.zero.
Proof.
  intros Hout c Hc. unfold scanned in Hc.
  apply list_elem_of_fmap in Hc as ([x y] & -> & Hp).
  apply raster_elem in Hp as [Hx Hy].
  apply px_outside. cbn [fst snd]. now apply Hout.
Qed.

(** C8: the palette loop reads the coordinates (x, y) with 0 <= x < width
    and 0 <= y < height, each once, in raster order, whatever the rectangle
    of the image is.  Without deduplication the palette is the sequence of
    colours read, so its length is width times height.  With deduplication
    the palette keeps each colour the first time it is read: it has no
    repetition and the same colours as the sequence read.  For an image
    whose bounds start at (0,0) the coordinates read are exactly the pixels
    of the image and the colours read are its pixel buffer from front to
    back, so that the palette is as the specification has it.  For an image whose
    bounds start elsewhere they are not: when the bounds start to the right
    of or below (0,0), the loop reads a coordinate outside the rectangle,
    which reads as the zero colour, and never reads some pixel of the
    image; when no coordinate read is in the rectangle the palette holds
    the zero colour only, whatever the image holds; on the converted frame
    [offset_frame] the palette is four times the zero colour (once with
    deduplication) and lacks red, a colour of the image. *)
Theorem C8_palette_builder img :
  NoDup (raster (image.Dx img) (image.Dy img)) /\
  (forall x y, (x, y) ∈ raster (image.Dx img) (image.Dy img)
               <-> 0 <= x < image.Dx img /\ 0 <= y < image.Dy img) /\
  build_palette false img = scanned img /\
  length (build_palette false img)
  = (Z.to_nat (image.Dx img) * Z.to_nat (image.Dy img))%nat /\
  build_palette true img = first_seen [] (scanned img) /\
  NoDup (build_palette true img) /\
  (forall c, c ∈ build_palette true img <-> c ∈ scanned img) /\
  length (build_palette true img)
  = size (list_to_set (scanned img) : gset color.RGBA) /\
  (length (build_palette true img) <= size (list_to_set (scanned img) : gset color.RGBA))%nat /\
  (length (build_palette true img) <= length (scanned img))%nat /\
  (image.MinX img = 0 -> image.MinY img = 0 ->
   (forall x y, (x, y) ∈ raster (image.Dx img) (image.Dy img)
                <-> image.inside img x y = true) /\
   (fun p => image.PixOffset img p.1 p.2) <$> raster (image.Dx img) (image.Dy img)
   = seq 0 (length (raster (image.Dx img) (image.Dy img))) /\
   (image.wf img -> scanned img = image.Pix img)) /\
  (0 < image.MinX img \/ 0 < image.MinY img ->
   0 < image.Dx img -> 0 < image.Dy img ->
   (exists x y, (x, y) ∈ raster (image.Dx img) (image.Dy img) /\
                image.inside img x y = false) /\
   (exists x y, image.inside img x y = true /\
                (x, y) ∉ raster (image.Dx img) (image.Dy img))) /\
  ((forall x y, 0 <= x < image.Dx img -> 0 <= y < image.Dy img ->
                image.inside img x y = false) ->
   forall b c, c ∈ build_palette b img -> c = color.zero) /\
  (build_palette false offset_frame
   = [color.zero; color.zero; color.zero; color.zero] /\
   build_palette true offset_frame = [color.zero] /\
   red ∈ image.Pix offset_frame /\ image.wf offset_frame).
Proof.
  split; [apply raster_NoDup |].
  split; [intros x y; apply raster_elem |].
  assert (Hall : build_palette false img = scanned img).
  { rewrite build_palette_raster, palette_all_fold. reflexivity. }
  split; [exact Hall |].
  split. { rewrite Hall. unfold scanned. rewrite length_fmap, raster_length. lia. }
  destruct (palette_uniq_fold img (raster (image.Dx img) (image.Dy img)) [] ∅)
    as (pal & u & ext & Hf & Hnd & _ & Hp & Hs & He).
  { constructor. }
  { intros c. rewrite lookup_empty. split; [intros [? [=]] | intros H].
    now apply elem_of_nil in H. }
  assert (Hu : build_palette true img = pal)
    by (rewrite build_palette_raster, Hf; reflexivity).
  assert (Hel : forall c, c ∈ pal <-> c ∈ scanned img).
  { intros c. rewrite He. unfold scanned. split; [intros [H | H] | auto].
    - now apply elem_of_nil in H.
    - exact H. }
  assert (Hsz : length pal = size (list_to_set (scanned img) : gset color.RGBA)).
  { rewrite <- (size_list_to_set (C := gset color.RGBA) pal Hnd). f_equal.
    apply set_eq. intros c. rewrite !elem_of_list_to_set. apply Hel. }
  split.
  { rewrite build_palette_raster.
    rewrite (palette_uniq_first_seen img _ [] ∅); [reflexivity |].
    intros c. rewrite lookup_empty. split; [intros [? [=]] | intros H].
    now apply elem_of_nil in H. }
  rewrite Hu. split; [exact Hnd |]. split; [exact Hel |].
  split; [exact Hsz |]. split; [lia |].
  split; [cbn in Hp; subst pal; now apply sublist_length |].
  split; [| split; [| split]].
  2: { intros Hoff Hw Hh. split.
       - exists 0, 0. split; [apply raster_elem; lia |].
         destruct (image.inside img 0 0) eqn:Hi; [| reflexivity].
         apply inside_spec in Hi. lia.
       - exists (image.MinX img + image.Dx img - 1),
                (image.MinY img + image.Dy img - 1).
         split; [apply inside_spec; lia |].
         rewrite raster_elem. lia. }
  - intros Ex Ey.
    split; [intros x y; rewrite raster_elem, inside_spec, Ex, Ey; reflexivity |].
    split; [| intros Hwf; now apply raster_pixels].
    rewrite raster_length. unfold image.PixOffset. rewrite Ex, Ey.
    destruct (Z.le_gt_cases (image.Dx img) 0) as [Lw | Lw].
    + assert (E : raster (image.Dx img) (image.Dy img) = []).
      { apply length_zero_iff_nil. rewrite raster_length.
        replace (Z.to_nat (image.Dx img)) with 0%nat by lia. lia. }
      rewrite E. replace (Z.to_nat (image.Dx img)) with 0%nat by lia.
      now rewrite Nat.mul_0_r.
    + destruct (Z.le_gt_cases (image.Dy img) 0) as [Lh | Lh].
      * unfold raster. rewrite (seqZ_nil 0 (image.Dy img)) by lia.
        replace (Z.to_nat (image.Dy img)) with 0%nat by lia. reflexivity.
      * pose proof (raster_offsets (image.Dx img) (Z.to_nat (image.Dy img))
                      ltac:(lia)) as Ho.
        rewrite Z2Nat.id in Ho by lia. rewrite <- Ho.
        apply list_fmap_ext. intros k [x y] _. cbn [fst snd]. f_equal. lia.
  - intros Hout b c Hc. apply (scanned_outside img Hout).
    destruct b; [rewrite Hu in Hc; now apply Hel | now rewrite <- Hall].
  - split; [vm_compute; reflexivity |]. split; [vm_compute; reflexivity |].
    split.
    + unfold offset_frame. cbn [image.Pix].
      do 3 apply list_elem_of_further. apply list_elem_of_here.
    + unfold image.wf, offset_frame. cbn. lia.
Qed.

(** ** Snapshots (C3, C4) *)

Lemma run_exited p es : exited p <> None -> run p es = p.
Proof.
  intros H. unfold run. induction es as [|e es IH]; [reflexivity |].
  cbn [foldl]. unfold step at 2. destruct (exited p); [exact IH | congruence].
Qed.

(** C3: [save] does copy the canvas into [saveScratch] before it returns,
    but the goroutine it starts encodes [img], the live canvas, and not that
    copy: a write of the main loop between [save] and the run of the
    goroutine ends up in the file, while the frozen copy still holds the
    canvas as it was when [save] was called. *)
Theorem C3_save_encodes_live_canvas img name upd :
  let p := run (start img)
               [MainSave name Created Encoded; MainDraw upd; GoRun Created Encoded] in
  files p = [(String.append name ".png", image.Pix (upd img))] /\
  saveScratch p
  = Some (image.mkRGBA
            (go_copy (image.Pix (image.NewLike img)) (image.Pix img))
            (image.MinX img) (image.MinY img) (image.Dx img) (image.Dy img)) /\
  savewait p = None.
Proof. cbv zeta. split; [reflexivity |]. split; reflexivity. Qed.

(* A 1 by 1 black canvas is saved, then painted white, then encoded: the
   file holds the white pixel, the frozen copy the black one. *)
Example save_then_draw :
  let p := run (start (image.fill (image.NewRGBA 0 0 1 1) bg))
               [MainSave "incr001" Created Encoded;
                MainDraw (fun c => image.SetRGBA c 0 0 white);
                GoRun Created Encoded] in
  files p = [("incr001.png"%string, [white])] /\
  (image.Pix <$> saveScratch p) = Some [bg].
Proof. vm_compute. split; reflexivity. Qed.

(** C4, as stated, fails: when [os.Create] fails in the goroutine of a
    snapshot, [log.Fatalln] ends the process; the iteration that would have
    followed does not take place. *)
Lemma C4_create_failure_stops_run :
  let p := run (start (image.fill (image.NewRGBA 0 0 1 1) bg))
               [MainSave "incr001" Created Encoded;
                GoRun (CreateFailed "permission denied") Encoded;
                MainDraw (fun c => image.SetRGBA c 0 0 white)] in
  exited p = Some 1 /\
  logged p = ["permission denied"%string] /\
  image.Pix (canvas p) = [bg].
Proof. vm_compute. repeat split; reflexivity. Qed.

(** C4 (amended): a failure to create the output file is reported through
    the logger and then ends the whole process with status 1: no file is
    written by that save and nothing the main loop would do afterwards takes
    place.  A failure of the encoder is discarded: the process keeps
    running, and the completion notice is logged as for a successful save. *)
Theorem C4_create_failure_is_fatal p j err er :
  (let p' := save_goroutine j (CreateFailed err) er p in
   exited p' = Some 1 /\
   logged p' = logged p ++ [err] /\
   files p' = files p /\
   canvas p' = canvas p /\
   forall es, run p' es = p') /\
  (let p' := save_goroutine j Created EncodeFailed p in
   exited p' = exited p /\
   savewait p' = None /\
   canvas p' = canvas p /\
   logged p'
   = logged p ++ [String.append "wrote " (String.append (job_name j) ".png")]).
Proof.
  cbv zeta. split.
  - repeat (split; [reflexivity |]). intros es. now apply run_exited.
  - repeat (split; [reflexivity |]). reflexivity.
Qed.

(** ** Instances on a 2 by 2 image *)

Lemma sample_wf : image.wf (img1 (init_canvases sample_img)).
Proof. unfold image.wf. repeat split; vm_compute; congruence. Defined.

Lemma sample_bounds :
  same_bounds (img1 (init_canvases sample_img)) (img2 (init_canvases sample_img)).
Proof. repeat split. Defined.

Lemma C1_accept_or_copy_back_witness :
  exists s', iteration 3 2 sample_img [white; bg] (init_canvases sample_img)
                       (Draws 0 0 1 1 0) = Some s'.
Proof.
  apply (proj2 (C1_accept_or_copy_back 2 sample_img [white; bg]
                  (init_canvases sample_img) (Draws 0 0 1 1 0)
                  sample_wf sample_wf sample_bounds));
    [cbn; lia | cbn; lia | lia | discriminate].
Defined.

Lemma C2_line_score_of_B_not_worse_witness :
  exists s', iteration 3 2 sample_img [white; bg] (init_canvases sample_img)
                       (Draws 1 1 0 0 0) = Some s'.
Proof.
  apply (proj2 (C2_line_score_of_B_not_worse 2 sample_img [white; bg]
                  (init_canvases sample_img) (Draws 1 1 0 0 0)
                  sample_wf sample_wf sample_bounds));
    [cbn; lia | cbn; lia | lia | discriminate].
Defined.

Lemma C10_canvases_agree_witness :
  exists s', iterations 3 2 sample_img [white; bg] (init_canvases sample_img)
                        [Draws 0 0 1 1 0; Draws 1 1 0 0 1] = Some s'.
Proof.
  assert (H0 : 0 <= image.Dx sample_img) by (cbn; lia).
  assert (H1 : 0 <= image.Dy sample_img) by (cbn; lia).
  destruct (C10_canvases_agree 2 sample_img [white; bg] H0 H1)
    as (_ & _ & _ & Hrun).
  apply Hrun; [cbn; lia | cbn; lia | lia | discriminate].
Defined.

(** ** Small runs *)

Example visited_shallow :
  visited 6 0 0 5 2 = Some [(0, 0); (1, 0); (2, 1); (3, 1); (4, 2); (5, 2)].
Proof. vm_compute. reflexivity. Qed.

Example visited_steep_leftwards :
  visited 6 0 0 (-2) 5 = Some [(0, 0); (0, 1); (-1, 2); (-1, 3); (-2, 4); (-2, 5)].
Proof. vm_compute. reflexivity. Qed.

Example visited_needs_fuel : visited 5 0 0 5 2 = None.
Proof. vm_compute. reflexivity. Qed.

(* An all-black 4 by 4 source: one palette colour with deduplication,
   sixteen without. *)
Example palette_black_uniq :
  build_palette true (image.fill (image.NewRGBA 0 0 4 4) bg) = [bg].
Proof. vm_compute. reflexivity. Qed.

Example palette_black_all :
  length (build_palette false (image.fill (image.NewRGBA 0 0 4 4) bg)) = 16%nat.
Proof. vm_compute. reflexivity. Qed.

(* Black on black: the scores tie, the line is not counted as converging
   and both canvases stay black. *)
Example tie_is_rejected :
  iteration 3 2 (image.fill (image.NewRGBA 0 0 4 4) bg) [bg]
            (init_canvases (image.fill (image.NewRGBA 0 0 4 4) bg)) (Draws 5 6 1 0 0)
  = Some (Canvases (image.fill (image.NewRGBA 0 0 4 4) bg)
                   (image.fill (image.NewRGBA 0 0 4 4) bg) 1 0).
Proof. vm_compute. reflexivity. Qed.

(* On [sample_img], a white line from (1,1) to (0,0) lowers the score along
   the line from 260100 to 130050 and is accepted. *)
Example white_diagonal_accepted :
  bdiff 3 sample_img (img2 (init_canvases sample_img)) 1 1 0 0 = Some 260100 /\
  (s' ← iteration 3 2 sample_img [white; bg] (init_canvases sample_img)
                  (Draws 1 1 0 0 0);
   Some (image.Pix (img2 s'), statc s', bdiff 3 sample_img (img2 s') 1 1 0 0))
  = Some ([white; bg; bg; white], 1, Some 130050).
Proof. vm_compute. split; reflexivity. Qed.

(** * Further properties of the code *)

(** ** The traversal: bounding box, translation, reversal *)

Lemma inv_unique x0 y0 x1 y1 k c c' :
  cursor_inv x0 y0 x1 y1 k c -> cursor_inv x0 y0 x1 y1 k c' -> pos c = pos c'.
Proof.
  unfold cursor_inv. cbv zeta.
  intros (i & j & Hi & Hj & Ex & Ey & _ & HA & HB)
         (i' & j' & Hi' & Hj' & Ex' & Ey' & _ & HA' & HB').
  assert (HDX : 0 <= Z.abs (x1 - x0)) by lia.
  assert (HDY : 0 <= Z.abs (y1 - y0)) by lia.
  assert (i' = i /\ j' = j) as [-> ->].
  { destruct (Z.le_gt_cases (Z.abs (y1 - y0)) (Z.abs (x1 - x0))) as [L | L].
    - destruct (HA L) as [-> B1]. destruct (HA' L) as [-> B2]. split; [reflexivity |].
      apply (half_open_unique (Z.abs (y1 - y0)) (Z.abs (x1 - x0)) k); assumption.
    - assert (L' : Z.abs (x1 - x0) <= Z.abs (y1 - y0)) by lia.
      destruct (HB L') as [-> B1]. destruct (HB' L') as [-> B2]. split; [| reflexivity].
      apply (half_open_unique (Z.abs (x1 - x0)) (Z.abs (y1 - y0)) k); lia. }
  unfold pos. now rewrite Ex, Ey, Ex', Ey'.
Qed.

(* A sequence whose [m]-th entry is the position of a cursor satisfying the
   invariant at [m] is the visited sequence. *)
Lemma visited_char x0 y0 x1 y1 (pts' : list (Z * Z)) :
  small x0 -> small y0 -> small x1 -> small y1 ->
  0 < Z.max (Z.abs (x1 - x0)) (Z.abs (y1 - y0)) ->
  length pts' = S (steps x0 y0 x1 y1) ->
  (forall m : nat, (m <= steps x0 y0 x1 y1)%nat ->
     exists c, pts' !! m = Some (pos c) /\ cursor_inv x0 y0 x1 y1 (Z.of_nat m) c) ->
  visited (S (steps x0 y0 x1 y1)) x0 y0 x1 y1 = Some pts'.
Proof.
  intros Hx0 Hy0 Hx1 Hy1 HM Hlen' Hpix'.
  destruct (visited_segment x0 y0 x1 y1 Hx0 Hy0 Hx1 Hy1 HM)
    as (pts & Hv & Hlen & _ & _ & _ & Hpix).
  rewrite Hv. f_equal. apply list_eq. intros m.
  destruct (Nat.le_gt_cases m (steps x0 y0 x1 y1)) as [L | L].
  - destruct (Hpix m L) as (c & Hc & Ic). destruct (Hpix' m L) as (c' & Hc' & Ic').
    rewrite Hc, Hc'. f_equal. apply (inv_unique x0 y0 x1 y1 (Z.of_nat m)); assumption.
  - rewrite (lookup_ge_None_2 pts) by lia.
    rewrite (lookup_ge_None_2 pts') by lia. reflexivity.
Qed.

Lemma inv_translate a b x0 y0 x1 y1 k c :
  cursor_inv x0 y0 x1 y1 k c ->
  cursor_inv (x0 + a) (y0 + b) (x1 + a) (y1 + b) k
             (Cursor (cx c + a) (cy c + b) (cerr c)).
Proof.
  unfold cursor_inv. cbv zeta.
  replace (x1 + a - (x0 + a)) with (x1 - x0) by lia.
  replace (y1 + b - (y0 + b)) with (y1 - y0) by lia.
  replace (x0 + a <? x1 + a) with (x0 <? x1)
    by (destruct (Z.ltb_spec x0 x1), (Z.ltb_spec (x0 + a) (x1 + a)); lia).
  replace (y0 + b <? y1 + b) with (y0 <? y1)
    by (destruct (Z.ltb_spec y0 y1), (Z.ltb_spec (y0 + b) (y1 + b)); lia).
  intros (i & j & Hi & Hj & Ex & Ey & Ee & HA & HB). exists i, j.
  cbn [cx cy cerr]. rewrite Ex, Ey.
  split; [exact Hi |]. split; [exact Hj |]. split; [lia |]. split; [lia |].
  split; [exact Ee |]. split; assumption.
Qed.

Lemma inv_reverse x0 y0 x1 y1 k c :
  no_tie x0 y0 x1 y1 ->
  0 <= k <= Z.max (Z.abs (x1 - x0)) (Z.abs (y1 - y0)) ->
  cursor_inv x0 y0 x1 y1 k c ->
  exists c', pos c' = pos c /\
             cursor_inv x1 y1 x0 y0
               (Z.max (Z.abs (x1 - x0)) (Z.abs (y1 - y0)) - k) c'.
Proof.
  intros Hnt Hk. unfold cursor_inv. cbv zeta. unfold no_tie in Hnt.
  replace (Z.abs (x0 - x1)) with (Z.abs (x1 - x0)) by lia.
  replace (Z.abs (y0 - y1)) with (Z.abs (y1 - y0)) by lia.
  intros (i & j & Hi & Hj & Ex & Ey & _ & HA & HB).
  remember (Z.abs (x1 - x0)) as DX eqn:EDX in *.
  remember (Z.abs (y1 - y0)) as DY eqn:EDY in *.
  exists (Cursor (cx c) (cy c) (DX - DY + (DX * (DY - j) - DY * (DX - i)))).
  split; [reflexivity |]. exists (DX - i), (DY - j). cbn [cx cy cerr].
  rewrite Ex, Ey.
  assert (Hodd : Z.odd (Z.max DX DY) = true ->
                 exists q, Z.max DX DY = 2 * q + 1)
    by (intros H; apply Z.odd_spec in H; exact H).
  split; [lia |]. split; [lia |].
  split. { destruct (Z.ltb_spec x0 x1), (Z.ltb_spec x1 x0); lia. }
  split. { destruct (Z.ltb_spec y0 y1), (Z.ltb_spec y1 y0); lia. }
  split; [reflexivity |].
  split.
  - intros L. destruct (HA L) as [-> B]. split; [lia |].
    assert (Hne : 2 * (DX * j - DY * k) <> - DX); [| lia].
    intros E. destruct Hnt as [Ho | [H0 | [H0 | H0]]].
    + destruct (Hodd Ho) as [q Hq]. lia.
    + assert (DX = 0) by lia. lia.
    + assert (DY = 0) by lia. subst DY.
      assert (E' : DX * (2 * j + 1) = 0) by lia.
      apply Z.mul_eq_0 in E'. lia.
    + rewrite <- H0 in E.
      assert (E' : DX * (2 * (j - k) + 1) = 0) by lia.
      apply Z.mul_eq_0 in E'. lia.
  - intros L. destruct (HB L) as [-> B]. split; [lia |].
    assert (Hne : 2 * (DX * k - DY * i) <> DY); [| lia].
    intros E. destruct Hnt as [Ho | [H0 | [H0 | H0]]].
    + destruct (Hodd Ho) as [q Hq]. lia.
    + assert (DX = 0) by lia. subst DX.
      assert (E' : DY * (2 * i + 1) = 0) by lia.
      apply Z.mul_eq_0 in E'. lia.
    + assert (DY = 0) by lia. lia.
    + rewrite H0 in E.
      assert (E' : DY * (2 * (k - i) - 1) = 0) by lia.
      apply Z.mul_eq_0 in E'. lia.
Qed.

Lemma visited_elem_pixel x0 y0 x1 y1 pts p :
  (forall m : nat, (m <= steps x0 y0 x1 y1)%nat ->
     exists q, pts !! m = Some q /\ kth_pixel x0 y0 x1 y1 (Z.of_nat m) q) ->
  length pts = S (steps x0 y0 x1 y1) ->
  p ∈ pts -> exists m : nat, (m <= steps x0 y0 x1 y1)%nat /\
                            kth_pixel x0 y0 x1 y1 (Z.of_nat m) p.
Proof.
  intros Hpix Hlen Hp. apply list_elem_of_lookup in Hp as [m Hm].
  assert (L : (m <= steps x0 y0 x1 y1)%nat) by (apply lookup_lt_Some in Hm; lia).
  destruct (Hpix m L) as (q & Hq & Hk). exists m. split; [exact L |]. congruence.
Qed.

(** X1: between small endpoints the traversal never leaves the bounding box
    of its endpoints; so a segment whose two endpoints lie inside an image
    visits only pixels inside that image. *)
Theorem line_stays_in_box x0 y0 x1 y1 :
  small x0 -> small y0 -> small x1 -> small y1 ->
  exists pts,
    visited (S (steps x0 y0 x1 y1)) x0 y0 x1 y1 = Some pts /\
    (forall p, p ∈ pts -> in_box x0 y0 x1 y1 p) /\
    (forall img,
       image.inside img x0 y0 = true -> image.inside img x1 y1 = true ->
       forall p, p ∈ pts -> image.inside img p.1 p.2 = true).
Proof.
  intros Hx0 Hy0 Hx1 Hy1.
  destruct (visited_spec x0 y0 x1 y1 Hx0 Hy0 Hx1 Hy1)
    as (pts & Hv & Hlen & _ & _ & _ & _ & Hpix).
  assert (Hbox : forall p, p ∈ pts -> in_box x0 y0 x1 y1 p).
  { intros p Hp.
    destruct (visited_elem_pixel _ _ _ _ _ _ Hpix Hlen Hp) as (m & _ & Hk).
    apply Hk. }
  exists pts. split; [exact Hv |]. split; [exact Hbox |].
  intros img H0 H1 p Hp. apply inside_spec in H0, H1. apply inside_spec.
  destruct (Hbox p Hp) as [Bx By]. lia.
Qed.

Lemma line_stays_in_box_witness :
  exists pts, visited 4 0 1 3 0 = Some pts /\
              forall p, p ∈ pts -> image.inside (image.NewRGBA 0 0 4 2) p.1 p.2 = true.
Proof.
  assert (S0 : small 0) by (unfold small; lia).
  assert (S1 : small 1) by (unfold small; lia).
  assert (S3 : small 3) by (unfold small; lia).
  destruct (line_stays_in_box 0 1 3 0 S0 S1 S3 S0) as (pts & Hv & _ & Hin).
  exists pts. split; [exact Hv |]. apply Hin; reflexivity.
Defined.

(** X2: the traversal is translation invariant: moving both endpoints by
    (a, b) moves every visited pixel by (a, b), as long as the endpoints
    stay small. *)
Theorem visited_translate a b x0 y0 x1 y1 :
  small x0 -> small y0 -> small x1 -> small y1 ->
  small (x0 + a) -> small (y0 + b) -> small (x1 + a) -> small (y1 + b) ->
  visited (S (steps x0 y0 x1 y1)) (x0 + a) (y0 + b) (x1 + a) (y1 + b)
  = (fun pts : list (Z * Z) => shift a b <$> pts) <$> visited (S (steps x0 y0 x1 y1)) x0 y0 x1 y1.
Proof.
  intros Hx0 Hy0 Hx1 Hy1 Hx0' Hy0' Hx1' Hy1'.
  assert (Es : steps (x0 + a) (y0 + b) (x1 + a) (y1 + b) = steps x0 y0 x1 y1).
  { unfold steps. f_equal. lia. }
  destruct (Z.eq_dec (Z.max (Z.abs (x1 - x0)) (Z.abs (y1 - y0))) 0) as [HM | HM].
  - destruct (visited_point x0 y0 x1 y1 Hx0 Hy0 Hx1 Hy1 HM) as (Hv & -> & ->).
    assert (HM' : Z.max (Z.abs (x0 + a - (x0 + a))) (Z.abs (y0 + b - (y0 + b))) = 0)
      by lia.
    destruct (visited_point _ _ _ _ Hx0' Hy0' Hx0' Hy0' HM') as (Hv' & _).
    assert (Hs : steps x0 y0 x0 y0 = 0%nat) by (unfold steps; lia).
    rewrite Hs, Hv, Hv'. reflexivity.
  - assert (HM1 : 0 < Z.max (Z.abs (x1 - x0)) (Z.abs (y1 - y0))) by lia.
    destruct (visited_segment x0 y0 x1 y1 Hx0 Hy0 Hx1 Hy1 HM1)
      as (pts & Hv & Hlen & _ & _ & _ & Hpix).
    rewrite Hv. cbn [fmap option_fmap option_map]. rewrite <- Es.
    apply visited_char; try assumption; try lia.
    + rewrite length_fmap, Hlen. now rewrite Es.
    + intros m Hm. rewrite Es in Hm. destruct (Hpix m Hm) as (c & Hc & Ic).
      exists (Cursor (cx c + a) (cy c + b) (cerr c)).
      split; [| now apply inv_translate].
      rewrite list_lookup_fmap, Hc. reflexivity.
Qed.

Lemma visited_translate_witness :
  visited 4 10 (-5) 13 (-4)
  = (fun pts : list (Z * Z) => shift 10 (-5) <$> pts) <$> visited 4 0 0 3 1.
Proof.
  assert (S0 : small 0) by (unfold small; lia).
  assert (S1 : small 1) by (unfold small; lia).
  assert (S3 : small 3) by (unfold small; lia).
  apply (visited_translate 10 (-5) 0 0 3 1 S0 S0 S3 S1); unfold small; lia.
Defined.

(** X3: when no position along the major axis lies exactly midway between
    two pixels (the longer delta is odd, or the segment is horizontal,
    vertical or diagonal), tracing from the second endpoint to the first
    visits the same pixels in the opposite order. *)
Theorem visited_reverse x0 y0 x1 y1 pts :
  small x0 -> small y0 -> small x1 -> small y1 ->
  no_tie x0 y0 x1 y1 ->
  visited (S (steps x0 y0 x1 y1)) x0 y0 x1 y1 = Some pts ->
  visited (S (steps x0 y0 x1 y1)) x1 y1 x0 y0 = Some (reverse pts).
Proof.
  intros Hx0 Hy0 Hx1 Hy1 Hnt Hv.
  destruct (Z.eq_dec (Z.max (Z.abs (x1 - x0)) (Z.abs (y1 - y0))) 0) as [HM | HM].
  - destruct (visited_point x0 y0 x1 y1 Hx0 Hy0 Hx1 Hy1 HM) as (Hv' & -> & ->).
    assert (Hs : steps x0 y0 x0 y0 = 0%nat) by (unfold steps; lia).
    rewrite Hs in *. rewrite Hv' in Hv. injection Hv as <-. exact Hv'.
  - assert (HM1 : 0 < Z.max (Z.abs (x1 - x0)) (Z.abs (y1 - y0))) by lia.
    destruct (visited_segment x0 y0 x1 y1 Hx0 Hy0 Hx1 Hy1 HM1)
      as (pts1 & Hv1 & Hlen & _ & _ & _ & Hpix).
    rewrite Hv in Hv1. injection Hv1 as <-.
    rewrite <- (steps_swap x0 y0 x1 y1).
    apply visited_char; try assumption.
    + lia.
    + rewrite length_reverse, Hlen. now rewrite steps_swap.
    + intros m Hm. rewrite steps_swap in Hm.
      destruct (Hpix (steps x0 y0 x1 y1 - m)%nat ltac:(lia)) as (c & Hc & Ic).
      assert (Hk : 0 <= Z.of_nat (steps x0 y0 x1 y1 - m)
                   <= Z.max (Z.abs (x1 - x0)) (Z.abs (y1 - y0)))
        by (unfold steps; lia).
      destruct (inv_reverse x0 y0 x1 y1 _ c Hnt Hk Ic) as (c' & Hpos & Ic').
      exists c'. split.
      * rewrite reverse_lookup by lia. rewrite Hlen, Hpos, <- Hc. reflexivity.
      * replace (Z.of_nat m)
          with (Z.max (Z.abs (x1 - x0)) (Z.abs (y1 - y0))
                - Z.of_nat (steps x0 y0 x1 y1 - m)) by (unfold steps in *; lia).
        exact Ic'.
Qed.

Lemma visited_reverse_witness :
  exists pts, visited 4 0 0 3 1 = Some pts /\ visited 4 3 1 0 0 = Some (reverse pts).
Proof.
  assert (S0 : small 0) by (unfold small; lia).
  assert (S1 : small 1) by (unfold small; lia).
  assert (S3 : small 3) by (unfold small; lia).
  assert (Hnt : no_tie 0 0 3 1) by (left; reflexivity).
  exists [(0, 0); (1, 0); (2, 1); (3, 1)].
  assert (Hv : visited 4 0 0 3 1 = Some [(0, 0); (1, 0); (2, 1); (3, 1)])
    by (vm_compute; reflexivity).
  split; [exact Hv |].
  exact (visited_reverse 0 0 3 1 _ S0 S0 S3 S1 Hnt Hv).
Defined.

(** ** The scorer: zero, symmetry, pixels off the image *)

Lemma sqdist_sym p q : sqdist p q = sqdist q p.
Proof. unfold sqdist. rewrite !Z.pow_2_r. lia. Qed.

Lemma of_uint8_inj b b' : F64.of_uint8 b = F64.of_uint8 b' -> b = b'.
Proof.
  unfold F64.of_uint8. intros H. apply N2Z.inj in H.
  apply (f_equal Byte.of_N) in H. rewrite !Byte.of_to_N in H. congruence.
Qed.

Lemma square_zero t : 0 <= t * t /\ (t * t = 0 -> t = 0).
Proof. split; [nia | intros H; apply Z.mul_eq_0 in H; lia]. Qed.

Lemma sqdist_zero p q : sqdist p q = 0 <-> p = q.
Proof.
  split; [| intros ->; unfold sqdist; rewrite !Z.sub_diag; reflexivity].
  unfold sqdist. rewrite !Z.pow_2_r. intros H.
  destruct (square_zero (F64.of_uint8 (color.R q) - F64.of_uint8 (color.R p))) as [P1 Z1].
  destruct (square_zero (F64.of_uint8 (color.G q) - F64.of_uint8 (color.G p))) as [P2 Z2].
  destruct (square_zero (F64.of_uint8 (color.B q) - F64.of_uint8 (color.B p))) as [P3 Z3].
  destruct (square_zero (F64.of_uint8 (color.A q) - F64.of_uint8 (color.A p))) as [P4 Z4].
  destruct p as [r g b a], q as [r' g' b' a']. cbn [color.R color.G color.B color.A] in *.
  assert (E1 : F64.of_uint8 r' - F64.of_uint8 r = 0) by (apply Z1; lia).
  assert (E2 : F64.of_uint8 g' - F64.of_uint8 g = 0) by (apply Z2; lia).
  assert (E3 : F64.of_uint8 b' - F64.of_uint8 b = 0) by (apply Z3; lia).
  assert (E4 : F64.of_uint8 a' - F64.of_uint8 a = 0) by (apply Z4; lia).
  f_equal; apply of_uint8_inj; lia.
Qed.

Lemma Zsum_nonneg (f : Z * Z -> Z) l :
  (forall p, p ∈ l -> 0 <= f p) -> 0 <= Zsum (f <$> l).
Proof.
  induction l as [|x l IH]; intros H; [cbn; lia |].
  cbn [fmap list_fmap Zsum foldr]. fold (Zsum (f <$> l)).
  pose proof (H x (list_elem_of_here _ _)).
  specialize (IH (fun p Hp => H p (list_elem_of_further _ _ _ Hp))). lia.
Qed.

Lemma Zsum_zero (f : Z * Z -> Z) l :
  (forall p, p ∈ l -> 0 <= f p) ->
  Zsum (f <$> l) = 0 <-> forall p, p ∈ l -> f p = 0.
Proof.
  induction l as [|x l IH]; intros H.
  - split; [intros _ p Hp; now apply elem_of_nil in Hp | reflexivity].
  - cbn [fmap list_fmap Zsum foldr]. fold (Zsum (f <$> l)).
    pose proof (H x (list_elem_of_here _ _)) as Hx.
    assert (Hl : forall p, p ∈ l -> 0 <= f p)
      by (intros p Hp; apply H; now apply list_elem_of_further).
    pose proof (Zsum_nonneg f l Hl) as Hs. specialize (IH Hl). split.
    + intros E p Hp. apply elem_of_cons in Hp as [-> | Hp]; [lia |].
      apply IH; [lia | exact Hp].
    + intros E. rewrite (E x (list_elem_of_here _ _)).
      rewrite (proj2 IH); [reflexivity |].
      intros p Hp. apply E. now apply list_elem_of_further.
Qed.

Lemma Zsum_ext (f g : Z * Z -> Z) l :
  (forall p, p ∈ l -> f p = g p) -> Zsum (f <$> l) = Zsum (g <$> l).
Proof.
  induction l as [|x l IH]; intros H; [reflexivity |].
  cbn [fmap list_fmap Zsum foldr]. fold (Zsum (f <$> l)) (Zsum (g <$> l)).
  rewrite (H x (list_elem_of_here _ _)), IH; [reflexivity |].
  intros p Hp. apply H. now apply list_elem_of_further.
Qed.

Lemma Zsum_perm (f : Z * Z -> Z) l l' :
  l ≡ₚ l' -> Zsum (f <$> l) = Zsum (f <$> l').
Proof.
  induction 1 as [| x l l' _ IH | x y l | l l' l'' _ IH1 _ IH2].
  - reflexivity.
  - cbn [fmap list_fmap Zsum foldr]. fold (Zsum (f <$> l)) (Zsum (f <$> l')). lia.
  - cbn [fmap list_fmap Zsum foldr]. fold (Zsum (f <$> l)). lia.
  - congruence.
Qed.

Lemma Zsum_split (f : Z * Z -> Z) (P : Z * Z -> Prop) `{!forall p, Decision (P p)} l :
  Zsum (f <$> l)
  = Zsum (f <$> filter P l) + Zsum (f <$> filter (fun p => ~ P p) l).
Proof.
  induction l as [|x l IH]; [reflexivity |].
  rewrite !filter_cons. cbn [fmap list_fmap Zsum foldr]. fold (Zsum (f <$> l)).
  destruct (decide (P x)) as [Hx | Hx].
  - rewrite decide_False by tauto.
    cbn [fmap list_fmap Zsum foldr].
    fold (Zsum (f <$> filter P l)). lia.
  - rewrite decide_True by assumption.
    cbn [fmap list_fmap Zsum foldr].
    fold (Zsum (f <$> filter (fun p => ~ P p) l)). lia.
Qed.

Lemma calcDiff_self a x y : calcDiff a a x y = 0.
Proof. rewrite calcDiff_sqdist. now apply sqdist_zero. Qed.

Lemma diff_fold_self a pts : foldl (diff_px a a) 0 pts = 0.
Proof.
  induction pts as [|p pts IH]; [reflexivity |].
  change (foldl (diff_px a a) (diff_px a a 0 p) pts = 0).
  assert (E : diff_px a a 0 p = 0).
  { unfold diff_px. rewrite calcDiff_self. reflexivity. }
  rewrite E. exact IH.
Qed.

Lemma diff_fold_sym a b pts : forall dif,
  foldl (diff_px a b) dif pts = foldl (diff_px b a) dif pts.
Proof.
  induction pts as [|p pts IH]; intros dif; [change (dif = dif); reflexivity |].
  change (foldl (diff_px a b) (diff_px a b dif p) pts
          = foldl (diff_px b a) (diff_px b a dif p) pts).
  assert (E : diff_px a b dif p = diff_px b a dif p).
  { unfold diff_px. rewrite !calcDiff_sqdist. now rewrite sqdist_sym. }
  rewrite E. apply IH.
Qed.

(** X4: the score of an image against itself along any segment is zero,
    whenever the traversal ends (also for segments that leave the image). *)
Theorem bdiff_self fuel a x0 y0 x1 y1 :
  bdiff fuel a a x0 y0 x1 y1 = (fun _ => 0) <$> visited fuel x0 y0 x1 y1.
Proof.
  rewrite bdiff_visited. destruct (visited fuel x0 y0 x1 y1) as [pts|];
    cbn [fmap option_fmap option_map]; [| reflexivity].
  rewrite diff_fold_self. reflexivity.
Qed.

(** X5: the score is symmetric in its two images: [bdiff a b] and
    [bdiff b a] agree on every segment and for every fuel. *)
Theorem bdiff_sym fuel a b x0 y0 x1 y1 :
  bdiff fuel a b x0 y0 x1 y1 = bdiff fuel b a x0 y0 x1 y1.
Proof.
  rewrite !bdiff_visited. destruct (visited fuel x0 y0 x1 y1) as [pts|];
    cbn [fmap option_fmap option_map]; [| reflexivity].
  rewrite diff_fold_sym. reflexivity.
Qed.

Lemma px_outside_bounds a b p :
  same_bounds a b -> image.inside a p.1 p.2 = false ->
  sqdist (px a p) (px b p) = 0.
Proof.
  intros Hb Hi. rewrite (px_outside a) by assumption.
  rewrite (px_outside b) by (now rewrite <- (inside_same_bounds a b)).
  now apply sqdist_zero.
Qed.

(** X6: along a segment short enough for the sum to be exact, the score is
    non-negative, and it is zero exactly when the two images have the same
    colour at every visited pixel. *)
Theorem bdiff_zero_iff a b x0 y0 x1 y1 :
  small x0 -> small y0 -> small x1 -> small y1 ->
  Z.of_nat (S (steps x0 y0 x1 y1)) * 260100 < 2 ^ 53 ->
  exists pts dif,
    visited (S (steps x0 y0 x1 y1)) x0 y0 x1 y1 = Some pts /\
    bdiff (S (steps x0 y0 x1 y1)) a b x0 y0 x1 y1 = Some dif /\
    0 <= dif /\
    (dif = 0 <-> forall p, p ∈ pts -> px a p = px b p).
Proof.
  intros Hx0 Hy0 Hx1 Hy1 Hex.
  destruct (visited_spec x0 y0 x1 y1 Hx0 Hy0 Hx1 Hy1) as (pts & Hv & Hlen & _).
  exists pts, (Zsum ((fun p => sqdist (px a p) (px b p)) <$> pts)).
  split; [exact Hv |].
  split. { rewrite bdiff_visited, Hv. cbn [fmap option_fmap option_map].
           rewrite diff_fold_exact; [f_equal; lia | lia | rewrite Hlen; lia]. }
  assert (Hnn : forall p, p ∈ pts -> 0 <= sqdist (px a p) (px b p))
    by (intros p _; apply sqdist_range).
  split; [now apply Zsum_nonneg |].
  rewrite (Zsum_zero _ pts Hnn). split; intros H p Hp; apply sqdist_zero, H, Hp.
Qed.

Lemma bdiff_zero_iff_witness :
  exists pts dif, visited 4 0 0 3 1 = Some pts /\
                  bdiff 4 sample_img (image.NewRGBA 0 0 2 2) 0 0 3 1 = Some dif /\
                  0 <= dif.
Proof.
  assert (S0 : small 0) by (unfold small; lia).
  assert (S1 : small 1) by (unfold small; lia).
  assert (S3 : small 3) by (unfold small; lia).
  assert (Hex : Z.of_nat (S (steps 0 0 3 1)) * 260100 < 2 ^ 53)
    by (vm_compute; reflexivity).
  destruct (bdiff_zero_iff sample_img (image.NewRGBA 0 0 2 2) 0 0 3 1 S0 S0 S3 S1 Hex)
    as (pts & dif & Hv & Hd & Hn & _).
  exists pts, dif. split; [exact Hv |]. split; [exact Hd | exact Hn].
Defined.

(** X7: pixels of the segment outside the bounds of the two images add
    nothing to the score: for images of equal bounds and a segment short
    enough for the sum to be exact, [bdiff] is the sum of the squared
    distances over the visited pixels that lie inside the image. *)
Theorem bdiff_counts_inside_only a b x0 y0 x1 y1 :
  same_bounds a b ->
  small x0 -> small y0 -> small x1 -> small y1 ->
  Z.of_nat (S (steps x0 y0 x1 y1)) * 260100 < 2 ^ 53 ->
  exists pts,
    visited (S (steps x0 y0 x1 y1)) x0 y0 x1 y1 = Some pts /\
    bdiff (S (steps x0 y0 x1 y1)) a b x0 y0 x1 y1
    = Some (Zsum ((fun p => sqdist (px a p) (px b p))
                    <$> filter (fun p => image.inside a p.1 p.2 = true) pts)).
Proof.
  intros Hb Hx0 Hy0 Hx1 Hy1 Hex.
  destruct (visited_spec x0 y0 x1 y1 Hx0 Hy0 Hx1 Hy1) as (pts & Hv & Hlen & _).
  exists pts. split; [exact Hv |].
  rewrite bdiff_visited, Hv. cbn [fmap option_fmap option_map].
  rewrite diff_fold_exact; [| lia | rewrite Hlen; lia]. f_equal.
  rewrite (Zsum_split _ (fun p => image.inside a p.1 p.2 = true) pts).
  assert (E : Zsum ((fun p => sqdist (px a p) (px b p))
                      <$> filter (fun p => ~ image.inside a p.1 p.2 = true) pts) = 0).
  { apply Zsum_zero.
    - intros p _. apply sqdist_range.
    - intros p Hp. apply list_elem_of_filter in Hp as [Hp _].
      apply px_outside_bounds; [exact Hb |].
      destruct (image.inside a p.1 p.2); [contradiction | reflexivity]. }
  rewrite E. lia.
Qed.

Lemma bdiff_counts_inside_only_witness :
  exists pts,
    visited 4 0 0 3 1 = Some pts /\
    bdiff 4 sample_img (image.NewRGBA 0 0 2 2) 0 0 3 1
    = Some (Zsum ((fun p => sqdist (px sample_img p) (px (image.NewRGBA 0 0 2 2) p))
                    <$> filter (fun p => image.inside sample_img p.1 p.2 = true) pts)).
Proof.
  assert (S0 : small 0) by (unfold small; lia).
  assert (S1 : small 1) by (unfold small; lia).
  assert (S3 : small 3) by (unfold small; lia).
  assert (Hex : Z.of_nat (S (steps 0 0 3 1)) * 260100 < 2 ^ 53)
    by (vm_compute; reflexivity).
  assert (Hb : same_bounds sample_img (image.NewRGBA 0 0 2 2)) by (repeat split).
  exact (bdiff_counts_inside_only sample_img (image.NewRGBA 0 0 2 2) 0 0 3 1
           Hb S0 S0 S3 S1 Hex).
Defined.

(** ** The engine: the whole-image score of canvas B *)

Lemma pixels_inside b p :
  p ∈ pixels b <-> image.inside b p.1 p.2 = true.
Proof.
  destruct p as [x y]. unfold pixels. rewrite inside_spec, list_elem_of_fmap.
  cbn [fst snd]. split.
  - intros ([u v] & E & H). apply raster_elem in H. unfold shift in E.
    cbn [fst snd] in E. injection E as -> ->. lia.
  - intros H. exists (x - image.MinX b, y - image.MinY b). split.
    + unfold shift. cbn [fst snd]. f_equal; lia.
    + apply raster_elem. lia.
Qed.

Lemma pixels_NoDup b : NoDup (pixels b).
Proof.
  unfold pixels. apply NoDup_fmap_2; [| apply raster_NoDup].
  intros [x y] [x' y']. unfold shift. cbn [fst snd]. intros [= H1 H2].
  f_equal; lia.
Qed.

Lemma pixels_same_bounds a b : same_bounds a b -> pixels a = pixels b.
Proof. intros (E1 & E2 & E3 & E4). unfold pixels. now rewrite E1, E2, E3, E4. Qed.

(* The score along a repetition-free sequence is the part of the total
   score that lies on the sequence. *)
Lemma line_sum_on_raster img b pts :
  same_bounds img b -> NoDup pts ->
  Zsum ((fun p => sqdist (px img p) (px b p)) <$> pts)
  = Zsum ((fun p => sqdist (px img p) (px b p))
            <$> filter (fun p => p ∈ pts) (pixels b)).
Proof.
  intros Hb Hnd.
  rewrite (Zsum_split _ (fun p => image.inside b p.1 p.2 = true) pts).
  assert (E : Zsum ((fun p => sqdist (px img p) (px b p))
                      <$> filter (fun p => ~ image.inside b p.1 p.2 = true) pts) = 0).
  { apply Zsum_zero.
    - intros p _. apply sqdist_range.
    - intros p Hp. apply list_elem_of_filter in Hp as [Hp _].
      apply px_outside_bounds; [exact Hb |].
      rewrite (inside_same_bounds img b) by assumption.
      destruct (image.inside b p.1 p.2); [contradiction | reflexivity]. }
  rewrite E, Z.add_0_r. apply Zsum_perm. apply NoDup_Permutation.
  - now apply NoDup_filter.
  - apply NoDup_filter, pixels_NoDup.
  - intros p. rewrite !list_elem_of_filter, pixels_inside. tauto.
Qed.

Lemma total_score_update img b b' pts :
  same_bounds img b -> same_bounds b' b -> NoDup pts ->
  (forall q, q ∉ pts -> px b' q = px b q) ->
  total_score img b'
  = total_score img b
    - Zsum ((fun p => sqdist (px img p) (px b p)) <$> pts)
    + Zsum ((fun p => sqdist (px img p) (px b' p)) <$> pts).
Proof.
  intros Hb Hb' Hnd Hoff. unfold total_score.
  assert (Hb'' : same_bounds img b') by bounds.
  rewrite (line_sum_on_raster img b pts Hb Hnd).
  rewrite (line_sum_on_raster img b' pts Hb'' Hnd).
  rewrite (pixels_same_bounds b' b Hb').
  rewrite (Zsum_split (fun p => sqdist (px img p) (px b' p)) (fun p => p ∈ pts)).
  rewrite (Zsum_split (fun p => sqdist (px img p) (px b p)) (fun p => p ∈ pts)
             (pixels b)).
  rewrite (Zsum_ext (fun p => sqdist (px img p) (px b' p))
                    (fun p => sqdist (px img p) (px b p))
                    (filter (fun p => ~ p ∈ pts) _)).
  - lia.
  - intros p Hp. apply list_elem_of_filter in Hp as [Hp _]. now rewrite Hoff.
Qed.

Lemma decided_bounds img s clr pts :
  image.wf (img1 s) -> image.wf (img2 s) -> same_bounds (img1 s) (img2 s) ->
  let s' := decided img s clr pts in
  image.wf (img1 s') /\ image.wf (img2 s') /\
  same_bounds (img1 s') (img1 s) /\ same_bounds (img2 s') (img2 s).
Proof.
  intros Hwf1 Hwf2 Hb0. cbv zeta. unfold decided. cbv zeta.
  destruct (draw_fold_bounds clr pts (img1 s)) as [Hbd Hwa].
  specialize (Hwa Hwf1).
  destruct (_ <? _); cbn [img1 img2].
  - destruct (copy_fold_bounds (foldl (draw_px clr) (img1 s) pts) pts (img2 s))
      as [Hb Hw].
    split; [exact Hwa |]. split; [now apply Hw |]. split; [exact Hbd | exact Hb].
  - destruct (copy_fold_bounds (img2 s) pts (foldl (draw_px clr) (img1 s) pts))
      as [Hbc Hw].
    split; [now apply Hw |]. split; [exact Hwf2 |].
    split; [eapply same_bounds_trans; eassumption | apply same_bounds_refl].
Qed.

(* The total score of B drops by the score difference along the line when
   the line is accepted and is unchanged otherwise. *)
Lemma decided_total_score img s clr pts :
  image.wf (img1 s) -> image.wf (img2 s) -> same_bounds (img1 s) (img2 s) ->
  same_bounds img (img2 s) -> NoDup pts ->
  Z.of_nat (length pts) * 260100 < 2 ^ 53 ->
  let a := foldl (draw_px clr) (img1 s) pts in
  let diffA := Zsum ((fun p => sqdist (px img p) (px a p)) <$> pts) in
  let diffB := Zsum ((fun p => sqdist (px img p) (px (img2 s) p)) <$> pts) in
  foldl (diff_px img a) 0 pts = diffA /\
  foldl (diff_px img (img2 s)) 0 pts = diffB /\
  total_score img (img2 (decided img s clr pts))
  = total_score img (img2 s) - (if diffA <? diffB then diffB - diffA else 0).
Proof.
  intros Hwf1 Hwf2 Hb Hbi Hnd Hex. cbv zeta.
  assert (EA : foldl (diff_px img (foldl (draw_px clr) (img1 s) pts)) 0 pts
               = Zsum ((fun p => sqdist (px img p)
                                   (px (foldl (draw_px clr) (img1 s) pts) p)) <$> pts))
    by (rewrite diff_fold_exact; lia).
  assert (EB : foldl (diff_px img (img2 s)) 0 pts
               = Zsum ((fun p => sqdist (px img p) (px (img2 s) p)) <$> pts))
    by (rewrite diff_fold_exact; lia).
  split; [exact EA |]. split; [exact EB |].
  rewrite <- EA, <- EB.
  destruct (Z.ltb_spec
              (foldl (diff_px img (foldl (draw_px clr) (img1 s) pts)) 0 pts)
              (foldl (diff_px img (img2 s)) 0 pts)) as [Hlt | Hge].
  - destruct (decided_accept img s clr pts Hwf2 Hb Hlt) as (E1 & _ & Hon & Hoff & _).
    destruct (decided_bounds img s clr pts Hwf1 Hwf2 Hb) as (_ & _ & _ & Hb2).
    cbv zeta in *.
    rewrite (total_score_update img (img2 s) _ pts Hbi Hb2 Hnd Hoff).
    rewrite (Zsum_ext (fun p => sqdist (px img p) (px (img2 (decided img s clr pts)) p))
                      (fun p => sqdist (px img p)
                                  (px (foldl (draw_px clr) (img1 s) pts) p)) pts).
    + rewrite EA, EB. lia.
    + intros p Hp. rewrite (Hon p Hp), E1. reflexivity.
  - destruct (decided_reject img s clr pts Hwf1 Hb Hge) as (E1 & _).
    cbv zeta in *. rewrite E1. lia.
Qed.

Lemma iteration_score_step lineLen img palette s d fuel s' :
  image.wf (img1 s) -> image.wf (img2 s) -> same_bounds (img1 s) (img2 s) ->
  same_bounds img (img2 s) ->
  0 < image.Dx img <= 2 ^ 30 -> 0 < image.Dy img <= 2 ^ 30 ->
  0 < lineLen <= 2 ^ 30 -> palette <> [] ->
  iteration fuel lineLen img palette s d = Some s' ->
  exists x1 y1 x2 y2 clr a diffA diffB,
    propose lineLen img palette d = Some (x1, y1, x2, y2, clr) /\
    line fuel (img1 s) x1 y1 x2 y2 clr = Some a /\
    bdiff fuel img a x1 y1 x2 y2 = Some diffA /\
    bdiff fuel img (img2 s) x1 y1 x2 y2 = Some diffB /\
    total_score img (img2 s')
    = total_score img (img2 s) - (if diffA <? diffB then diffB - diffA else 0) /\
    image.wf (img1 s') /\ image.wf (img2 s') /\
    same_bounds (img1 s') (img2 s') /\ same_bounds img (img2 s').
Proof.
  intros Hwf1 Hwf2 Hb Hbi Hw Hh Hl Hp H.
  destruct (iteration_inv _ _ _ _ _ _ _ H)
    as (x1 & y1 & x2 & y2 & clr & pts & Hpr & Hv & ->).
  destruct (propose_small lineLen img palette d ltac:(lia) ltac:(lia) ltac:(lia) Hp)
    as (x1' & y1' & x2' & y2' & clr' & Hpr' & Sx1 & Sy1 & Sx2 & Sy2 & Hst).
  rewrite Hpr in Hpr'. injection Hpr' as <- <- <- <- <-.
  destruct (visited_spec x1 y1 x2 y2 Sx1 Sy1 Sx2 Sy2)
    as (pts0 & Hv0 & Hlen & _ & _ & _ & Hnd & _).
  assert (pts = pts0) by (eapply visited_fuel_irrelevant; eassumption). subst pts0.
  assert (Hex : Z.of_nat (length pts) * 260100 < 2 ^ 53) by (rewrite Hlen; lia).
  destruct (decided_total_score img s clr pts Hwf1 Hwf2 Hb Hbi Hnd Hex)
    as (EA & EB & Ht).
  destruct (decided_bounds img s clr pts Hwf1 Hwf2 Hb) as (W1 & W2 & B1 & B2).
  cbv zeta in *.
  exists x1, y1, x2, y2, clr, (foldl (draw_px clr) (img1 s) pts),
    (Zsum ((fun p => sqdist (px img p) (px (foldl (draw_px clr) (img1 s) pts) p))
             <$> pts)),
    (Zsum ((fun p => sqdist (px img p) (px (img2 s) p)) <$> pts)).
  split; [exact Hpr |].
  split; [rewrite line_visited, Hv; reflexivity |].
  split; [rewrite bdiff_visited, Hv; cbn [fmap option_fmap option_map]; now rewrite EA |].
  split; [rewrite bdiff_visited, Hv; cbn [fmap option_fmap option_map]; now rewrite EB |].
  split; [exact Ht |]. split; [exact W1 |]. split; [exact W2 |].
  clear - Hb Hbi B1 B2. split; bounds.
Qed.

(** X8: for images and line-length limits up to 2^30, an iteration lowers
    the squared distance between the source and canvas B, summed over the
    whole image, by exactly [diffimg2 - diffimg1] when the line is accepted
    and leaves it unchanged otherwise; hence over any run from the initial
    black canvases that distance never increases. *)
Theorem engine_total_score lineLen img palette :
  0 < image.Dx img <= 2 ^ 30 -> 0 < image.Dy img <= 2 ^ 30 ->
  0 < lineLen <= 2 ^ 30 -> palette <> [] ->
  (forall fuel s d s',
     image.wf (img1 s) -> image.wf (img2 s) -> same_bounds (img1 s) (img2 s) ->
     same_bounds img (img2 s) ->
     iteration fuel lineLen img palette s d = Some s' ->
     exists x1 y1 x2 y2 clr a diffA diffB,
       propose lineLen img palette d = Some (x1, y1, x2, y2, clr) /\
       line fuel (img1 s) x1 y1 x2 y2 clr = Some a /\
       bdiff fuel img a x1 y1 x2 y2 = Some diffA /\
       bdiff fuel img (img2 s) x1 y1 x2 y2 = Some diffB /\
       total_score img (img2 s')
       = total_score img (img2 s)
         - (if diffA <? diffB then diffB - diffA else 0)) /\
  (forall fuel ds s',
     iterations fuel lineLen img palette (init_canvases img) ds = Some s' ->
     total_score img (img2 s') <= total_score img (img2 (init_canvases img))) /\
  (forall ds, exists s',
     iterations (S (Z.to_nat lineLen)) lineLen img palette (init_canvases img) ds
     = Some s').
Proof.
  intros Hw Hh Hl Hp. split; [| split].
  - intros fuel s d s' Hwf1 Hwf2 Hb Hbi H.
    destruct (iteration_score_step lineLen img palette s d fuel s'
                Hwf1 Hwf2 Hb Hbi Hw Hh Hl Hp H)
      as (x1 & y1 & x2 & y2 & clr & a & dA & dB & H1 & H2 & H3 & H4 & H5 & _).
    exists x1, y1, x2, y2, clr, a, dA, dB. auto.
  - intros fuel ds.
    assert (G : forall s s',
              image.wf (img1 s) -> image.wf (img2 s) ->
              same_bounds (img1 s) (img2 s) -> same_bounds img (img2 s) ->
              iterations fuel lineLen img palette s ds = Some s' ->
              total_score img (img2 s') <= total_score img (img2 s)).
    { induction ds as [|d ds IH]; intros s s' Hwf1 Hwf2 Hb Hbi H.
      - cbn in H. injection H as <-. lia.
      - cbn [iterations] in H.
        destruct (iteration fuel lineLen img palette s d) as [s1|] eqn:E;
          [| discriminate].
        cbn [mbind option_bind] in H.
        destruct (iteration_score_step lineLen img palette s d fuel s1
                    Hwf1 Hwf2 Hb Hbi Hw Hh Hl Hp E)
          as (x1 & y1 & x2 & y2 & clr & a & dA & dB & _ & _ & _ & _ & Ht
              & W1 & W2 & B1 & B2).
        specialize (IH s1 s' W1 W2 B1 B2 H).
        destruct (Z.ltb_spec dA dB); lia. }
    intros s'. apply G.
    + apply init_canvases_wf; lia.
    + apply init_canvases_wf; lia.
    + repeat split.
    + repeat split.
  - intros ds. generalize (init_canvases img).
    induction ds as [|d ds IH]; intros s; [now exists s |].
    cbn [iterations].
    destruct (iteration_total lineLen img palette s d
                ltac:(lia) ltac:(lia) ltac:(lia) Hp) as [s1 E].
    rewrite E. cbn [mbind option_bind]. apply IH.
Qed.

Lemma engine_total_score_witness :
  exists s',
    iterations 3 2 sample_img [white; bg] (init_canvases sample_img)
               [Draws 0 0 1 1 0; Draws 1 1 0 0 0] = Some s' /\
    total_score sample_img (img2 s')
    <= total_score sample_img (img2 (init_canvases sample_img)).
Proof.
  assert (Hw : 0 < image.Dx sample_img <= 2 ^ 30) by (cbn; lia).
  assert (Hh : 0 < image.Dy sample_img <= 2 ^ 30) by (cbn; lia).
  assert (Hl : 0 < 2 <= 2 ^ 30) by lia.
  assert (Hp : [white; bg] <> []) by discriminate.
  destruct (engine_total_score 2 sample_img [white; bg] Hw Hh Hl Hp)
    as (_ & Hmono & Hrun).
  destruct (Hrun [Draws 0 0 1 1 0; Draws 1 1 0 0 0]) as [s' Hs].
  exists s'. split; [exact Hs |]. exact (Hmono _ _ _ Hs).
Defined.

(** ** The engine: proposals and the colours of the canvases *)

Lemma Intn_range n raw r : Intn n raw = Some r -> 0 < n /\ 0 <= r < n.
Proof.
  unfold Intn. destruct (Z.ltb_spec 0 n); [| discriminate].
  intros [= <-]. split; [assumption |]. now apply Z.mod_pos_bound.
Qed.

Lemma propose_inv lineLen img palette d x1 y1 x2 y2 clr :
  propose lineLen img palette d = Some (x1, y1, x2, y2, clr) ->
  exists ox oy,
    Intn (image.Dx img) (raw_x1 d) = Some x1 /\
    Intn (image.Dy img) (raw_y1 d) = Some y1 /\
    Intn lineLen (raw_x2 d) = Some ox /\
    Intn lineLen (raw_y2 d) = Some oy /\
    x2 = GoInt.add (GoInt.add (GoInt.quot (GoInt.neg lineLen) 2) x1) ox /\
    y2 = GoInt.add (GoInt.add (GoInt.quot (GoInt.neg lineLen) 2) y1) oy /\
    clr ∈ palette.
Proof.
  unfold propose. cbv zeta.
  destruct (Intn (image.Dx img) (raw_x1 d)) as [a|]; [| discriminate].
  destruct (Intn (image.Dy img) (raw_y1 d)) as [b|]; [| discriminate].
  destruct (Intn lineLen (raw_x2 d)) as [ox|]; [| discriminate].
  destruct (Intn lineLen (raw_y2 d)) as [oy|]; [| discriminate].
  cbn [mbind option_bind].
  destruct (Intn (Z.of_nat (length palette)) (raw_clr d)) as [i|]; [| discriminate].
  cbn [mbind option_bind].
  destruct (palette !! Z.to_nat i) as [c|] eqn:Hc; [| discriminate].
  cbn [mbind option_bind]. intros [= <- <- <- <- <-].
  exists ox, oy. repeat (split; [reflexivity |]).
  eapply list_elem_of_lookup_2, Hc.
Qed.

(** X9: for images and line-length limits up to 2^59, every proposed line
    starts at a coordinate (x1, y1) with 0 <= x1 < width and
    0 <= y1 < height, which is a pixel of the image when the bounds of the
    image start at (0,0); its two deltas lie in
    [-(len/2), len - len/2 - 1], and so it covers at most len/2 + 1 pixels;
    its colour is one of the palette. *)
Theorem propose_limits lineLen img palette d x1 y1 x2 y2 clr :
  image.Dx img <= 2 ^ 59 -> image.Dy img <= 2 ^ 59 -> lineLen <= 2 ^ 59 ->
  propose lineLen img palette d = Some (x1, y1, x2, y2, clr) ->
  (0 <= x1 < image.Dx img /\ 0 <= y1 < image.Dy img) /\
  (image.MinX img = 0 -> image.MinY img = 0 -> image.inside img x1 y1 = true) /\
  - (lineLen / 2) <= x2 - x1 < lineLen - lineLen / 2 /\
  - (lineLen / 2) <= y2 - y1 < lineLen - lineLen / 2 /\
  (steps x1 y1 x2 y2 <= Z.to_nat (lineLen / 2))%nat /\
  clr ∈ palette.
Proof.
  intros Hw Hh Hl H.
  destruct (propose_inv _ _ _ _ _ _ _ _ _ H)
    as (ox & oy & I1 & I2 & I3 & I4 & E2 & E4 & Hc).
  apply Intn_range in I1 as [P1 R1], I2 as [P2 R2], I3 as [P3 R3], I4 as [_ R4].
  assert (Hq : GoInt.quot (GoInt.neg lineLen) 2 = - (lineLen / 2)).
  { assert (E : GoInt.neg lineLen = - lineLen) by (unwrap; lia).
    rewrite E. unfold GoInt.quot. rewrite (Z.quot_opp_l lineLen 2) by lia.
    rewrite (Z.quot_div_nonneg lineLen 2) by lia. apply wrap_id'.
    assert (0 <= lineLen / 2 <= 2 ^ 59)
      by (split; [apply Z.div_pos; lia | apply Z.div_le_upper_bound; lia]).
    lia. }
  assert (Hh2 : 0 <= lineLen / 2 <= lineLen)
    by (split; [apply Z.div_pos; lia | apply Z.div_le_upper_bound; lia]).
  rewrite Hq in E2, E4. remember (lineLen / 2) as q eqn:Eq.
  assert (Ex : x2 = - q + x1 + ox) by (rewrite E2; unwrap; lia).
  assert (Ey : y2 = - q + y1 + oy) by (rewrite E4; unwrap; lia).
  assert (Hq2 : lineLen - q - 1 <= q).
  { pose proof (Z.div_mod lineLen 2 ltac:(lia)).
    pose proof (Z.mod_pos_bound lineLen 2 ltac:(lia)). lia. }
  split; [lia |].
  split; [intros E0 E1; apply inside_spec; lia |].
  split; [lia |]. split; [lia |]. split; [unfold steps; lia | exact Hc].
Qed.

Lemma propose_limits_witness :
  exists x1 y1 x2 y2 clr,
    propose 40 sample_img [white; bg] (Draws 1 1 39 0 1) = Some (x1, y1, x2, y2, clr) /\
    (steps x1 y1 x2 y2 <= 20)%nat.
Proof.
  exists 1, 1, 20, (-19), bg.
  assert (H : propose 40 sample_img [white; bg] (Draws 1 1 39 0 1)
              = Some (1, 1, 20, -19, bg)) by (vm_compute; reflexivity).
  split; [exact H |].
  assert (Hw : image.Dx sample_img <= 2 ^ 59) by (cbn; lia).
  assert (Hh : image.Dy sample_img <= 2 ^ 59) by (cbn; lia).
  assert (Hl : 40 <= 2 ^ 59) by lia.
  exact (proj1 (proj2 (proj2 (proj2 (proj2
           (propose_limits 40 sample_img [white; bg] _ _ _ _ _ _ Hw Hh Hl H)))))).
Defined.

Lemma build_palette_elem b img c :
  c ∈ build_palette b img <-> c ∈ scanned img.
Proof.
  rewrite build_palette_raster. destruct b.
  - destruct (palette_uniq_fold img (raster (image.Dx img) (image.Dy img)) [] ∅)
      as (pal & u & ext & Hf & _ & _ & _ & _ & He).
    { constructor. }
    { intros c'. rewrite lookup_empty. split; [intros [? [=]] | intros H].
      now apply elem_of_nil in H. }
    rewrite Hf. cbn [fst]. rewrite He. unfold scanned.
    split; [intros [H | H]; [now apply elem_of_nil in H | exact H] | auto].
  - rewrite palette_all_fold. reflexivity.
Qed.

Lemma draw_coloured palette clr img pts :
  image.wf img -> clr ∈ palette ->
  palette_coloured palette img ->
  palette_coloured palette (foldl (draw_px clr) img pts).
Proof.
  intros Hwf Hc H q Hq.
  destruct (draw_fold_bounds clr pts img) as [Hb _].
  rewrite (inside_same_bounds _ img) in Hq by assumption.
  rewrite draw_fold_px by assumption. rewrite Hq, andb_true_r.
  destruct (bool_decide (q ∈ pts)); [right; exact Hc | now apply H].
Qed.

Lemma copy_coloured palette src dst pts :
  image.wf dst -> same_bounds dst src ->
  palette_coloured palette src -> palette_coloured palette dst ->
  palette_coloured palette (foldl (copy_px src) dst pts).
Proof.
  intros Hwf Hb Hs Hd q Hq.
  destruct (copy_fold_bounds src pts dst) as [Hb' _].
  rewrite (inside_same_bounds _ dst) in Hq by assumption.
  rewrite copy_line_px by assumption.
  destruct (bool_decide (q ∈ pts)); [| now apply Hd].
  apply Hs. now rewrite <- (inside_same_bounds dst src).
Qed.

Lemma decided_coloured img palette s clr pts :
  image.wf (img1 s) -> image.wf (img2 s) -> same_bounds (img1 s) (img2 s) ->
  clr ∈ palette ->
  palette_coloured palette (img1 s) -> palette_coloured palette (img2 s) ->
  palette_coloured palette (img1 (decided img s clr pts)) /\
  palette_coloured palette (img2 (decided img s clr pts)).
Proof.
  intros Hwf1 Hwf2 Hb Hc H1 H2.
  destruct (draw_fold_bounds clr pts (img1 s)) as [Hba Hwa]. specialize (Hwa Hwf1).
  pose proof (draw_coloured palette clr (img1 s) pts Hwf1 Hc H1) as Ha.
  assert (Hb1 : same_bounds (img2 s) (foldl (draw_px clr) (img1 s) pts))
    by (clear - Hb Hba; bounds).
  assert (Hb2 : same_bounds (foldl (draw_px clr) (img1 s) pts) (img2 s))
    by now apply same_bounds_sym.
  unfold decided. cbv zeta. destruct (_ <? _); cbn [img1 img2].
  - split; [exact Ha | now apply copy_coloured].
  - split; [now apply copy_coloured | exact H2].
Qed.

(** X10: after any run from the initial canvases, every pixel of canvas A
    and of canvas B is either opaque black or a colour of the palette; and
    the palette built from an image, with or without deduplication, holds
    exactly the colours that [RGBAAt] yields at the coordinates (x, y) with
    0 <= x < width and 0 <= y < height: for an image whose bounds start at
    (0,0), exactly the colours of its pixels. *)
Theorem canvas_colours lineLen img palette :
  0 <= image.Dx img -> 0 <= image.Dy img ->
  (forall fuel ds s',
     iterations fuel lineLen img palette (init_canvases img) ds = Some s' ->
     palette_coloured palette (img1 s') /\ palette_coloured palette (img2 s')) /\
  (forall b c,
     c ∈ build_palette b img
     <-> exists x y, 0 <= x < image.Dx img /\ 0 <= y < image.Dy img /\
                     image.RGBAAt img x y = c) /\
  (image.MinX img = 0 -> image.MinY img = 0 ->
   forall b c,
     c ∈ build_palette b img
     <-> exists x y, image.inside img x y = true /\ image.RGBAAt img x y = c).
Proof.
  intros Hw Hh.
  assert (Hpal : forall b c,
            c ∈ build_palette b img
            <-> exists x y, 0 <= x < image.Dx img /\ 0 <= y < image.Dy img /\
                            image.RGBAAt img x y = c).
  { intros b c. rewrite build_palette_elem. unfold scanned.
    rewrite list_elem_of_fmap. split.
    - intros ([x y] & -> & Hp). apply raster_elem in Hp as [Hx Hy].
      exists x, y. auto.
    - intros (x & y & Hx & Hy & <-). exists (x, y). split; [reflexivity |].
      apply raster_elem. auto. }
  split; [| split; [exact Hpal |]].
  2: { intros E0 E1 b c. rewrite Hpal. split.
       - intros (x & y & Hx & Hy & Hc). exists x, y. split; [| exact Hc].
         apply inside_spec. lia.
       - intros (x & y & Hi & Hc). apply inside_spec in Hi.
         exists x, y. split; [lia |]. split; [lia | exact Hc]. }
  intros fuel ds.
  assert (G : forall s s',
            image.wf (img1 s) -> image.wf (img2 s) -> same_bounds (img1 s) (img2 s) ->
            palette_coloured palette (img1 s) -> palette_coloured palette (img2 s) ->
            iterations fuel lineLen img palette s ds = Some s' ->
            palette_coloured palette (img1 s') /\ palette_coloured palette (img2 s')).
  { induction ds as [|d ds IH]; intros s s' Hwf1 Hwf2 Hb H1 H2 H.
    - cbn in H. injection H as <-. auto.
    - cbn [iterations] in H.
      destruct (iteration fuel lineLen img palette s d) as [s1|] eqn:E;
        [| discriminate].
      cbn [mbind option_bind] in H.
      destruct (iteration_inv _ _ _ _ _ _ _ E)
        as (x1 & y1 & x2 & y2 & clr & pts & Hpr & _ & ->).
      destruct (propose_inv _ _ _ _ _ _ _ _ _ Hpr) as (_ & _ & _ & _ & _ & _ & _ & _ & Hc).
      destruct (decided_bounds img s clr pts Hwf1 Hwf2 Hb) as (W1 & W2 & B1 & B2).
      destruct (decided_coloured img palette s clr pts Hwf1 Hwf2 Hb Hc H1 H2)
        as [C1 C2].
      cbv zeta in *. apply (IH _ s' W1 W2); [| assumption..].
      clear - Hb B1 B2. bounds. }
  intros s'. apply G.
  - now apply init_canvases_wf.
  - now apply init_canvases_wf.
  - repeat split.
  - intros q Hq. left. destruct q as [x y].
    now apply (init_canvases_black img x y Hw Hh).
  - intros q Hq. left. destruct q as [x y].
    now apply (init_canvases_black img x y Hw Hh).
Qed.

Lemma canvas_colours_witness :
  exists s',
    iterations 3 2 sample_img [white; bg] (init_canvases sample_img)
               [Draws 1 1 0 0 0] = Some s' /\
    palette_coloured [white; bg] (img2 s').
Proof.
  assert (H0 : 0 <= image.Dx sample_img) by (cbn; lia).
  assert (H1 : 0 <= image.Dy sample_img) by (cbn; lia).
  destruct (iterations 3 2 sample_img [white; bg] (init_canvases sample_img)
              [Draws 1 1 0 0 0]) as [s'|] eqn:E; [| vm_compute in E; discriminate E].
  exists s'. split; [reflexivity |].
  exact (proj2 (proj1 (canvas_colours 2 sample_img [white; bg] H0 H1) 3%nat _ _ E)).
Defined.

Lemma build_palette_nil b img :
  build_palette b img = [] <-> image.Dx img <= 0 \/ image.Dy img <= 0.
Proof.
  assert (Hs : scanned img = [] <-> image.Dx img <= 0 \/ image.Dy img <= 0).
  { unfold scanned. rewrite <- length_zero_iff_nil, length_fmap, raster_length.
    split; [intros H; apply Nat.eq_mul_0 in H; lia |].
    intros [H | H]; [replace (Z.to_nat (image.Dx img)) with 0%nat by lia; lia |].
    replace (Z.to_nat (image.Dy img)) with 0%nat by lia. reflexivity. }
  rewrite <- Hs. split; intros H.
  - destruct (scanned img) as [|c l] eqn:E; [reflexivity | exfalso].
    assert (Hc : c ∈ build_palette b img)
      by (apply build_palette_elem; rewrite E; apply list_elem_of_here).
    rewrite H in Hc. now apply elem_of_nil in Hc.
  - destruct (build_palette b img) as [|c l] eqn:E; [reflexivity | exfalso].
    assert (Hc : c ∈ scanned img)
      by (apply (build_palette_elem b); rewrite E; apply list_elem_of_here).
    rewrite H in Hc. now apply elem_of_nil in Hc.
Qed.

(** X11: a proposal fails (one of the [rand.Intn] calls panics) exactly when
    the image has no pixels, the line-length limit is not positive or the
    palette is empty; the palette built from an image is empty exactly when
    the image has no pixels.  So with the palette of the image itself, the
    first iteration panics exactly for an image without pixels or a
    non-positive limit, and a failed proposal fails the iteration whatever
    the fuel. *)
Theorem propose_fails_iff lineLen img palette d :
  (propose lineLen img palette d = None
   <-> image.Dx img <= 0 \/ image.Dy img <= 0 \/ lineLen <= 0 \/ palette = []) /\
  (forall b, build_palette b img = [] <-> image.Dx img <= 0 \/ image.Dy img <= 0) /\
  (forall b, propose lineLen img (build_palette b img) d = None
             <-> image.Dx img <= 0 \/ image.Dy img <= 0 \/ lineLen <= 0) /\
  (propose lineLen img palette d = None ->
   forall fuel s, iteration fuel lineLen img palette s d = None).
Proof.
  assert (H1 : forall palette,
            propose lineLen img palette d = None
            <-> image.Dx img <= 0 \/ image.Dy img <= 0 \/ lineLen <= 0 \/ palette = []).
  { clear palette. intros palette. unfold propose, Intn. cbv zeta.
    destruct (Z.ltb_spec 0 (image.Dx img)); [| split; [lia | reflexivity]].
    destruct (Z.ltb_spec 0 (image.Dy img)); [| split; [lia | reflexivity]].
    destruct (Z.ltb_spec 0 lineLen); [| split; [lia | reflexivity]].
    cbn [mbind option_bind].
    destruct (Z.ltb_spec 0 (Z.of_nat (length palette))) as [Hn | Hn].
    - cbn [mbind option_bind].
      pose proof (Z.mod_pos_bound (raw_clr d) (Z.of_nat (length palette)) Hn).
      destruct (lookup_lt_is_Some_2 palette
                  (Z.to_nat (raw_clr d mod Z.of_nat (length palette))) ltac:(lia))
        as [c Hc].
      rewrite Hc. cbn [mbind option_bind]. split; [discriminate |].
      intros [? | [? | [? | ->]]]; [lia.. | cbn in Hn; lia].
    - split; [| reflexivity]. intros _. do 3 right.
      destruct palette; [reflexivity | cbn in Hn; lia]. }
  split; [apply H1 |]. split; [intros b; apply build_palette_nil |]. split.
  - intros b. rewrite H1, build_palette_nil. tauto.
  - intros Hn fuel s. rewrite iteration_unfold, Hn. reflexivity.
Qed.

(** ** File names: [fmt.Sprintf] with [%03d] *)

Lemma strip0_zeros n s : strip0 (String.append (zeros n) s) = strip0 s.
Proof. induction n as [|n IH]; [reflexivity | exact IH]. Qed.

Lemma strip0_head c r : c <> "0"%char -> strip0 (String c r) = String c r.
Proof.
  intros H. cbn [strip0].
  destruct c as [[] [] [] [] [] [] [] []]; try reflexivity. congruence.
Qed.

Lemma pretty_N_go_head (x : N) : forall s,
  (0 < x)%N -> exists c r, pretty_N_go x s = String c r /\ c <> "0"%char.
Proof.
  induction (N.lt_wf_0 x) as [x _ IH]. intros s Hx.
  rewrite pretty_N_go_step by assumption.
  destruct (N.eq_dec (N.div x 10) 0%N) as [E | E].
  - rewrite E, pretty_N_go_0. eexists _, _. split; [reflexivity |].
    assert (Hlt : (x < 10)%N) by (apply N.div_small_iff in E; lia).
    rewrite N.mod_small by assumption.
    assert (x = 1 \/ x = 2 \/ x = 3 \/ x = 4 \/ x = 5 \/ x = 6
            \/ x = 7 \/ x = 8 \/ x = 9)%N as Hc by lia.
    destruct Hc as [-> | [-> | [-> | [-> | [-> | [-> | [-> | [-> | ->]]]]]]]];
      discriminate.
  - apply IH; [apply N.div_lt; lia | now apply N.neq_0_lt_0].
Qed.

Lemma strip0_pretty (w : nat) (x : N) :
  strip0 (pad0 w (pretty x)) = if decide (x = 0%N) then EmptyString else pretty x.
Proof.
  unfold pad0. rewrite strip0_zeros. unfold pretty, pretty_N.
  destruct (decide (x = 0%N)) as [-> | Hx]; [reflexivity |].
  destruct (pretty_N_go_head x "" ltac:(lia)) as (c & r & -> & Hc).
  now apply strip0_head.
Qed.

Lemma pretty_N_nonempty (x : N) : pretty x <> EmptyString.
Proof.
  unfold pretty, pretty_N. destruct (decide (x = 0%N)); [discriminate |].
  destruct (pretty_N_go_head x "" ltac:(lia)) as (c & r & -> & _). discriminate.
Qed.

Lemma pad0_pretty_inj (w : nat) (x y : N) :
  pad0 w (pretty x) = pad0 w (pretty y) -> x = y.
Proof.
  intros H. apply (f_equal strip0) in H. rewrite !strip0_pretty in H.
  destruct (decide (x = 0%N)) as [-> | Hx], (decide (y = 0%N)) as [-> | Hy].
  - reflexivity.
  - symmetry in H. now apply pretty_N_nonempty in H.
  - now apply pretty_N_nonempty in H.
  - now apply (inj pretty).
Qed.

Lemma pad0_pretty_no_dash (w : nat) (x : N) r :
  pad0 w (pretty x) <> String "-"%char r.
Proof.
  intros H. apply (f_equal strip0) in H. rewrite strip0_pretty in H.
  rewrite strip0_head in H by discriminate.
  destruct (decide (x = 0%N)); [discriminate |].
  unfold pretty, pretty_N in H. rewrite decide_False in H by assumption.
  revert H. apply (pretty_N_go_ne_dash x "" r). discriminate.
Qed.

Lemma Sprintf_03d_inj n m : Sprintf_03d n = Sprintf_03d m -> n = m.
Proof.
  unfold Sprintf_03d.
  destruct (Z.ltb_spec n 0) as [Ln | Ln], (Z.ltb_spec m 0) as [Lm | Lm]; intros E.
  - injection E as E. apply pad0_pretty_inj in E. lia.
  - symmetry in E. now apply pad0_pretty_no_dash in E.
  - now apply pad0_pretty_no_dash in E.
  - apply pad0_pretty_inj in E. lia.
Qed.

Lemma append_length s t :
  String.length (String.append s t) = (String.length s + String.length t)%nat.
Proof.
  induction s as [|c s IH]; [reflexivity |].
  change (S (String.length (String.append s t))
          = S (String.length s + String.length t)).
  now rewrite IH.
Qed.

Lemma append_inj_r t : forall s1 s2,
  String.append s1 t = String.append s2 t -> s1 = s2.
Proof.
  induction s1 as [|c s1 IH]; intros [|c' s2] H.
  - reflexivity.
  - apply (f_equal String.length) in H. rewrite !append_length in H.
    cbn [String.length] in H. lia.
  - apply (f_equal String.length) in H. rewrite !append_length in H.
    cbn [String.length] in H. lia.
  - cbn in H. injection H as -> H. f_equal. now apply IH.
Qed.

(** X12: the decimal field [%03d] determines its number, so the checkpoint
    names [incrNNN], the frame names [frameNNN] and the file names derived
    from them by [save] are pairwise distinct for distinct sequence numbers,
    and no checkpoint name is a frame name. *)
Theorem save_names_distinct n m :
  (Sprintf_03d n = Sprintf_03d m -> n = m) /\
  (String.append (incr_name n) ".png" = String.append (incr_name m) ".png" -> n = m) /\
  (String.append (frame_name n) ".png" = String.append (frame_name m) ".png" -> n = m) /\
  (input_name n = input_name m -> n = m) /\
  String.append (incr_name n) ".png" <> String.append (frame_name m) ".png".
Proof.
  split; [apply Sprintf_03d_inj |]. split; [| split; [| split]].
  - intros H. apply append_inj_r in H. unfold incr_name in H. cbn in H.
    injection H as H. now apply Sprintf_03d_inj.
  - intros H. apply append_inj_r in H. unfold frame_name in H. cbn in H.
    injection H as H. now apply Sprintf_03d_inj.
  - unfold input_name. cbn. intros H. injection H as H.
    change (String.append (Sprintf_03d n) ".png"
            = String.append (Sprintf_03d m) ".png") in H.
    apply append_inj_r in H. now apply Sprintf_03d_inj.
  - unfold incr_name, frame_name. cbn. discriminate.
Qed.

Example Sprintf_03d_samples :
  Sprintf_03d 7 = "007"%string /\ Sprintf_03d 42 = "042"%string /\
  Sprintf_03d 123 = "123"%string /\ Sprintf_03d 1234 = "1234"%string /\
  Sprintf_03d 0 = "000"%string /\ Sprintf_03d (-5) = "-05"%string /\
  input_name 1 = "input001.png"%string.
Proof. vm_compute. repeat split; reflexivity. Qed.

(** ** [main]: which frames are sketched *)

Lemma main_args_stops fs sk a post err : forall pre n,
  fs a = OpenFails err ->
  main_args fs sk n (pre ++ a :: post) = main_args fs sk n (pre ++ [a]).
Proof.
  induction pre as [|x pre IH]; intros n Ha; cbn [app main_args].
  - rewrite Ha. reflexivity.
  - destruct (fs x); [reflexivity | reflexivity |]. now rewrite (IH (S n) Ha).
Qed.

Lemma main_args_rounds fs sk imgs a err : forall pre n,
  fs a = OpenFails err ->
  (forall x, x ∈ pre -> fs x = Decodes (imgs x)) ->
  (forall k, (n <= k < n + length pre)%nat -> sk k = Returns) ->
  main_args fs sk n (pre ++ [a])
  = (concat (arg_round imgs <$> pre)
     ++ [Log (String.append "opening " a); Log "end of frames"], Ends 0).
Proof.
  induction pre as [|x pre IH]; intros n Ha Hpre Hsk; cbn [app main_args].
  - rewrite Ha. reflexivity.
  - rewrite (Hpre x) by apply list_elem_of_here.
    rewrite (Hsk n) by (cbn [length]; lia).
    rewrite (IH (S n) Ha).
    + reflexivity.
    + intros y Hy. apply Hpre. now apply list_elem_of_further.
    + intros k Hk. apply Hsk. cbn [length]. lia.
Qed.

Lemma sketched_rounds {T} (round : T -> list main_event) (img : T -> image.RGBA)
    (tail : list main_event) (l : list T) :
  (forall x, sketched (round x) = [img x]) -> sketched tail = [] ->
  sketched (concat (round <$> l) ++ tail) = img <$> l.
Proof.
  intros Hr Ht. induction l as [|x l IH]; [exact Ht |].
  cbn [fmap list_fmap concat]. rewrite <- app_assoc.
  unfold sketched in *. rewrite omap_app, IH, Hr. reflexivity.
Qed.

(** X13: with file arguments, the arguments after the first one that cannot
    be opened are never looked at, whatever the earlier calls of [sketch]
    do; and when the arguments before it decode, their calls of [sketch]
    return and no snapshot goroutine fails in between, they are sketched in
    order, the loop is left at that argument without its error being
    logged, and [main] returns after the line "end of frames". *)
Theorem main_args_open_failure fs sk imgs (pre : list string) a post err :
  fs a = OpenFails err ->
  (forall fuel kill frameStart frameLimit,
     main fuel fs sk kill frameStart frameLimit (pre ++ a :: post)
     = main fuel fs sk kill frameStart frameLimit (pre ++ [a])) /\
  ((forall x, x ∈ pre -> fs x = Decodes (imgs x)) ->
   (forall k, (k < length pre)%nat -> sk k = Returns) ->
   forall fuel frameStart frameLimit,
     main fuel fs sk None frameStart frameLimit (pre ++ a :: post)
     = (concat (arg_round imgs <$> pre)
        ++ [Log (String.append "opening " a); Log "end of frames"], Ends 0) /\
     sketched (main fuel fs sk None frameStart frameLimit (pre ++ a :: post)).1
     = imgs <$> pre).
Proof.
  intros Ha.
  assert (Hm : forall fuel kill frameStart frameLimit l,
            main fuel fs sk kill frameStart frameLimit (pre ++ a :: l)
            = interrupted kill (main_args fs sk 0 (pre ++ a :: l))).
  { intros fuel kill frameStart frameLimit l. unfold main.
    destruct pre; reflexivity. }
  split.
  - intros fuel kill frameStart frameLimit.
    rewrite !Hm, (main_args_stops fs sk a post err pre 0%nat Ha). reflexivity.
  - intros Hpre Hsk fuel frameStart frameLimit.
    rewrite Hm, (main_args_stops fs sk a post err pre 0%nat Ha).
    rewrite (main_args_rounds fs sk imgs a err pre 0%nat Ha Hpre)
      by (intros k Hk; apply Hsk; lia).
    cbn [interrupted fst]. split; [reflexivity |].
    now apply sketched_rounds.
Qed.

Lemma main_args_open_failure_witness :
  let fs := fun n : string =>
              if decide (n = "a.png"%string) then Decodes sample_img
              else OpenFails "no such file" in
  main 0 fs (fun _ => Returns) None 1 0 ["a.png"; "b.png"; "a.png"]%string
  = main 0 fs (fun _ => Returns) None 1 0 ["a.png"; "b.png"]%string.
Proof.
  cbv zeta.
  refine (proj1 (main_args_open_failure _ (fun _ => Returns) (fun _ => sample_img)
                   ["a.png"%string] "b.png"%string
                   ["a.png"%string] "no such file" _) 0%nat None 1 0).
  reflexivity.
Defined.

Lemma main_seq_rounds fs sk imgs frameStart frameLimit (j : nat) : forall k n,
  1 < frameLimit -> 0 <= k -> k + Z.of_nat j = frameLimit + 1 ->
  0 <= frameStart -> frameStart + frameLimit + 1 <= GoInt.MaxInt ->
  (forall f, frameStart <= f <= frameStart + frameLimit ->
             fs (input_name f) = Decodes (imgs f)) ->
  (forall m, (n <= m < n + j)%nat -> sk m = Returns) ->
  main_seq (S j) fs sk n frameStart frameLimit (frameStart + k)
  = (concat (frame_round imgs <$> seqZ (frameStart + k) (Z.of_nat j))
     ++ [Log "end of frames"], Ends 0).
Proof.
  unfold GoInt.MaxInt.
  induction j as [|j IH]; intros k n Hn Hk Hj Hlo Hhi Hfs Hsk.
  - cbn [main_seq].
    assert (E : GoInt.sub (frameStart + k) frameStart = k) by (unwrap; lia).
    rewrite E. destruct (Z.ltb_spec 1 frameLimit); [| lia].
    destruct (Z.ltb_spec frameLimit k); [| lia]. reflexivity.
  - remember (S j) as fuel eqn:Ef. cbn [main_seq]. subst fuel.
    assert (E : GoInt.sub (frameStart + k) frameStart = k) by (unwrap; lia).
    rewrite E. destruct (Z.ltb_spec frameLimit k); [lia |].
    rewrite andb_false_r. cbv zeta. rewrite Hfs by lia.
    rewrite (Hsk n) by lia.
    assert (E' : GoInt.add (frameStart + k) 1 = frameStart + (k + 1)) by (unwrap; lia).
    rewrite E', (IH (k + 1) (S n)); try assumption; try lia.
    + rewrite (seqZ_cons (frameStart + k)) by lia.
      replace (Z.succ (frameStart + k)) with (frameStart + (k + 1)) by lia.
      replace (Z.pred (Z.of_nat (S j))) with (Z.of_nat j) by lia.
      reflexivity.
    + intros m Hm. apply Hsk. lia.
Qed.

(** X14: without file arguments and with a frame limit N greater than 1
    (and a first frame number that is not negative), when the files
    input<frameStart>.png ... input<frameStart+N>.png all open and decode,
    their calls of [sketch] return and no snapshot goroutine fails in
    between, [main] sketches all N+1 of them, in order, and then returns
    after the line "end of frames": the limit lets one frame more through
    than its value. *)
Theorem main_frame_limit fs sk imgs frameStart frameLimit :
  1 < frameLimit ->
  0 <= frameStart -> frameStart + frameLimit + 1 <= GoInt.MaxInt ->
  (forall f, frameStart <= f <= frameStart + frameLimit ->
             fs (input_name f) = Decodes (imgs f)) ->
  (forall m, (m <= Z.to_nat frameLimit)%nat -> sk m = Returns) ->
  main (S (Z.to_nat (frameLimit + 1))) fs sk None frameStart frameLimit []
  = (concat (frame_round imgs <$> seqZ frameStart (frameLimit + 1))
     ++ [Log "end of frames"], Ends 0) /\
  sketched (main (S (Z.to_nat (frameLimit + 1))) fs sk None
                 frameStart frameLimit []).1
  = imgs <$> seqZ frameStart (frameLimit + 1) /\
  Z.of_nat (length (sketched (main (S (Z.to_nat (frameLimit + 1))) fs sk None
                                   frameStart frameLimit []).1))
  = frameLimit + 1.
Proof.
  intros Hn Hlo Hhi Hfs Hsk.
  pose proof (main_seq_rounds fs sk imgs frameStart frameLimit
                (Z.to_nat (frameLimit + 1)) 0 0%nat Hn ltac:(lia) ltac:(lia)
                Hlo Hhi Hfs) as H.
  rewrite Z.add_0_r, Z2Nat.id in H by lia.
  unfold main. cbn [interrupted]. rewrite H by (intros m Hm; apply Hsk; lia).
  split; [reflexivity |]. cbn [fst].
  rewrite (sketched_rounds (frame_round imgs) imgs) by reflexivity.
  split; [reflexivity |]. rewrite length_fmap, length_seqZ. lia.
Qed.

Lemma main_frame_limit_witness :
  main 4 (fun _ => Decodes sample_img) (fun _ => Returns) None 1 2 []
  = (concat (frame_round (fun _ => sample_img) <$> seqZ 1 3)
     ++ [Log "end of frames"], Ends 0).
Proof.
  assert (H1 : 1 < 2) by lia.
  assert (H2 : 0 <= 1) by lia.
  assert (H3 : 1 + 2 + 1 <= GoInt.MaxInt) by (vm_compute; congruence).
  exact (proj1 (main_frame_limit (fun _ => Decodes sample_img) (fun _ => Returns)
                  (fun _ => sample_img) 1 2 H1 H2 H3
                  (fun f _ => eq_refl) (fun m _ => eq_refl))).
Defined.

Lemma interrupted_ending kill r :
  (interrupted kill r).2 = r.2 \/ (interrupted kill r).2 = Ends 1.
Proof.
  unfold interrupted. destruct kill as [[n err]|]; [| now left].
  destruct (_ && _); [now right | now left].
Qed.

Lemma main_seq_unlimited fs sk frameStart frameLimit :
  frameLimit <= 1 ->
  forall fuel n frame,
    let e := (main_seq fuel fs sk n frameStart frameLimit frame).2 in
    e = Ends 1 \/ e = Ends 2 \/ e = Runs \/ e = Unfinished.
Proof.
  intros Hn. assert (Hc : (1 <? frameLimit) = false) by (apply Z.ltb_ge; lia).
  induction fuel as [|fuel IH]; intros n frame; cbv zeta; [auto |].
  cbn [main_seq]. rewrite Hc. cbn [andb]. cbv zeta.
  destruct (fs (input_name frame)); [cbn; auto | cbn; auto |].
  destruct (sk n); cbn [after_sketch snd]; first [apply IH | auto 6].
Qed.

Lemma main_seq_goes_on fs sk frameStart frameLimit :
  frameLimit <= 1 ->
  (forall name, exists img, fs name = Decodes img) ->
  (forall n, sk n = Returns) ->
  forall fuel n frame,
    (main_seq fuel fs sk n frameStart frameLimit frame).2 = Unfinished /\
    length (sketched (main_seq fuel fs sk n frameStart frameLimit frame).1) = fuel.
Proof.
  intros Hn Hall Hsk.
  assert (Hc : (1 <? frameLimit) = false) by (apply Z.ltb_ge; lia).
  induction fuel as [|fuel IH]; intros n frame; [split; reflexivity |].
  cbn [main_seq]. rewrite Hc. cbn [andb]. cbv zeta.
  destruct (Hall (input_name frame)) as [img ->]. rewrite Hsk.
  cbn [after_sketch fst snd]. destruct (IH (S n) (GoInt.add frame 1)) as [E L].
  split; [exact E |]. unfold sketched in *. cbn [omap list_omap].
  cbn [length]. now rewrite L.
Qed.

(** X15: without file arguments and with a frame limit of at most 1 (the
    default 0 included), the limit is never applied and [main] never
    returns: a run ends only with exit status 1 ([log.Fatal] on a file that
    does not open or decode, or [log.Fatalln] in a snapshot goroutine) or
    with exit status 2 (a panic in [sketch]), or it stays in a call of
    [sketch] for ever; while the files keep opening and decoding, the calls
    of [sketch] return and no snapshot goroutine fails, it goes on, one
    frame after the other. *)
Theorem main_no_frame_limit fs sk frameStart frameLimit :
  frameLimit <= 1 ->
  (forall fuel kill,
     let e := (main fuel fs sk kill frameStart frameLimit []).2 in
     e = Ends 1 \/ e = Ends 2 \/ e = Runs \/ e = Unfinished) /\
  ((forall name, exists img, fs name = Decodes img) ->
   (forall n, sk n = Returns) ->
   forall fuel,
     (main fuel fs sk None frameStart frameLimit []).2 = Unfinished /\
     length (sketched (main fuel fs sk None frameStart frameLimit []).1) = fuel).
Proof.
  intros Hn. split.
  - intros fuel kill. cbv zeta. unfold main.
    destruct (interrupted_ending kill
                (main_seq fuel fs sk 0 frameStart frameLimit frameStart))
      as [-> | ->]; [| auto].
    apply (main_seq_unlimited fs sk frameStart frameLimit Hn).
  - intros Hall Hsk fuel. unfold main. cbn [interrupted].
    now apply main_seq_goes_on.
Qed.

Lemma main_no_frame_limit_witness :
  (main 3 (fun n : string =>
             if decide (n = "input001.png"%string) then Decodes sample_img
             else OpenFails "no such file") (fun _ => Returns) None 1 1 []).2
  = Ends 1.
Proof.
  assert (Hn : 1 <= 1) by lia.
  destruct (proj1 (main_no_frame_limit
                     (fun n : string =>
                        if decide (n = "input001.png"%string) then Decodes sample_img
                        else OpenFails "no such file")
                     (fun _ => Returns) 1 1 Hn) 3%nat None)
    as [E | [E | [E | E]]]; [exact E | | |]; vm_compute in E; discriminate E.
Defined.

(** ** Snapshots: the order in which the files are written *)

Lemma step_snapshot_names p e l :
  (exited p = None -> snapshot_names p = l) ->
  snapshot_names p `prefix_of` l ->
  (exited (step p e) = None ->
   snapshot_names (step p e) = l ++ requested [e]) /\
  snapshot_names (step p e) `prefix_of` l ++ requested [e].
Proof.
  intros He Hp. unfold step.
  destruct (exited p) as [c|] eqn:Hx.
  { split; [intros H; congruence | now apply prefix_app_r]. }
  specialize (He eq_refl). subst l. clear Hp.
  unfold snapshot_names in *.
  destruct e as [name cr er | upd | cr er].
  - unfold save. cbn [savewait files exited canvas saveScratch].
    destruct (savewait p) as [j|] eqn:Hj.
    + destruct cr as [| err]; unfold save_goroutine;
        cbn [savewait files exited canvas saveScratch requested omap].
      * rewrite Hx. cbn [savewait files exited requested omap].
        rewrite fmap_app. cbn [fmap list_fmap fst].
        rewrite <- !app_assoc. split; [reflexivity |]. reflexivity.
      * cbn [savewait files exited].
        split; [discriminate |]. now apply prefix_app_r.
    + rewrite Hx. cbn [savewait files exited requested omap].
      rewrite !app_nil_r. split; reflexivity.
  - cbn [savewait files exited requested omap]. rewrite !app_nil_r.
    split; reflexivity.
  - cbn [requested omap]. rewrite !app_nil_r.
    destruct (savewait p) as [j|] eqn:Hj.
    + destruct cr as [| err]; unfold save_goroutine;
        cbn [savewait files exited].
      * rewrite fmap_app. cbn [fmap list_fmap fst]. rewrite app_nil_r.
        split; reflexivity.
      * rewrite Hj. split; [discriminate | reflexivity].
    + rewrite Hj, app_nil_r. split; reflexivity.
Qed.

Lemma requested_app es es' : requested (es ++ es') = requested es ++ requested es'.
Proof. unfold requested. apply omap_app. Qed.

Lemma run_snapshot_names es : forall p l,
  (exited p = None -> snapshot_names p = l) ->
  snapshot_names p `prefix_of` l ->
  (exited (run p es) = None -> snapshot_names (run p es) = l ++ requested es) /\
  snapshot_names (run p es) `prefix_of` l ++ requested es.
Proof.
  induction es as [|e es IH]; intros p l He Hp.
  - cbn. rewrite app_nil_r. split; assumption.
  - destruct (step_snapshot_names p e l He Hp) as [He' Hp'].
    destruct (IH (step p e) (l ++ requested [e]) He' Hp') as [H1 H2].
    change (e :: es) with ([e] ++ es). rewrite requested_app, app_assoc.
    split; assumption.
Qed.

(** X16: whatever the main loop and the snapshot goroutine do, and in
    whatever order, the files are written in the order of the calls of
    [save], each at most once and none before an earlier one: the files
    written, followed by the one of the goroutine that is started and has
    not run, are a prefix of the requested names, and are all of them as
    long as the process has not exited. *)
Theorem snapshots_in_order img es :
  snapshot_names (run (start img) es) `prefix_of` requested es /\
  (exited (run (start img) es) = None ->
   snapshot_names (run (start img) es) = requested es).
Proof.
  destruct (run_snapshot_names es (start img) []) as [H1 H2].
  - reflexivity.
  - reflexivity.
  - split; assumption.
Qed.


(** ** The loop of [sketch]: every turn completes *)

Lemma loop_body_total impl lineLen sd td img palette i tk st :
  0 < image.Dx img <= 2 ^ 59 -> 0 < image.Dy img <= 2 ^ 59 ->
  0 < lineLen <= 2 ^ 59 -> palette <> [] ->
  exists st',
    loop_body (S (Z.to_nat lineLen)) impl lineLen sd td img palette i tk st
    = Some st'.
Proof.
  intros Hw Hh Hl Hp. unfold loop_body. cbv zeta.
  destruct (exited (goroutine_runs (tk_early tk) (proc st)));
    [eexists; reflexivity |].
  destruct (iteration_total lineLen img palette (cv st) (tk_draws tk) Hw Hh Hl Hp)
    as [s' ->].
  cbn [mbind option_bind].
  destruct (exited (goroutine_runs (tk_goroutine tk) _)); [eexists; reflexivity |].
  destruct (Z.rem i 50 =? 0); [| eexists; reflexivity].
  destruct (exited (proc (checkpoint impl sd tk _))); eexists; reflexivity.
Qed.

Lemma sketch_loop_total impl maxIter lineLen sd td img palette :
  0 < image.Dx img <= 2 ^ 59 -> 0 < image.Dy img <= 2 ^ 59 ->
  0 < lineLen <= 2 ^ 59 -> palette <> [] ->
  forall tks i st,
  exists r,
    sketch_loop (S (Z.to_nat lineLen)) impl maxIter lineLen sd td img palette
                i tks st = Some r.
Proof.
  intros Hw Hh Hl Hp.
  induction tks as [|tk tks IH]; intros i st; cbn [sketch_loop];
    destruct (exited (proc st)); try (eexists; reflexivity).
  - destruct (_ || _); eexists; reflexivity.
  - destruct (_ || _); [| eexists; reflexivity].
    destruct (loop_body_total impl lineLen sd td img palette i tk st Hw Hh Hl Hp)
      as [st1 ->].
    cbn [mbind option_bind]. apply IH.
Qed.

Lemma sketch_total impl maxIter lineLen palUniq sd td img t0 t1 tks cr er after :
  0 < image.Dx img <= 2 ^ 59 -> 0 < image.Dy img <= 2 ^ 59 ->
  0 < lineLen <= 2 ^ 59 ->
  exists st b,
    sketch (S (Z.to_nat lineLen)) impl maxIter lineLen palUniq sd td img t0 t1
           tks cr er after = Some (st, b).
Proof.
  intros Hw Hh Hl. unfold sketch. cbv zeta.
  assert (Hp : build_palette palUniq img <> []).
  { intros E. apply build_palette_nil in E. lia. }
  destruct (sketch_loop_total impl maxIter lineLen sd td img
              (build_palette palUniq img) Hw Hh Hl Hp tks 0
              (sketch_begin (build_palette palUniq img) img t0 t1))
    as [[st1 b1] ->].
  cbn [mbind option_bind]. destruct b1; eexists _, _; reflexivity.
Qed.

Lemma goroutine_runs_exited g p : exited p <> None -> goroutine_runs g p = p.
Proof.
  intros H. destruct g as [[cr er]|]; [| reflexivity].
  cbn [goroutine_runs]. unfold step. destruct (exited p); congruence.
Qed.

Lemma save_alive name cr er p :
  exited (save name cr er p) = None -> exited p = None.
Proof.
  unfold save. cbv zeta. cbn [savewait exited canvas saveScratch files logged].
  destruct (savewait p) as [j|].
  - destruct cr; unfold save_goroutine; cbn [exited];
      destruct (exited p); cbn [exited]; congruence.
  - destruct (exited p); cbn [exited]; congruence.
Qed.

Lemma sketch_end_keeps cr er after st :
  cv (sketch_end cr er after st) = cv st /\
  reports (sketch_end cr er after st) = reports st /\
  incrSaveNum (sketch_end cr er after st) = incrSaveNum st.
Proof. unfold sketch_end. cbv zeta. destruct (exited _); cbn; auto. Qed.

Lemma sketch_loop_exited fuel impl maxIter lineLen sd td img palette i tks st :
  exited (proc st) <> None ->
  sketch_loop fuel impl maxIter lineLen sd td img palette i tks st
  = Some (st, false).
Proof.
  intros H. destruct tks; cbn [sketch_loop]; destruct (exited (proc st));
    congruence.
Qed.

(* The loop is only left by a process that has not exited. *)
Lemma sketch_loop_left fuel impl maxIter lineLen sd td img palette :
  forall tks i st st',
  sketch_loop fuel impl maxIter lineLen sd td img palette i tks st
  = Some (st', true) ->
  exited (proc st') = None.
Proof.
  induction tks as [|tk tks IH]; intros i st st'; cbn [sketch_loop];
    destruct (exited (proc st)) eqn:Hx; try discriminate.
  - destruct (_ || _); [discriminate |]. now intros [= <-].
  - destruct (_ || _); [| now intros [= <-]].
    destruct (loop_body _ _ _ _ _ _ _ _ _ _) as [st1|]; [| discriminate].
    cbn [mbind option_bind]. apply IH.
Qed.

(** ** The loop of [sketch]: the statistics *)

Lemma Zsum_snoc l x : Zsum (l ++ [x]) = Zsum l + x.
Proof.
  induction l as [|y l IH]; [cbn; lia |].
  cbn [app Zsum foldr]. fold (Zsum (l ++ [x])) (Zsum l). lia.
Qed.

Lemma iteration_counters fuel lineLen img palette s d s' :
  iteration fuel lineLen img palette s d = Some s' ->
  stati s' = GoInt.add (stati s) 1 /\
  (statc s' = statc s \/ statc s' = GoInt.add (statc s) 1).
Proof.
  intros H.
  apply iteration_inv in H as (x1 & y1 & x2 & y2 & clr & pts & _ & _ & ->).
  unfold decided. cbv zeta. destruct (_ <? _); cbn [stati statc]; auto.
Qed.

Lemma checkpoint_keeps impl sd tk st :
  cv (checkpoint impl sd tk st) = cv st /\
  reports (checkpoint impl sd tk st) = reports st /\
  saveNum (checkpoint impl sd tk st) = saveNum st /\
  lastStatTime (checkpoint impl sd tk st) = lastStatTime st.
Proof.
  unfold checkpoint. cbv zeta. destruct (_ && _); [| auto].
  destruct (exited _); cbn; auto.
Qed.

Lemma report_cases impl td i tk st :
  proc (report impl td i tk st) = proc st /\
  incrSaveNum (report impl td i tk st) = incrSaveNum st /\
  saveNum (report impl td i tk st) = saveNum st /\
  lastSaveTime (report impl td i tk st) = lastSaveTime st /\
  img2 (cv (report impl td i tk st)) = img2 (cv st) /\
  (report impl td i tk st = st \/
   stati (cv (report impl td i tk st)) = 0 /\
   statc (cv (report impl td i tk st)) = 0 /\
   reports (report impl td i tk st)
   = reports st ++ [(i, stati (cv st), statc (cv st),
                     time.Sub (tk_now tk) (lastStatTime st))]).
Proof.
  unfold report. cbv zeta. destruct (_ <=? _); cbn; auto 10.
Qed.

Lemma loop_body_counts fuel impl lineLen sd td img palette i tk st st' :
  0 <= i < 2 ^ 62 -> counters_ok i st ->
  loop_body fuel impl lineLen sd td img palette i tk st = Some st' ->
  exists n, counters_ok n st' /\ (exited (proc st') = None -> n = i + 1).
Proof.
  intros Hi Hok. unfold loop_body. cbv zeta.
  destruct (exited (goroutine_runs (tk_early tk) (proc st))) eqn:Hx0.
  { intros [= <-]. exists i. split; [exact Hok |].
    cbn [proc set_proc]. congruence. }
  destruct Hok as (Hc & Hsi & Hn & Hr).
  destruct (iteration fuel lineLen img palette (cv st) (tk_draws tk))
    as [s'|] eqn:Hit; [| discriminate].
  cbn [mbind option_bind].
  apply iteration_counters in Hit as [Ei Ec].
  assert (Ei' : stati s' = stati (cv st) + 1)
    by (rewrite Ei; unfold GoInt.add; apply wrap_id'; lia).
  assert (Ec' : statc s' = statc (cv st) \/ statc s' = statc (cv st) + 1).
  { destruct Ec as [Ec | Ec]; [now left | right].
    rewrite Ec. unfold GoInt.add. apply wrap_id'. lia. }
  clear Ei Ec. unfold counted in Hn.
  intros H. exists (i + 1). split; [| reflexivity]. revert H.
  assert (Hafter : forall p,
            counters_ok (i + 1)
              (Sketching s' p (incrSaveNum st) (saveNum st) (lastSaveTime st)
                         (lastStatTime st) (reports st))).
  { intros p. unfold counters_ok, counted. cbn [cv reports].
    repeat split; try assumption; lia. }
  match goal with
  | |- match exited ?q with _ => _ end = _ -> _ =>
      generalize q; intros p; specialize (Hafter p)
  end.
  destruct (exited p); [intros [= <-]; exact Hafter |].
  destruct (Z.rem i 50 =? 0) eqn:Hrem; [| intros [= <-]; exact Hafter].
  apply Z.eqb_eq in Hrem.
  match goal with
  | |- match exited (proc ?c) with _ => _ end = _ -> _ => set (st1 := c)
  end.
  destruct (checkpoint_keeps impl sd tk
              (Sketching s' p (incrSaveNum st) (saveNum st) (lastSaveTime st)
                         (lastStatTime st) (reports st)))
    as (E1 & E2 & _ & _).
  fold st1 in E1, E2. cbn [cv reports] in E1, E2.
  assert (H1 : counters_ok (i + 1) st1).
  { destruct Hafter as (A & B & C & D). unfold counters_ok, counted in *.
    cbn [cv reports] in *. rewrite E1, E2. auto. }
  assert (Hpos : 1 <= stati (cv st1)) by (rewrite E1; lia).
  clearbody st1. clear Hafter.
  destruct (exited (proc st1)); [intros [= <-]; exact H1 |].
  intros [= <-].
  destruct (report_cases impl td i tk st1)
    as (_ & _ & _ & _ & _ & [-> | (Z1 & Z2 & Er)]); [exact H1 |].
  destruct H1 as (A & B & C & D). unfold counters_ok, counted in *.
  rewrite Z1, Z2, Er, fmap_app. cbn [fmap list_fmap fst snd].
  change (list_fmap ?A ?B ?f ?l) with (f <$> l). rewrite Zsum_snoc.
  repeat split; try lia.
  apply Forall_app. split; [exact D |]. constructor; [| constructor].
  unfold report_ok. lia.
Qed.

Lemma sketch_loop_counts fuel impl maxIter lineLen sd td img palette :
  forall tks i st st' b,
  0 <= i -> i + Z.of_nat (length tks) < 2 ^ 62 ->
  i <= maxIter \/ maxIter < 0 ->
  counters_ok i st ->
  sketch_loop fuel impl maxIter lineLen sd td img palette i tks st
  = Some (st', b) ->
  exists n, counters_ok n st' /\
    (exited (proc st') = None ->
     n = if b then maxIter else i + Z.of_nat (length tks)).
Proof.
  induction tks as [|tk tks IH]; intros i st st' b Hi Hlen Hm Hc;
    cbn [sketch_loop]; destruct (exited (proc st)) eqn:Hx.
  - intros [= <- <-]. exists i. split; [exact Hc | congruence].
  - destruct ((i <? maxIter) || (maxIter <? 0)) eqn:Hcond; intros [= <- <-];
      exists i; (split; [exact Hc | intros _]).
    + cbn [length]. lia.
    + apply orb_false_iff in Hcond as [C1 C2].
      apply Z.ltb_ge in C1, C2. lia.
  - intros [= <- <-]. exists i. split; [exact Hc | congruence].
  - destruct ((i <? maxIter) || (maxIter <? 0)) eqn:Hcond.
    + destruct (loop_body fuel impl lineLen sd td img palette i tk st)
        as [st1|] eqn:Hb; [| discriminate].
      cbn [mbind option_bind]. cbn [length] in Hlen.
      assert (Ei : GoInt.add i 1 = i + 1) by (unfold GoInt.add; apply wrap_id'; lia).
      rewrite Ei. intros Hl.
      apply loop_body_counts in Hb as (n1 & Hn1 & Hv1); [| lia | exact Hc].
      destruct (exited (proc st1)) eqn:Hx1.
      * rewrite sketch_loop_exited in Hl by congruence.
        injection Hl as <- <-. exists n1. split; [exact Hn1 | congruence].
      * rewrite (Hv1 eq_refl) in Hn1.
        apply orb_true_iff in Hcond.
        destruct (IH (i + 1) st1 st' b) as (n & Hn & Hv);
          try assumption; try lia.
        exists n. split; [exact Hn |]. intros Hx'. rewrite (Hv Hx').
        destruct b; [reflexivity | cbn [length]; lia].
    + intros [= <- <-]. exists i. split; [exact Hc | intros _].
      apply orb_false_iff in Hcond as [C1 C2].
      apply Z.ltb_ge in C1, C2. lia.
Qed.

(** X17: in the first call of [sketch], over fewer than 2^62 turns, every
    statistics line is printed at a turn whose counter is a multiple of 50
    and reports at least one and at most all of the turns run so far, with
    no more convergences than turns; and, while the process has not
    exited, no turn is lost or counted twice: the turns reported by the
    lines, plus those in the running counter, are all the turns that have
    run ([maxIter] of them when the loop has been left).  For an image and
    a line length between 1 and 2^59 every such run completes. *)
Theorem sketch_statistics impl maxIter lineLen palUniq saveDelay statDelay img
    t0 t1 tks cr er after :
  Z.of_nat (length tks) < 2 ^ 62 ->
  (forall fuel st b,
     sketch fuel impl maxIter lineLen palUniq saveDelay statDelay img t0 t1
            tks cr er after = Some (st, b) ->
     Forall report_ok (reports st) /\
     0 <= statc (cv st) <= stati (cv st) /\
     (exited (proc st) = None ->
      counted st = if b then maxIter else Z.of_nat (length tks))) /\
  (0 < image.Dx img <= 2 ^ 59 -> 0 < image.Dy img <= 2 ^ 59 ->
   0 < lineLen <= 2 ^ 59 ->
   exists st b,
     sketch (S (Z.to_nat lineLen)) impl maxIter lineLen palUniq saveDelay
            statDelay img t0 t1 tks cr er after = Some (st, b)).
Proof.
  intros Hlen. split; [| apply sketch_total].
  intros fuel st b. unfold sketch. cbv zeta.
  destruct (sketch_loop _ _ _ _ _ _ _ _ _ _ _) as [[st1 b1]|] eqn:Hl;
    [| discriminate].
  cbn [mbind option_bind].
  assert (Hm : 0 <= maxIter \/ maxIter < 0) by lia.
  pose proof Hl as Hl'.
  apply sketch_loop_counts in Hl as (n & (A & B & C & D) & Hv);
    [| lia | lia | lia | repeat split; try constructor; cbn; lia ].
  destruct b1; intros [= <- <-].
  - destruct (sketch_end_keeps cr er after st1) as (E1 & E2 & _).
    unfold counted. rewrite E1, E2. split; [exact D |]. split; [exact A |].
    intros _. specialize (Hv (sketch_loop_left _ _ _ _ _ _ _ _ _ _ _ _ Hl')).
    cbn in Hv. unfold counted in C. lia.
  - split; [exact D |]. split; [exact A |]. intros Hx.
    specialize (Hv Hx). cbn in Hv. unfold counted in C. unfold counted. lia.
Qed.

Lemma sketch_statistics_witness :
  exists st b,
    sketch 3 (fun _ => 0) 2 2 false (Qmake (-1) 1) (Qmake 0 1) sample_img 0 0
           [sample_tick; sample_tick] Created Encoded None = Some (st, b) /\
    Forall report_ok (reports st) /\
    0 <= statc (cv st) <= stati (cv st) /\
    (exited (proc st) = None ->
     counted st = if b then 2 else Z.of_nat (length [sample_tick; sample_tick])).
Proof.
  destruct (sketch 3 (fun _ => 0) 2 2 false (Qmake (-1) 1) (Qmake 0 1) sample_img
                   0 0 [sample_tick; sample_tick] Created Encoded None)
    as [[st b]|] eqn:E; [| vm_compute in E; discriminate E].
  exists st, b. split; [reflexivity |].
  assert (Hlen : Z.of_nat (length [sample_tick; sample_tick]) < 2 ^ 62)
    by (cbn; lia).
  exact (proj1 (sketch_statistics _ _ _ _ _ _ _ _ _ _ _ _ _ Hlen) _ _ _ E).
Defined.

(** ** The loop of [sketch]: checkpoints and the frame *)






Lemma Duration_fraction impl sd :
  0 < Qnum sd < Z.pos (Qden sd) -> time.Duration impl sd = 0.
Proof.
  intros H. unfold time.Duration. cbv zeta.
  rewrite Z.quot_small by lia. reflexivity.
Qed.

Lemma loop_body_checkpoint fuel impl lineLen sd td img palette i tk st st' :
  0 < Qnum sd < Z.pos (Qden sd) ->
  lastSaveTime st <= tk_now tk ->
  - 2 ^ 62 <= incrSaveNum st <= 2 ^ 62 ->
  loop_body fuel impl lineLen sd td img palette i tk st = Some st' ->
  exited (proc st') = None ->
  incrSaveNum st'
  = (if Z.rem i 50 =? 0 then incrSaveNum st + 1 else incrSaveNum st) /\
  lastSaveTime st'
  = (if Z.rem i 50 =? 0 then tk_now_save tk else lastSaveTime st).
Proof.
  intros Hsd Ht Hn. unfold loop_body. cbv zeta.
  destruct (exited (goroutine_runs (tk_early tk) (proc st))) eqn:Hx0.
  { intros [= <-]. cbn [proc set_proc]. congruence. }
  destruct (iteration fuel lineLen img palette (cv st) (tk_draws tk))
    as [s'|]; [| discriminate].
  cbn [mbind option_bind].
  match goal with
  | |- match exited ?q with _ => _ end = _ -> _ => generalize q; intros p
  end.
  destruct (exited p) eqn:Hp; [intros [= <-]; cbn [proc]; congruence |].
  destruct (Z.rem i 50 =? 0); [| intros [= <-] _; split; reflexivity].
  unfold checkpoint. cbv zeta.
  assert (Ez : (0 <? Qnum sd) = true) by (apply Z.ltb_lt; lia).
  rewrite Ez, (Duration_fraction impl sd Hsd).
  cbn [lastSaveTime incrSaveNum proc cv saveNum lastStatTime reports].
  assert (Ed : (GoInt.mul 0 time.Second <=? time.Sub (tk_now tk) (lastSaveTime st))
               = true).
  { apply Z.leb_le. change (GoInt.mul 0 time.Second) with 0.
    unfold time.Sub, GoInt.MinInt, GoInt.MaxInt. lia. }
  rewrite Ed. cbn [andb].
  destruct (exited (save _ _ _ p)) eqn:Hs; cbn [proc set_proc]; rewrite Hs.
  - intros [= <-]. unfold set_proc. cbn [proc]. congruence.
  - intros [= <-] _.
    match goal with |- context [report _ _ _ _ ?s] => set (st1 := s) end.
    destruct (report_cases impl td i tk st1) as (_ & E2 & _ & E4 & _).
    rewrite E2, E4. subst st1. cbn [incrSaveNum lastSaveTime].
    split; [| reflexivity]. unfold GoInt.add. apply wrap_id'. lia.
Qed.

Lemma sketch_loop_checkpoints fuel impl maxIter lineLen sd td img palette :
  0 < Qnum sd < Z.pos (Qden sd) ->
  forall tks i st st' b t,
  0 <= i -> i + Z.of_nat (length tks) < 2 ^ 62 ->
  i <= maxIter \/ maxIter < 0 ->
  incrSaveNum st = 1 + (i + 49) / 50 ->
  lastSaveTime st <= t -> clock_forward t tks ->
  sketch_loop fuel impl maxIter lineLen sd td img palette i tks st
  = Some (st', b) ->
  exited (proc st') = None ->
  incrSaveNum st'
  = 1 + ((if b then maxIter else i + Z.of_nat (length tks)) + 49) / 50.
Proof.
  intros Hsd.
  induction tks as [|tk tks IH]; intros i st st' b t Hi Hlen Hm Hn Ht Hc;
    cbn [sketch_loop]; destruct (exited (proc st)) eqn:Hx.
  - intros [= <- <-]. congruence.
  - destruct ((i <? maxIter) || (maxIter <? 0)) eqn:Hcond; intros [= <- <-] _.
    + cbn [length]. rewrite Hn. f_equal. f_equal. lia.
    + apply orb_false_iff in Hcond as [C1 C2]. apply Z.ltb_ge in C1, C2.
      rewrite Hn. f_equal. f_equal. lia.
  - intros [= <- <-]. congruence.
  - destruct ((i <? maxIter) || (maxIter <? 0)) eqn:Hcond.
    + destruct (loop_body fuel impl lineLen sd td img palette i tk st)
        as [st1|] eqn:Hb; [| discriminate].
      cbn [mbind option_bind]. cbn [length] in Hlen.
      assert (Ei : GoInt.add i 1 = i + 1) by (unfold GoInt.add; apply wrap_id'; lia).
      rewrite Ei. intros Hl Hx'.
      destruct Hc as (Hc1 & Hc2 & Hc3).
      assert (Hx1 : exited (proc st1) = None).
      { destruct (exited (proc st1)) eqn:E1; [| reflexivity].
        rewrite sketch_loop_exited in Hl by congruence.
        injection Hl as <- <-. congruence. }
      assert (Hdiv : 0 <= (i + 49) / 50 <= i + 1).
      { split; [apply Z.div_pos; lia |].
        apply Z.div_le_upper_bound; lia. }
      apply loop_body_checkpoint in Hb as [E1 E2]; try assumption; try lia.
      apply orb_true_iff in Hcond.
      assert (Hm' : i + 1 <= maxIter \/ maxIter < 0)
        by (destruct Hcond as [C | C]; apply Z.ltb_lt in C; lia).
      assert (Hrem : Z.rem i 50 = i mod 50) by (apply Z.rem_mod_nonneg; lia).
      rewrite Hrem in E1, E2.
      assert (Hn1 : incrSaveNum st1 = 1 + (i + 1 + 49) / 50).
      { rewrite E1, Hn. destruct (i mod 50 =? 0) eqn:Hz.
        - apply Z.eqb_eq in Hz. Z.div_mod_to_equations. lia.
        - apply Z.eqb_neq in Hz. Z.div_mod_to_equations. lia. }
      assert (Ht1 : lastSaveTime st1 <= tk_now_save tk).
      { rewrite E2. destruct (i mod 50 =? 0); lia. }
      assert (Hi1 : 0 <= i + 1) by lia.
      assert (Hlen1 : i + 1 + Z.of_nat (length tks) < 2 ^ 62) by lia.
      rewrite (IH (i + 1) st1 st' b (tk_now_save tk) Hi1 Hlen1 Hm' Hn1 Ht1 Hc3 Hl Hx').
      destruct b; [reflexivity |]. f_equal. f_equal. cbn [length]. lia.
    + intros [= <- <-] _.
      apply orb_false_iff in Hcond as [C1 C2]. apply Z.ltb_ge in C1, C2.
      rewrite Hn. f_equal. f_equal. lia.
Qed.

(** X19: the fraction of the checkpoint interval is discarded when it is
    turned into a duration, so with an interval above 0 and below 1 second
    the threshold is 0: over fewer than 2^62 turns during which the clock
    does not run backwards, a checkpoint is saved at every turn whose
    counter is a multiple of 50, whatever time has passed: after n turns of
    the first call of [sketch], the process not having exited, the
    checkpoint number is 1 + n/50 rounded up.  For an image and a line
    length between 1 and 2^59 every such run completes. *)
Theorem sketch_checkpoints_below_one_second impl maxIter lineLen palUniq
    saveDelay statDelay img t0 t1 tks cr er after :
  0 < Qnum saveDelay < Z.pos (Qden saveDelay) ->
  Z.of_nat (length tks) < 2 ^ 62 ->
  clock_forward t0 tks ->
  (forall fuel st b,
     sketch fuel impl maxIter lineLen palUniq saveDelay statDelay img t0 t1
            tks cr er after = Some (st, b) ->
     exited (proc st) = None ->
     incrSaveNum st
     = 1 + ((if b then maxIter else Z.of_nat (length tks)) + 49) / 50) /\
  (0 < image.Dx img <= 2 ^ 59 -> 0 < image.Dy img <= 2 ^ 59 ->
   0 < lineLen <= 2 ^ 59 ->
   exists st b,
     sketch (S (Z.to_nat lineLen)) impl maxIter lineLen palUniq saveDelay
            statDelay img t0 t1 tks cr er after = Some (st, b)).
Proof.
  intros Hsd Hlen Hc. split; [| apply sketch_total].
  intros fuel st b. unfold sketch. cbv zeta.
  destruct (sketch_loop _ _ _ _ _ _ _ _ _ _ _) as [[st1 b1]|] eqn:Hl;
    [| discriminate].
  cbn [mbind option_bind]. intros H Hx.
  assert (Hx1 : exited (proc st1) = None).
  { destruct b1; [exact (sketch_loop_left _ _ _ _ _ _ _ _ _ _ _ _ Hl) |].
    injection H as <- <-. exact Hx. }
  assert (Hm : 0 <= maxIter \/ maxIter < 0) by lia.
  apply (sketch_loop_checkpoints _ _ _ _ _ _ _ _ Hsd _ _ _ _ _ t0) in Hl;
    try assumption; try lia; try reflexivity.
  destruct b1; injection H as <- <-.
  - destruct (sketch_end_keeps cr er after st1) as (_ & _ & E).
    rewrite E, Hl. reflexivity.
  - rewrite Hl. reflexivity.
Qed.

Lemma sketch_checkpoints_below_one_second_witness :
  exists st b,
    sketch 3 (fun _ => 0) 2 2 false (Qmake 1 2) (Qmake 1 1) sample_img 0 0
           [sample_tick; later_tick] Created Encoded None = Some (st, b) /\
    exited (proc st) = None /\
    incrSaveNum st
    = 1 + ((if b then 2 else Z.of_nat (length [sample_tick; later_tick])) + 49) / 50.
Proof.
  destruct (sketch 3 (fun _ => 0) 2 2 false (Qmake 1 2) (Qmake 1 1) sample_img
                   0 0 [sample_tick; later_tick] Created Encoded None)
    as [[st b]|] eqn:E; [| vm_compute in E; discriminate E].
  exists st, b. split; [reflexivity |].
  assert (Hsd : 0 < Qnum (Qmake 1 2) < Z.pos (Qden (Qmake 1 2))) by (cbn; lia).
  assert (Hlen : Z.of_nat (length [sample_tick; later_tick]) < 2 ^ 62)
    by (cbn; lia).
  assert (Hc : clock_forward 0 [sample_tick; later_tick]) by (cbn; lia).
  assert (Hx : exited (proc st) = None).
  { vm_compute in E. injection E as <- _. reflexivity. }
  split; [exact Hx |].
  exact (proj1 (sketch_checkpoints_below_one_second _ _ _ _ _ _ _ _ _ _ _ _ _
                  Hsd Hlen Hc) _ _ _ E Hx).
Defined.

(** ** The loop of [sketch]: when it is left *)

Lemma sketch_loop_returns impl maxIter lineLen sd td img palette :
  0 < image.Dx img <= 2 ^ 59 -> 0 < image.Dy img <= 2 ^ 59 ->
  0 < lineLen <= 2 ^ 59 -> palette <> [] ->
  maxIter <= GoInt.MaxInt ->
  forall tks i st,
  maxIter < 0 \/ 0 <= i <= maxIter ->
  exists st' b,
    sketch_loop (S (Z.to_nat lineLen)) impl maxIter lineLen sd td img palette
                i tks st
    = Some (st', b) /\
    (exited (proc st') = None ->
     b = true <-> 0 <= maxIter /\ maxIter - i <= Z.of_nat (length tks)).
Proof.
  intros Hw Hh Hl Hp Hmax.
  induction tks as [|tk tks IH]; intros i st Hi; cbn [sketch_loop];
    destruct (exited (proc st)) eqn:Hx.
  - exists st, false. split; [reflexivity | congruence].
  - destruct ((i <? maxIter) || (maxIter <? 0)) eqn:Hcond.
    + exists st, false. split; [reflexivity | intros _].
      apply orb_true_iff in Hcond. cbn [length].
      split; [discriminate |]. intros [A B]. exfalso.
      destruct Hcond as [C | C]; apply Z.ltb_lt in C; lia.
    + exists st, true. split; [reflexivity | intros _].
      apply orb_false_iff in Hcond as [C1 C2]. apply Z.ltb_ge in C1, C2.
      split; [intros _ | reflexivity]. cbn [length]. lia.
  - exists st, false. split; [reflexivity | congruence].
  - destruct ((i <? maxIter) || (maxIter <? 0)) eqn:Hcond.
    + destruct (loop_body_total impl lineLen sd td img palette i tk st Hw Hh Hl Hp)
        as [st1 ->].
      cbn [mbind option_bind].
      apply orb_true_iff in Hcond.
      assert (Hi' : maxIter < 0 \/ 0 <= GoInt.add i 1 <= maxIter).
      { destruct (Z.lt_ge_cases maxIter 0) as [Hm | Hm]; [now left | right].
        assert (Hlt : i < maxIter)
          by (destruct Hcond as [C | C]; apply Z.ltb_lt in C; lia).
        unfold GoInt.add. rewrite wrap_id';
          unfold GoInt.MaxInt in Hmax; lia. }
      destruct (IH (GoInt.add i 1) st1 Hi') as (st' & b & E & Hb).
      exists st', b. split; [exact E |]. intros Hx'. rewrite (Hb Hx').
      cbn [length].
      destruct (Z.lt_ge_cases maxIter 0) as [Hm | Hm]; [lia |].
      assert (Hlt : i < maxIter)
        by (destruct Hcond as [C | C]; apply Z.ltb_lt in C; lia).
      assert (Ei : GoInt.add i 1 = i + 1).
      { unfold GoInt.add. apply wrap_id'. unfold GoInt.MaxInt in Hmax. lia. }
      rewrite Ei. lia.
    + exists st, true. split; [reflexivity | intros _].
      apply orb_false_iff in Hcond as [C1 C2]. apply Z.ltb_ge in C1, C2.
      split; [intros _ | reflexivity]. lia.
Qed.

(** X20: on an image and with a line length within the sizes for which the
    lines end, every turn of the loop of [sketch] completes, and the call
    leaves its loop (unless a failed snapshot ends the process) exactly when
    [maxIter] is not negative and that many turns have run; with a negative
    [maxIter] the loop is never left, so the save of the frame after it
    (line 332) is never reached. *)
Theorem sketch_returns impl maxIter lineLen palUniq saveDelay statDelay img
    t0 t1 tks cr er after :
  0 < image.Dx img <= 2 ^ 59 -> 0 < image.Dy img <= 2 ^ 59 ->
  0 < lineLen <= 2 ^ 59 -> maxIter <= GoInt.MaxInt ->
  exists st b,
    sketch (S (Z.to_nat lineLen)) impl maxIter lineLen palUniq saveDelay
           statDelay img t0 t1 tks cr er after = Some (st, b) /\
    (exited (proc st) = None ->
     b = true <-> 0 <= maxIter <= Z.of_nat (length tks)).
Proof.
  intros Hw Hh Hl Hmax. unfold sketch. cbv zeta.
  assert (Hp : build_palette palUniq img <> []).
  { intros E. apply build_palette_nil in E. lia. }
  assert (Hi : maxIter < 0 \/ 0 <= 0 <= maxIter) by lia.
  destruct (sketch_loop_returns impl maxIter lineLen saveDelay statDelay img
              (build_palette palUniq img) Hw Hh Hl Hp Hmax tks 0
              (sketch_begin (build_palette palUniq img) img t0 t1) Hi)
    as (st1 & b1 & Hl1 & Hb).
  rewrite Hl1. cbn [mbind option_bind]. destruct b1.
  - eexists _, true. split; [reflexivity |]. intros _.
    specialize (Hb (sketch_loop_left _ _ _ _ _ _ _ _ _ _ _ _ Hl1)).
    split; [intros _ | reflexivity]. destruct Hb as [Hb _].
    specialize (Hb eq_refl). lia.
  - exists st1, false. split; [reflexivity |]. intros Hx. specialize (Hb Hx).
    split; [discriminate |]. intros H. exfalso.
    assert (Hf : false = true) by (apply Hb; lia). discriminate Hf.
Qed.

Lemma sketch_returns_witness :
  exists st b,
    sketch 3 (fun _ => 0) 2 2 false (Qmake (-1) 1) (Qmake 1 1) sample_img 0 0
           [sample_tick; later_tick] Created Encoded None = Some (st, b) /\
    (exited (proc st) = None ->
     b = true <-> 0 <= 2 <= Z.of_nat (length [sample_tick; later_tick])).
Proof.
  assert (Hw : 0 < image.Dx sample_img <= 2 ^ 59) by (cbn; lia).
  assert (Hh : 0 < image.Dy sample_img <= 2 ^ 59) by (cbn; lia).
  assert (Hl : 0 < 2 <= 2 ^ 59) by lia.
  assert (Hmax : 2 <= GoInt.MaxInt) by (vm_compute; congruence).
  exact (sketch_returns (fun _ => 0) 2 2 false (Qmake (-1) 1) (Qmake 1 1)
           sample_img 0 0 [sample_tick; later_tick] Created Encoded None
           Hw Hh Hl Hmax).
Defined.
